(** * func_utils: argument binding, argument tuples, adapters, polymorphic dispatch

    A shallow embedding of
    [tensorflow_federated/python/core/impl/func_utils.py] (Python 2) and the
    properties of its functions.

    Python values are object references: [obj] is the type of references and
    the identity test [is] is equality on [obj].  The modules the file imports
    but does not define ([types], [type_utils], [anonymous_tuple], [inspect],
    the builtin tuple and dict constructors, calling a callable) are the
    fields of the class [Runtime]; every function of the file is defined once,
    for all runtimes.  A computation that may raise returns an [outcome]. *)

From stdpp Require Import gmap strings list fin_maps pretty.
From Stdlib Require Import ZArith Lia.

Local Open Scope Z_scope.

(** ** Exceptions *)

(** The text of each [raise TypeError(...)] statement of the file, one
    constructor per statement (named as the specification names the fault);
    [NotSubscriptable] is the interpreter's, for a subscript on [None], and
    [MultipleValuesForKeyword name] the interpreter's, for a call that gives
    the parameter [name] by position and again as a keyword. *)
Inductive message : Type :=
  | UnsupportedDefun
  | UnsupportedCallableKind
  | TooManyPositionalArguments
  | DuplicateArgument (specarg : string)
  | MissingArgument (specarg : string)
  | UnexpectedKeywordArguments
  | NotArgumentTuple
  | UnexpectedUnpackValue
  | IncompatibleNoParameterSignature
  | CannotAcceptAsSingleArgument
  | CannotAcceptAsMultipleArguments
  | CannotAcceptEitherForm
  | AmbiguousUnpackingChoice
  | ExpectedAnonymousTuple
  | TypeMismatchAt (idx : nat)
  | TypeMismatchNamed (name : string)
  | TypeMismatch
  | NotSubscriptable
  | MultipleValuesForKeyword (name : string).

(** [TypeError m] is raised by a statement of this file; [IndexError] and
    [KeyError] by a subscript of this file; [AssertionError] by its [assert];
    [UnboundLocalError] by reading a local that was never assigned;
    [Foreign te txt] inside a collaborator, [te] telling whether the exception is an instance of
    [TypeError] (so that [except TypeError] catches it). *)
Inductive exn : Type :=
  | TypeError (m : message)
  | IndexError
  | KeyError
  | AssertionError
  | UnboundLocalError
  | Foreign (type_error : bool) (text : string).

Definition is_TypeError (e : exn) : bool :=
  match e with
  | TypeError _ => true
  | Foreign te _ => te
  | IndexError | KeyError | AssertionError | UnboundLocalError => false
  end.

Inductive outcome (A : Type) : Type :=
  | Ok (a : A)
  | Raise (e : exn).
Arguments Ok {A} a.
Arguments Raise {A} e.

#[global] Instance outcome_ret : MRet outcome := fun A a => Ok a.
#[global] Instance outcome_bind : MBind outcome := fun A B k c =>
  match c with
  | Ok a => k a
  | Raise e => Raise e
  end.

(** What a call into a collaborator does: it returns, or it throws an
    exception of its own. *)
Inductive collab (A : Type) : Type :=
  | Returns (a : A)
  | Throws (type_error : bool) (text : string).
Arguments Returns {A} a.
Arguments Throws {A} type_error text.

Definition run {A} (c : collab A) : outcome A :=
  match c with
  | Returns a => Ok a
  | Throws te text => Raise (Foreign te text)
  end.

(** [try: c  except TypeError: h]. *)
Definition try_except_TypeError {A} (c : outcome A) (h : outcome A) : outcome A :=
  match c with
  | Ok a => Ok a
  | Raise e => if is_TypeError e then h else Raise e
  end.

(** ** Data *)

(** [inspect.ArgSpec(args, varargs, keywords, defaults)]; [defaults] is [None]
    or a tuple. *)
Record ArgSpec (obj : Type) : Type := mkArgSpec {
  args : list string;
  varargs : option string;
  keywords : option string;
  defaults : option (list obj)
}.
Arguments mkArgSpec {obj} _ _ _ _.
Arguments args {obj} _.
Arguments varargs {obj} _.
Arguments keywords {obj} _.
Arguments defaults {obj} _.

(** Truth value of a name that is [None] or a string: the empty string is
    false. *)
Definition name_truthy (n : option string) : bool :=
  match n with
  | Some s => negb (String.eqb s "")
  | None => false
  end.

(** Truth value of [argspec.defaults]: [None] and the empty tuple are false. *)
Definition seq_truthy {A} (s : option (list A)) : bool :=
  match s with
  | Some (_ :: _) => true
  | _ => false
  end.

(** [len(s) if s else 0]. *)
Definition len_or_0 {A} (s : option (list A)) : nat :=
  match s with
  | Some l => length l
  | None => 0%nat
  end.

(** [l[i]] with Python's negative indices. *)
Definition py_index {A} (l : list A) (i : Z) : outcome A :=
  let j := if 0 <=? i then i else Z.of_nat (length l) + i in
  if j <? 0 then Raise IndexError
  else match l !! Z.to_nat j with
       | Some a => Ok a
       | None => Raise IndexError
       end.

(** [d[k]]. *)
Definition dict_getitem {A} (d : gmap string A) (k : string) : outcome A :=
  match d !! k with
  | Some a => Ok a
  | None => Raise KeyError
  end.

(** ** The collaborators *)

Class Runtime : Type := {
  obj : Type;
  obj_eq_dec :: EqDecision obj;
  (** the objects [None], [True] and [False] *)
  py_None : obj;
  py_True : obj;
  py_False : obj;
  False_is_not_None : py_False ≠ py_None;
  (** [bool(o)] *)
  truthy : obj -> bool;
  truthy_None : truthy py_None = false;
  truthy_True : truthy py_True = true;
  truthy_False : truthy py_False = false;
  (** [x == y], as a truth value; [False] and [None] are equal to nothing
      but themselves *)
  py_eq : obj -> obj -> collab bool;
  False_eq_True : py_eq py_False py_True = Returns false;
  None_eq_True : py_eq py_None py_True = Returns false;
  None_eq_False : py_eq py_None py_False = Returns false;
  (** [types.to_type], [type_utils.infer_type], [t.is_assignable_from(u)]
      (the truth value of what the method returns), [repr] *)
  types_to_type : obj -> collab obj;
  type_utils_infer_type : obj -> collab obj;
  method_is_assignable_from : obj -> obj -> collab bool;
  builtin_repr : obj -> collab string;
  (** [isinstance(o, AnonymousTuple)] with [anonymous_tuple.to_elements(o)];
      [isinstance(o, types.NamedTupleType)] with [o.elements]; the
      constructor [anonymous_tuple.AnonymousTuple] *)
  as_AnonymousTuple : obj -> option (list (option string * obj));
  as_NamedTupleType : obj -> option (list (option string * obj));
  anonymous_tuple_AnonymousTuple : list (option string * obj) -> collab obj;
  (** the tuple and dict objects the binder stores under the collectors *)
  tuple_of : list obj -> obj;
  dict_of : gmap string obj -> obj;
  (** [d.iteritems()]: a Python 2 dict lists its items in an order of its
      own, some enumeration of the items it holds *)
  iteritems : gmap string obj -> list (string * obj);
  iteritems_perm : forall d, iteritems d ≡ₚ map_to_list d;
  (** [isinstance(f, types.FunctionType)], [isinstance(f, (_DefinedFunction,
      _OverloadedFunction))], [inspect.getargspec], [f._func] *)
  is_FunctionType : obj -> bool;
  is_tf_function : obj -> bool;
  inspect_getargspec : obj -> collab (ArgSpec obj);
  defun_func : obj -> obj;
  (** calling [f] on positional and keyword arguments *)
  apply_callable : obj -> list obj -> gmap string obj -> collab obj
}.

Section FuncUtils.

Context `{RT : Runtime}.

Local Abbreviation element := (option string * obj)%type.

(** The calls into the collaborators, as computations of this file. *)
Definition to_type (o : obj) : outcome obj := run (types_to_type o).
Definition infer_type (o : obj) : outcome obj := run (type_utils_infer_type o).
Definition is_assignable_from (t u : obj) : outcome bool :=
  run (method_is_assignable_from t u).
Definition repr (o : obj) : outcome string := run (builtin_repr o).
Definition AnonymousTuple (els : list element) : outcome obj :=
  run (anonymous_tuple_AnonymousTuple els).
Definition getargspec (f : obj) : outcome (ArgSpec obj) :=
  run (inspect_getargspec f).
Definition call (f : obj) (a : list obj) (kwargs : gmap string obj)
    : outcome obj :=
  run (apply_callable f a kwargs).

(** ** is_defun, get_argspec *)

Definition is_defun (func : obj) : bool := is_tf_function func.

Definition get_argspec (func : obj) : outcome (ArgSpec obj) :=
  if is_FunctionType func then getargspec func
  else if is_tf_function func then getargspec (defun_func func)
  else if is_defun func then Raise (TypeError UnsupportedDefun)
  else Raise (TypeError UnsupportedCallableKind).

(** ** get_callargs_for_argspec *)

(** One iteration of [for idx, specarg in enumerate(argspec.args)]. *)
Definition bind_specarg (argspec : ArgSpec obj) (a : list obj)
    (kwargs : gmap string obj) (num_specargs_without_defaults : Z)
    (idx : nat) (specarg : string) (result : gmap string obj)
    : outcome (gmap string obj) :=
  if (idx <? length a)%nat then
    if decide (is_Some (kwargs !! specarg)) then
      Raise (TypeError (DuplicateArgument specarg))
    else
      v ← py_index a (Z.of_nat idx);
      Ok (<[specarg := v]> result)
  else
    match kwargs !! specarg with
    | Some v => Ok (<[specarg := v]> result)
    | None =>
        if num_specargs_without_defaults <=? Z.of_nat idx then
          match defaults argspec with
          | Some ds =>
              v ← py_index ds (Z.of_nat idx - num_specargs_without_defaults);
              Ok (<[specarg := v]> result)
          | None => Raise (TypeError NotSubscriptable)
          end
        else Raise (TypeError (MissingArgument specarg))
    end.

Fixpoint bind_specargs (argspec : ArgSpec obj) (a : list obj)
    (kwargs : gmap string obj) (num_specargs_without_defaults : Z)
    (idx : nat) (specargs : list string) (result : gmap string obj)
    : outcome (gmap string obj) :=
  match specargs with
  | [] => Ok result
  | specarg :: rest =>
      result' ← bind_specarg argspec a kwargs num_specargs_without_defaults
                    idx specarg result;
      bind_specargs argspec a kwargs num_specargs_without_defaults
        (S idx) rest result'
  end.

(** The statements after the loop: [unused_kwargs] and the two collectors. *)
Definition bind_collectors (argspec : ArgSpec obj) (a : list obj)
    (kwargs : gmap string obj) (result : gmap string obj)
    : outcome (gmap string obj) :=
  let num_specargs := length (args argspec) in
  let unused_kwargs : gmap string obj :=
    filter (fun kv => result !! kv.1 = None) kwargs in
  let result1 :=
    match varargs argspec with
    | Some name =>
        if name_truthy (varargs argspec)
        then <[name := tuple_of (drop num_specargs a)]> result
        else result
    | None => result
    end in
  match keywords argspec with
  | Some name =>
      if name_truthy (keywords argspec)
      then Ok (<[name := dict_of unused_kwargs]> result1)
      else if decide (unused_kwargs = ∅) then Ok result1
           else Raise (TypeError UnexpectedKeywordArguments)
  | None =>
      if decide (unused_kwargs = ∅) then Ok result1
      else Raise (TypeError UnexpectedKeywordArguments)
  end.

Definition get_callargs_for_argspec (argspec : ArgSpec obj) (a : list obj)
    (kwargs : gmap string obj) : outcome (gmap string obj) :=
  let num_specargs := length (args argspec) in
  let num_defaults := if seq_truthy (defaults argspec)
                      then len_or_0 (defaults argspec) else 0%nat in
  let num_specargs_without_defaults :=
    Z.of_nat num_specargs - Z.of_nat num_defaults in
  if (num_specargs <? length a)%nat && negb (name_truthy (varargs argspec)) then
    Raise (TypeError TooManyPositionalArguments)
  else
    result ← bind_specargs argspec a kwargs num_specargs_without_defaults
               0%nat (args argspec) ∅;
    bind_collectors argspec a kwargs result.

(** ** is_argspec_compatible_with_types *)

(** The three lines that test a supplied type against a default:
    [types.to_type(call_arg)], [type_utils.infer_type(default_value)],
    [arg_type.is_assignable_from(default_type)]. *)
Definition check_default (call_arg default_value : obj) : outcome bool :=
  arg_type ← to_type call_arg;
  default_type ← infer_type default_value;
  is_assignable_from arg_type default_type.

(** The loop [for idx, default_value in enumerate(argspec.defaults)], from
    index [idx] on. *)
Fixpoint verify_defaults (argspec : ArgSpec obj) (callargs : gmap string obj)
    (num_specargs_without_defaults : Z) (idx : nat) (ds : list obj)
    : outcome bool :=
  match ds with
  | [] => Ok true
  | default_value :: rest =>
      if decide (default_value = py_None) then
        verify_defaults argspec callargs num_specargs_without_defaults (S idx) rest
      else
        arg_name ← py_index (args argspec)
                     (num_specargs_without_defaults + Z.of_nat idx);
        call_arg ← dict_getitem callargs arg_name;
        if decide (call_arg = default_value) then
          verify_defaults argspec callargs num_specargs_without_defaults (S idx) rest
        else
          assignable ← check_default call_arg default_value;
          if (assignable : bool) then
            verify_defaults argspec callargs num_specargs_without_defaults (S idx) rest
          else Ok false
  end.

(** The body of the [try] statement: [inl b] when it returned [b], [inr
    callargs] when control reached its end. *)
Definition try_body (argspec : ArgSpec obj) (a : list obj)
    (kwargs : gmap string obj) : outcome (bool + gmap string obj) :=
  callargs ← get_callargs_for_argspec argspec a kwargs;
  if negb (seq_truthy (defaults argspec)) then Ok (inl true)
  else Ok (inr callargs).

Definition is_argspec_compatible_with_types (argspec : ArgSpec obj)
    (a : list obj) (kwargs : gmap string obj) : outcome bool :=
  r ← try_except_TypeError (try_body argspec a kwargs) (Ok (inl false));
  match r with
  | inl b => Ok b
  | inr callargs =>
      let num_specargs_without_defaults :=
        Z.of_nat (length (args argspec))
        - Z.of_nat (length (default [] (defaults argspec))) in
      verify_defaults argspec callargs num_specargs_without_defaults 0%nat
        (default [] (defaults argspec))
  end.

(** ** is_argument_tuple *)

(** The loop of [is_argument_tuple] from index [idx] on, on the pair
    [(max_unnamed, min_named)]. *)
Fixpoint scan_elements (idx : Z) (elements : list element) (st : Z * Z) : Z * Z :=
  match elements with
  | [] => st
  | e :: rest =>
      scan_elements (idx + 1) rest
        (if name_truthy e.1 then (st.1, Z.min st.2 idx) else (idx, st.2))
  end.

Definition elements_in_order (elements : list element) : bool :=
  let '(max_unnamed, min_named) :=
    scan_elements 0 elements (-1, Z.of_nat (length elements)) in
  max_unnamed <? min_named.

Definition is_argument_tuple (arg : obj) : outcome bool :=
  match as_AnonymousTuple arg with
  | Some elements => Ok (elements_in_order elements)
  | None =>
      arg' ← to_type arg;
      match as_NamedTupleType arg' with
      | Some elements => Ok (elements_in_order elements)
      | None => Ok false
      end
  end.

(** ** unpack_args_from_tuple, pack_args_into_anonymous_tuple *)

(** The loop [for e in elements] on the pair [(args, kwargs)]. *)
Fixpoint split_elements (elements : list element)
    (acc : list obj * gmap string obj) : list obj * gmap string obj :=
  match elements with
  | [] => acc
  | e :: rest =>
      split_elements rest
        (match e.1 with
         | Some name =>
             if name_truthy e.1 then (acc.1, <[name := e.2]> acc.2)
             else (acc.1 ++ [e.2], acc.2)
         | None => (acc.1 ++ [e.2], acc.2)
         end)
  end.

Definition unpack_args_from_tuple (tuple_with_args : obj)
    : outcome (list obj * gmap string obj) :=
  elements ←
    (match as_AnonymousTuple tuple_with_args with
     | Some elements => Ok elements
     | None =>
         t ← to_type tuple_with_args;
         match as_NamedTupleType t with
         | Some elements => Ok elements
         | None => Raise (TypeError NotArgumentTuple)
         end
     end);
  Ok (split_elements elements ([], ∅)).

(** The list handed to the constructor:
    [[(None, arg) for arg in args] + list(kwargs.iteritems())]. *)
Definition packed_elements (a : list obj) (kwargs : gmap string obj)
    : list element :=
  map (fun arg => (None, arg)) a
  ++ map (fun kv => (Some kv.1, kv.2)) (iteritems kwargs).

Definition pack_args_into_anonymous_tuple (a : list obj)
    (kwargs : gmap string obj) : outcome obj :=
  AnonymousTuple (packed_elements a kwargs).

(** ** wrap_as_zero_or_one_arg_callable *)

(** The callable that is returned, as the closure it is: [NoArgCall func] is
    [lambda: func()]; [UnpackAndCall func at kt] is
    [lambda arg: _unpack_and_call(func, at, kt, arg)]; [SingleCall func pt] is
    [lambda arg: _call(func, pt, arg)]. *)
Inductive adapter : Type :=
  | NoArgCall (func : obj)
  | UnpackAndCall (func : obj) (arg_types : list obj) (kwarg_types : gmap string obj)
  | SingleCall (func : obj) (parameter_type : obj).

(** Whether the adapter unpacks its argument. *)
Definition unpacks (ad : adapter) : bool :=
  match ad with
  | UnpackAndCall _ _ _ => true
  | NoArgCall _ | SingleCall _ _ => false
  end.

(** [x in l] on a list: the elements are tried in order, and one is found
    when it is [x] itself or [x == element] is true. *)
Fixpoint py_in (x : obj) (l : list obj) : outcome bool :=
  match l with
  | [] => Ok false
  | y :: rest =>
      if decide (x = y) then Ok true
      else
        equal ← run (py_eq x y);
        if (equal : bool) then Ok true else py_in x rest
  end.

(** The tests [unpack is True], [unpack is False], [unpack is None] on the
    knob [unpack], which is any object. *)
Definition is_True (unpack : obj) : bool := bool_decide (unpack = py_True).
Definition is_False (unpack : obj) : bool := bool_decide (unpack = py_False).
Definition is_None (unpack : obj) : bool := bool_decide (unpack = py_None).

(** The object a Python boolean is. *)
Definition py_bool (b : bool) : obj := if b then py_True else py_False.

(** The call [is_argspec_compatible_with_types(argspec, ...)] with the
    positional arguments [arg_types] and the keyword arguments [kwarg_types]
    spread into it: the parameter [argspec] is given by position, so the
    interpreter refuses a keyword of that name before the body runs. *)
Definition spread_into_is_argspec_compatible_with_types (argspec : ArgSpec obj)
    (arg_types : list obj) (kwarg_types : gmap string obj) : outcome bool :=
  if decide (is_Some (kwarg_types !! "argspec"%string)) then
    Raise (TypeError (MultipleValuesForKeyword "argspec"))
  else is_argspec_compatible_with_types argspec arg_types kwarg_types.

(** The statements from [if is_argument_tuple(parameter_type)] to the
    assignment of [unpack_possible]: the value of [unpack_possible], and
    [arg_types], [kwarg_types] when they were assigned. *)
Definition compute_unpack_possible (argspec : ArgSpec obj) (parameter_type : obj)
    : outcome (bool * option (list obj * gmap string obj)) :=
  tup ← is_argument_tuple parameter_type;
  if (tup : bool) then
    types ← unpack_args_from_tuple parameter_type;
    c ← spread_into_is_argspec_compatible_with_types argspec types.1 types.2;
    Ok (c, Some types)
  else Ok (false, None).

(** The [else] branch of [if not parameter_type], after [unpack_required] was
    computed.  When [unpack is None] the knob is assigned the boolean
    [unpack_possible]; the last test is on its truth value. *)
Definition resolve_unpack (func : obj) (argspec : ArgSpec obj)
    (parameter_type : obj) (unpack : obj) (unpack_required : bool)
    : outcome adapter :=
  if unpack_required && is_False unpack then
    Raise (TypeError CannotAcceptAsSingleArgument)
  else
    p ← compute_unpack_possible argspec parameter_type;
    let unpack_possible : bool := p.1 in
    if negb unpack_possible && is_True unpack then
      Raise (TypeError CannotAcceptAsMultipleArguments)
    else if unpack_required && negb unpack_possible then
      Raise (TypeError CannotAcceptEitherForm)
    else if negb unpack_required && unpack_possible && is_None unpack then
      Raise (TypeError AmbiguousUnpackingChoice)
    else
      unpack' ← (if is_None unpack then
                   if eqb unpack_required unpack_possible
                   then Ok (py_bool unpack_possible) else Raise AssertionError
                 else Ok unpack);
      if truthy unpack' then
        match p.2 with
        | Some types => Ok (UnpackAndCall func types.1 types.2)
        | None => Raise UnboundLocalError
        end
      else Ok (SingleCall func parameter_type).

Definition wrap_as_zero_or_one_arg_callable (func : obj) (parameter_type : obj)
    (unpack : obj) : outcome adapter :=
  expected ← py_in unpack [py_True; py_False; py_None];
  if negb expected then Raise (TypeError UnexpectedUnpackValue)
  else
    argspec ← get_argspec func;
    parameter_type ← to_type parameter_type;
    if negb (truthy parameter_type) then
      c ← is_argspec_compatible_with_types argspec [] ∅;
      if (c : bool) then Ok (NoArgCall func)
      else Raise (TypeError IncompatibleNoParameterSignature)
    else
      c ← is_argspec_compatible_with_types argspec [parameter_type] ∅;
      resolve_unpack func argspec parameter_type unpack (negb c).

(** The three values the docstring gives the knob: [True] (unpack), [False]
    (pass whole), [None] (infer). *)
Definition knob (unpack : option bool) : obj :=
  match unpack with
  | Some true => py_True
  | Some false => py_False
  | None => py_None
  end.

(** ** PolymorphicFunction *)

Record PolymorphicFunction : Type := mkPolymorphicFunction {
  _concrete_function_factory : obj;
  _concrete_function_cache : gmap string obj
}.

(** [PolymorphicFunction(concrete_function_factory)]. *)
Definition PolymorphicFunction_init (concrete_function_factory : obj)
    : PolymorphicFunction :=
  mkPolymorphicFunction concrete_function_factory ∅.

(** What a call does to the outside, in order. *)
Inductive event : Type :=
  | FactoryInvoked (arg_type : obj)
  | ConcreteInvoked (concrete_fn : obj).

(** [self.__call__(args..., kwargs...)]: the object afterwards, the
    invocations made, and the result. *)
Definition PolymorphicFunction_call (self : PolymorphicFunction)
    (a : list obj) (kwargs : gmap string obj)
    : PolymorphicFunction * list event * outcome obj :=
  match
    (packed_arg ← pack_args_into_anonymous_tuple a kwargs;
     arg_type ← infer_type packed_arg;
     key ← repr arg_type;
     Ok (arg_type, key))
  with
  | Raise e => (self, [], Raise e)
  | Ok (arg_type, key) =>
      let concrete_fn := default py_None (_concrete_function_cache self !! key) in
      if negb (truthy concrete_fn) then
        match call (_concrete_function_factory self) [arg_type] ∅ with
        | Raise e => (self, [FactoryInvoked arg_type], Raise e)
        | Ok concrete_fn =>
            (mkPolymorphicFunction (_concrete_function_factory self)
               (<[key := concrete_fn]> (_concrete_function_cache self)),
             [FactoryInvoked arg_type; ConcreteInvoked concrete_fn],
             call concrete_fn a kwargs)
        end
      else (self, [ConcreteInvoked concrete_fn], call concrete_fn a kwargs)
  end.

(** Number of factory invocations in a trace. *)
Fixpoint factory_invocations (tr : list event) : nat :=
  match tr with
  | [] => 0%nat
  | FactoryInvoked _ :: rest => S (factory_invocations rest)
  | ConcreteInvoked _ :: rest => factory_invocations rest
  end.

(** ** Vocabulary of the statements *)

(** An element is named when the code takes it as named: [if e[0]]. *)
Definition named (e : element) : bool := name_truthy e.1.

(** [arg] is an anonymous tuple, or converts to a named tuple type, with
    elements [els]: the classification both [is_argument_tuple] and
    [unpack_args_from_tuple] start with. *)
Definition elements_of (arg : obj) (els : list element) : Prop :=
  as_AnonymousTuple arg = Some els
  ∨ (as_AnonymousTuple arg = None
     ∧ ∃ t, to_type arg = Ok t ∧ as_NamedTupleType t = Some els).

(** [arg] is no anonymous tuple and converts to something that is no named
    tuple type. *)
Definition not_a_tuple (arg : obj) : Prop :=
  as_AnonymousTuple arg = None
  ∧ ∃ t, to_type arg = Ok t ∧ as_NamedTupleType t = None.

(** The values of the unnamed elements, in order. *)
Definition positional_values (els : list element) : list obj :=
  (filter (fun e => named e = false) els).*2.

(** The named elements as (name, value) pairs, in order. *)
Definition named_items (els : list element) : list (string * obj) :=
  omap (fun e : element =>
          match e.1 with
          | Some name => if named e then Some (name, e.2) else None
          | None => None
          end) els.

(** The dict that results from [kwargs[name] = value] for each pair in turn. *)
Definition dict_from (k0 : gmap string obj) (items : list (string * obj))
    : gmap string obj :=
  foldl (fun k kv => <[kv.1 := kv.2]> k) k0 items.

(** The invariant of an [ArgSpec]: no more defaults than names. *)
Definition wf_argspec (s : ArgSpec obj) : Prop :=
  (length (default [] (defaults s)) <= length (args s))%nat.

(** The index of the first name that has a default. *)
Definition first_default (s : ArgSpec obj) : nat :=
  (length (args s) - length (default [] (defaults s)))%nat.

(** The supplied type [bound] is assignable from the type inferred for the
    default [d]. *)
Definition default_admitted (bound d : obj) : Prop :=
  ∃ t dt, to_type bound = Ok t ∧ infer_type d = Ok dt
          ∧ is_assignable_from t dt = Ok true.

(** The default at index [idx], [d], needs no test or passes it against the
    callargs [c]: it is [None], or the object bound to its name is [d] itself
    or a type assignable from the type of [d]. *)
Definition default_passes (s : ArgSpec obj) (c : gmap string obj)
    (idx : nat) (d : obj) : Prop :=
  d = py_None
  ∨ ∃ name bound, args s !! (first_default s + idx)%nat = Some name
                  ∧ c !! name = Some bound
                  ∧ (bound = d ∨ default_admitted bound d).

(** The arguments [a], [kwargs] pack into a tuple whose inferred type is [t],
    and [repr(t)] is [key]. *)
Definition dispatch_key (a : list obj) (kwargs : gmap string obj)
    (t : obj) (key : string) : Prop :=
  ∃ packed_arg, pack_args_into_anonymous_tuple a kwargs = Ok packed_arg
                ∧ infer_type packed_arg = Ok t ∧ repr t = Ok key.

(** The arguments [a], [kwargs] pack into a tuple whose inferred type is
    [t]. *)
Definition inferred_type (a : list obj) (kwargs : gmap string obj) (t : obj)
    : Prop :=
  ∃ packed_arg, pack_args_into_anonymous_tuple a kwargs = Ok packed_arg
                ∧ infer_type packed_arg = Ok t.

(** Modelled from the spec: the canonical key of a type, which the code takes
    from [repr] on the type classes; these are outside this file.  Sections
    4.6 and 9 ask of it that it is a total function of the type and that two
    different types do not collide. *)
Definition canonical_keys : Prop :=
  ∀ x t, infer_type x = Ok t ->
    ∃ key, repr t = Ok key
           ∧ ∀ x' t', infer_type x' = Ok t' -> repr t' = Ok key -> t' = t.

(** [unpack_possible] has the value [b], told through the functions that
    compute it: the parameter type is no argument tuple and [b] is false, or
    it is one, its split holds no keyword named [argspec] (the split is
    spread into a call that gives its parameter of that name by position),
    and the compatibility test on the split returns [b]. *)
Definition unpack_possible_is (s : ArgSpec obj) (parameter_type : obj)
    (unpack_possible : bool) : Prop :=
  (is_argument_tuple parameter_type = Ok false ∧ unpack_possible = false)
  ∨ (is_argument_tuple parameter_type = Ok true
     ∧ ∃ arg_types kwarg_types,
         unpack_args_from_tuple parameter_type = Ok (arg_types, kwarg_types)
         ∧ kwarg_types !! "argspec"%string = None
         ∧ is_argspec_compatible_with_types s arg_types kwarg_types
           = Ok unpack_possible).

(** Unpacking and packing again: the element list handed to the constructor. *)
Definition repacked_elements (x : obj) : outcome (list element) :=
  r ← unpack_args_from_tuple x;
  Ok (packed_elements r.1 r.2).

End FuncUtils.

(** ** A small runtime

    A finite universe of objects on which the functions above can be run:
    [None], booleans, integers, strings, tensor types, a table of named tuple types, a
    table of anonymous tuples, a table of functions, and two factories.
    A type converts to itself and [None] to [None]; nothing else converts.  A
    type is assignable from itself only. *)
Module Demo.

Inductive dobj : Type :=
  | DNone
  | DBool (b : bool)
  | DInt (n : Z)
  | DStr (s : string)
  | DTensorType (dtype : string)
  | DNamedTupleType (n : nat)
  | DAnonymousTuple (n : nat)
  | DFunction (n : nat)
  | DFactory (n : nat)
  | DTuple
  | DDict.

#[global] Instance dobj_eq_dec : EqDecision dobj.
Proof. solve_decision. Defined.

Definition int32 : dobj := DTensorType "int32".
Definition bool_ : dobj := DTensorType "bool".

(** The named tuple types [DNamedTupleType 0], [DNamedTupleType 1], ... *)
Definition tuple_types : list (list (option string * dobj)) :=
  [ [(None, int32); (None, int32)];
    [(Some "b", int32); (Some "a", bool_)];
    [(Some "a", int32); (None, bool_)];
    [(Some "a", int32); (Some "", bool_)];
    [(None, int32)];
    [(None, bool_)];
    [(None, int32); (Some "b", bool_)];
    [(Some "", int32)];
    [(None, DTensorType "string")];
    [(Some "a", int32)];
    [(Some "argspec", int32)] ]%string.

(** The anonymous tuples [DAnonymousTuple 0], [DAnonymousTuple 1], ... *)
Definition tuples : list (list (option string * dobj)) :=
  [ [(None, DInt 1); (None, DInt 2)];
    [(Some "b", DInt 1); (Some "a", DInt 2)];
    [(Some "a", DInt 1); (None, DInt 2)];
    [(Some "a", DInt 1); (Some "", DInt 2)];
    [(None, DInt 7)];
    [(None, DStr "seven")];
    [(Some "", DInt 1)];
    [(Some "a", DInt 1)];
    [(Some "", DInt 1); (None, DInt 2)] ]%string.

(** The argspecs of [DFunction 0], [DFunction 1], ...:
    [def f0(x, y)], [def f1(a, b=5)], [def f2(a, b="five")],
    [def f3(x)], [def f4( *p)], [def f5(x=None, **q)]. *)
Definition functions : list (ArgSpec dobj) :=
  [ mkArgSpec ["x"; "y"] None None None;
    mkArgSpec ["a"; "b"] None None (Some [DInt 5]);
    mkArgSpec ["a"; "b"] None None (Some [DStr "five"]);
    mkArgSpec ["x"] None None None;
    mkArgSpec [] (Some "p") None None;
    mkArgSpec ["x"] None (Some "q") (Some [DNone]) ]%string.

(** The argspecs of [f0] and [f1]. *)
Definition f0_argspec : ArgSpec dobj :=
  mkArgSpec ["x"; "y"]%string None None None.
Definition f1_argspec : ArgSpec dobj :=
  mkArgSpec ["a"; "b"]%string None None (Some [DInt 5]).

Definition d_truthy (o : dobj) : bool :=
  match o with
  | DNone => false
  | DBool b => b
  | DInt n => negb (n =? 0)
  | DStr s => negb (String.eqb s "")
  | _ => true
  end.

(** [x == y]: a boolean is equal to the integer of its value, [1] or [0];
    otherwise an object is equal to itself only. *)
Definition d_eq (x y : dobj) : collab bool :=
  Returns (match x, y with
           | DInt n, DBool b | DBool b, DInt n => n =? (if b then 1 else 0)
           | _, _ => bool_decide (x = y)
           end).

Definition d_to_type (o : dobj) : collab dobj :=
  match o with
  | DNone | DTensorType _ | DNamedTupleType _ => Returns o
  | _ => Throws true "Unable to interpret an argument as a type spec."
  end.

(** The position of [x] in [l]. *)
Fixpoint index_of {A} `{EqDecision A} (x : A) (l : list A) : option nat :=
  match l with
  | [] => None
  | y :: rest => if decide (x = y) then Some 0%nat else S <$> index_of x rest
  end.

Definition d_infer_scalar (o : dobj) : option dobj :=
  match o with
  | DBool _ => Some bool_
  | DInt _ => Some int32
  | DStr _ => Some (DTensorType "string")
  | _ => None
  end.

Definition d_infer_type (o : dobj) : collab dobj :=
  match o with
  | DAnonymousTuple n =>
      match tuples !! n with
      | Some els =>
          match mapM (fun e : option string * dobj =>
                        t ← d_infer_scalar e.2; Some (e.1, t)) els with
          | Some tys =>
              match index_of tys tuple_types with
              | Some k => Returns (DNamedTupleType k)
              | None => Throws true "Could not infer the TFF type."
              end
          | None => Throws true "Could not infer the TFF type."
          end
      | None => Throws true "Could not infer the TFF type."
      end
  | _ =>
      match d_infer_scalar o with
      | Some t => Returns t
      | None => Throws true "Could not infer the TFF type."
      end
  end.

Definition d_is_assignable_from (t u : dobj) : collab bool :=
  match t with
  | DTensorType _ | DNamedTupleType _ => Returns (bool_decide (t = u))
  | _ => Throws false "object has no attribute 'is_assignable_from'"
  end.

Definition d_repr (o : dobj) : collab string :=
  match o with
  | DTensorType dtype => Returns dtype
  | DNamedTupleType n => Returns ("NamedTupleType#" +:+ pretty n)
  | _ => Returns "<object>"%string
  end.

Definition d_as_AnonymousTuple (o : dobj) : option (list (option string * dobj)) :=
  match o with
  | DAnonymousTuple n => tuples !! n
  | _ => None
  end.

Definition d_as_NamedTupleType (o : dobj) : option (list (option string * dobj)) :=
  match o with
  | DNamedTupleType n => tuple_types !! n
  | _ => None
  end.

Definition d_AnonymousTuple (els : list (option string * dobj)) : collab dobj :=
  match index_of els tuples with
  | Some n => Returns (DAnonymousTuple n)
  | None => Throws false "MemoryError"
  end.

Definition d_is_FunctionType (o : dobj) : bool :=
  match o with
  | DFunction _ => true
  | _ => false
  end.

Definition d_getargspec (o : dobj) : collab (ArgSpec dobj) :=
  match o with
  | DFunction n =>
      match functions !! n with
      | Some s => Returns s
      | None => Throws true "arg is not a Python function"
      end
  | _ => Throws true "arg is not a Python function"
  end.

(** [DFactory 0] returns the function [DFunction 3] for every type;
    [DFactory 1] returns [None] for every type; the other factories raise a
    [TypeError] for every type. *)
Definition d_call (f : dobj) (a : list dobj) (kwargs : gmap string dobj)
    : collab dobj :=
  match f with
  | DFactory 0 => Returns (DFunction 3)
  | DFactory 1 => Returns DNone
  | DFactory _ => Throws true "The argspec cannot be interpreted."
  | DFunction _ => Returns (DInt 0)
  | _ => Throws true "object is not callable"
  end.

#[global, refine] Instance runtime : Runtime := {|
  obj := dobj;
  py_None := DNone;
  py_True := DBool true;
  py_False := DBool false;
  truthy := d_truthy;
  py_eq := d_eq;
  types_to_type := d_to_type;
  type_utils_infer_type := d_infer_type;
  method_is_assignable_from := d_is_assignable_from;
  builtin_repr := d_repr;
  as_AnonymousTuple := d_as_AnonymousTuple;
  as_NamedTupleType := d_as_NamedTupleType;
  anonymous_tuple_AnonymousTuple := d_AnonymousTuple;
  tuple_of := fun _ => DTuple;
  dict_of := fun _ => DDict;
  iteritems := map_to_list;
  is_FunctionType := d_is_FunctionType;
  is_tf_function := fun _ => false;
  inspect_getargspec := d_getargspec;
  defun_func := fun o => o;
  apply_callable := d_call
|}.
Proof.
  - discriminate.
  - reflexivity.
  - reflexivity.
  - reflexivity.
  - reflexivity.
  - reflexivity.
  - reflexivity.
  - reflexivity.
Defined.

End Demo.


(** * The rest of the file: the adapters' bodies, sequences of calls *)

Section Adapters.

Context `{RT : Runtime}.

(** [arg[idx]] and [getattr(arg, name)] on the argument of an adapter: the
    accessors of [anonymous_tuple.AnonymousTuple]. *)
Variable tuple_getitem : obj -> nat -> collab obj.
Variable tuple_getattr : obj -> string -> collab obj.

(** The loop [for idx, expected_type in enumerate(arg_types)] of
    [_unpack_and_call], from index [idx] on, on the list [args]. *)
Fixpoint check_positional (arg : obj) (idx : nat) (arg_types : list obj)
    (acc : list obj) : outcome (list obj) :=
  match arg_types with
  | [] => Ok acc
  | expected_type :: rest =>
      element_value ← run (tuple_getitem arg idx);
      actual_type ← infer_type element_value;
      assignable ← is_assignable_from expected_type actual_type;
      if (assignable : bool)
      then check_positional arg (S idx) rest (acc ++ [element_value])
      else Raise (TypeError (TypeMismatchAt idx))
  end.

(** The loop [for name, expected_type in kwarg_types.iteritems()], on the
    dict [kwargs]. *)
Fixpoint check_keywords (arg : obj) (items : list (string * obj))
    (acc : gmap string obj) : outcome (gmap string obj) :=
  match items with
  | [] => Ok acc
  | (name, expected_type) :: rest =>
      element_value ← run (tuple_getattr arg name);
      actual_type ← infer_type element_value;
      assignable ← is_assignable_from expected_type actual_type;
      if (assignable : bool)
      then check_keywords arg rest (<[name := element_value]> acc)
      else Raise (TypeError (TypeMismatchNamed name))
  end.

(** [_unpack_and_call(func, arg_types, kwarg_types, arg)], the body of the
    adapter [UnpackAndCall func arg_types kwarg_types]. *)
Definition _unpack_and_call (func : obj) (arg_types : list obj)
    (kwarg_types : gmap string obj) (arg : obj) : outcome obj :=
  match as_AnonymousTuple arg with
  | None => Raise (TypeError ExpectedAnonymousTuple)
  | Some _ =>
      a ← check_positional arg 0 arg_types [];
      kwargs ← check_keywords arg (iteritems kwarg_types) ∅;
      call func a kwargs
  end.

(** [_call(func, parameter_type, arg)], the body of the adapter
    [SingleCall func parameter_type]. *)
Definition _call (func : obj) (parameter_type : obj) (arg : obj) : outcome obj :=
  arg_type ← infer_type arg;
  assignable ← is_assignable_from parameter_type arg_type;
  if (assignable : bool) then call func [arg] ∅
  else Raise (TypeError TypeMismatch).

End Adapters.

Section Sequences.

Context `{RT : Runtime}.

(** Calls made one after the other on a polymorphic function: the object
    after the last one and all the invocations made. *)
Fixpoint PolymorphicFunction_calls (self : PolymorphicFunction)
    (calls : list (list obj * gmap string obj))
    : PolymorphicFunction * list event :=
  match calls with
  | [] => (self, [])
  | c :: rest =>
      let r := PolymorphicFunction_call self c.1 c.2 in
      let rs := PolymorphicFunction_calls r.1.1 rest in
      (rs.1, r.1.2 ++ rs.2)
  end.

(** The name at index [i] of the spec gets the value [v]: from the
    positional argument at [i], or else from the keyword argument of that
    name, or else from its default. *)
Definition bound_from (s : ArgSpec obj) (a : list obj)
    (kw : gmap string obj) (i : nat) (name : string) (v : obj) : Prop :=
  ((i < length a)%nat ∧ a !! i = Some v ∧ kw !! name = None)
  ∨ ((length a <= i)%nat ∧ kw !! name = Some v)
  ∨ ((length a <= i)%nat ∧ kw !! name = None ∧ (first_default s <= i)%nat
     ∧ default [] (defaults s) !! (i - first_default s)%nat = Some v).

(** The access [got] returned [v], and the type inferred for [v] is one the
    expected type is assignable from. *)
Definition admitted_value (expected_type : obj) (got : collab obj) (v : obj)
    : Prop :=
  got = Returns v
  ∧ ∃ ty, infer_type v = Ok ty ∧ is_assignable_from expected_type ty = Ok true.

(** Neither collector of the spec bears the name. *)
Definition not_a_collector (s : ArgSpec obj) (name : string) : Prop :=
  varargs s ≠ Some name ∧ keywords s ≠ Some name.

End Sequences.

(** The accessors of the small runtime's anonymous tuples. *)
Definition demo_getitem (o : Demo.dobj) (idx : nat) : collab Demo.dobj :=
  match o with
  | Demo.DAnonymousTuple n =>
      match Demo.tuples !! n ≫= (fun els => els !! idx) with
      | Some e => Returns e.2
      | None => Throws false "tuple index out of range"
      end
  | _ => Throws true "object does not support indexing"
  end.

Definition demo_getattr (o : Demo.dobj) (name : string) : collab Demo.dobj :=
  match o with
  | Demo.DAnonymousTuple n =>
      match Demo.tuples !! n
              ≫= (fun els => list_find (fun e => e.1 = Some name) els) with
      | Some (_, e) => Returns e.2
      | None => Throws false "The tuple does not have a member of that name."
      end
  | _ => Throws false "object has no such attribute"
  end.

(** A spec with both collectors: names [a] and [b], the default [5] for [b],
    the collectors [p] and [q]. *)
Definition demo_collecting_argspec : ArgSpec Demo.dobj :=
  mkArgSpec ["a"; "b"]%string (Some "p"%string) (Some "q"%string)
    (Some [Demo.DInt 5]).

(** * Properties *)

Section Properties.

Context `{RT : Runtime}.

Local Abbreviation element := (option string * obj)%type.

Implicit Types (els U N : list element) (e : element) (arg x : obj).

(** ** The scan of [is_argument_tuple] *)

Lemma scan_elements_app els1 els2 idx st :
  scan_elements idx (els1 ++ els2) st
  = scan_elements (idx + Z.of_nat (length els1)) els2 (scan_elements idx els1 st).
Proof.
  revert idx st. induction els1 as [|e els1 IH]; intros idx st; simpl.
  - by rewrite Z.add_0_r.
  - rewrite IH. f_equal. lia.
Qed.

Lemma scan_elements_unnamed U idx st :
  Forall (fun e => named e = false) U ->
  scan_elements idx U st
  = (if U is [] then st.1 else idx + Z.of_nat (length U) - 1, st.2).
Proof.
  intros HU. revert idx st.
  induction HU as [|e U He _ IH]; intros idx st; simpl.
  - by destruct st.
  - unfold named in He. rewrite He, IH. simpl.
    destruct U; simpl; f_equal; lia.
Qed.

Lemma scan_elements_named N idx st :
  Forall (fun e => named e = true) N ->
  scan_elements idx N st = (st.1, if N is [] then st.2 else Z.min st.2 idx).
Proof.
  intros HN. revert idx st.
  induction HN as [|e N He _ IH]; intros idx st; simpl.
  - by destruct st.
  - unfold named in He. rewrite He, IH. simpl.
    destruct N; simpl; f_equal; lia.
Qed.

(** The second component only decreases, below the index of every named
    element. *)
Lemma scan_elements_min_named els idx st :
  (scan_elements idx els st).2 <= st.2
  ∧ ∀ k e, els !! k = Some e -> named e = true ->
           (scan_elements idx els st).2 <= idx + Z.of_nat k.
Proof.
  revert idx st. induction els as [|e0 els IH]; intros idx st; simpl.
  - split; [lia | by intros k e].
  - destruct (IH (idx + 1)
               (if name_truthy e0.1 then (st.1, Z.min st.2 idx) else (idx, st.2)))
      as [Hle Hk].
    split.
    + etrans; [exact Hle |]. destruct (name_truthy e0.1); simpl; lia.
    + intros [|k] e Hlk Hn; simpl in Hlk.
      * injection Hlk as ->. unfold named in Hn. rewrite Hn in Hle.
        simpl in Hle. rewrite Hn. lia.
      * specialize (Hk k e Hlk Hn). lia.
Qed.

(** The first component is the initial one or an index met, and is at least
    the index of every unnamed element. *)
Lemma scan_elements_max_unnamed els idx st :
  ((scan_elements idx els st).1 = st.1 ∨ idx <= (scan_elements idx els st).1)
  ∧ ∀ k e, els !! k = Some e -> named e = false ->
           idx + Z.of_nat k <= (scan_elements idx els st).1.
Proof.
  revert idx st. induction els as [|e0 els IH]; intros idx st; simpl.
  - split; [by left | by intros k e].
  - destruct (IH (idx + 1)
               (if name_truthy e0.1 then (st.1, Z.min st.2 idx) else (idx, st.2)))
      as [Hor Hk].
    split.
    + destruct (name_truthy e0.1); simpl in Hor; destruct Hor; lia.
    + intros [|k] e Hlk Hn; simpl in Hlk.
      * injection Hlk as ->. unfold named in Hn. rewrite Hn in Hor.
        simpl in Hor. rewrite Hn. destruct Hor; lia.
      * specialize (Hk k e Hlk Hn). lia.
Qed.

Lemma elements_in_order_app U N :
  Forall (fun e => named e = false) U ->
  Forall (fun e => named e = true) N ->
  elements_in_order (U ++ N) = true.
Proof.
  intros HU HN. unfold elements_in_order.
  rewrite scan_elements_app, (scan_elements_unnamed U) by done.
  rewrite (scan_elements_named N) by done. simpl.
  rewrite length_app. apply Z.ltb_lt.
  destruct U, N; simpl; lia.
Qed.

Lemma elements_in_order_inversion els i j e1 e2 :
  (i < j)%nat -> els !! i = Some e1 -> els !! j = Some e2 ->
  named e1 = true -> named e2 = false ->
  elements_in_order els = false.
Proof.
  intros Hij H1 H2 Hn1 Hn2. unfold elements_in_order.
  pose proof (scan_elements_min_named els 0 (-1, Z.of_nat (length els))) as [_ Hmin].
  pose proof (scan_elements_max_unnamed els 0 (-1, Z.of_nat (length els))) as [_ Hmax].
  specialize (Hmin i e1 H1 Hn1). specialize (Hmax j e2 H2 Hn2).
  destruct (scan_elements 0 els (-1, Z.of_nat (length els))) as [mu mn].
  simpl in *. apply Z.ltb_ge. lia.
Qed.

(** A list in order is its unnamed elements followed by its named ones. *)
Lemma elements_in_order_split els :
  elements_in_order els = true ->
  ∃ U N, els = U ++ N
         ∧ Forall (fun e => named e = false) U
         ∧ Forall (fun e => named e = true) N.
Proof.
  intros Hord.
  assert (Hinv : ∀ i j e1 e2, (i < j)%nat -> els !! i = Some e1 ->
            els !! j = Some e2 -> named e1 = true -> named e2 = true).
  { intros i j e1 e2 Hij H1 H2 Hn1. destruct (named e2) eqn:Hn2; [done |].
    rewrite (elements_in_order_inversion els i j e1 e2) in Hord; done. }
  clear Hord. induction els as [|e els IH].
  - exists [], []. by repeat split.
  - destruct (named e) eqn:Hn.
    + exists [], (e :: els). repeat split; [constructor |].
      constructor; [done |]. apply Forall_lookup. intros k e2 Hk.
      apply (Hinv 0%nat (S k) e e2); [lia | done | done | done].
    + destruct IH as (U & N & -> & HU & HN).
      { intros i j e1 e2 Hij H1 H2. apply (Hinv (S i) (S j)); [lia | done | done]. }
      exists (e :: U), N. repeat split; [by constructor | done].
Qed.

(** ** The classification shared by is_argument_tuple and unpack_args_from_tuple *)

Lemma is_argument_tuple_elements arg els :
  elements_of arg els -> is_argument_tuple arg = Ok (elements_in_order els).
Proof.
  unfold is_argument_tuple. intros [-> | [-> (t & -> & Ht)]]; [done |].
  simpl. by rewrite Ht.
Qed.

Lemma is_argument_tuple_not_a_tuple arg :
  not_a_tuple arg -> is_argument_tuple arg = Ok false.
Proof.
  unfold is_argument_tuple. intros [-> (t & -> & Ht)]. simpl. by rewrite Ht.
Qed.

(** ** The split of unpack_args_from_tuple *)

Lemma split_elements_spec els acc :
  split_elements els acc
  = (acc.1 ++ positional_values els, dict_from acc.2 (named_items els)).
Proof.
  revert acc. induction els as [|[n v] els IH]; intros [a k]; simpl.
  - unfold positional_values. simpl. by rewrite app_nil_r.
  - rewrite IH. unfold positional_values, named_items, named. simpl.
    rewrite filter_cons. simpl.
    destruct n as [name|]; simpl;
      [destruct (negb (String.eqb name "")) eqn:Hname; simpl |];
      by rewrite <- ?app_assoc.
Qed.

Lemma unpack_args_from_tuple_elements arg els :
  elements_of arg els ->
  unpack_args_from_tuple arg
  = Ok (positional_values els, dict_from ∅ (named_items els)).
Proof.
  unfold unpack_args_from_tuple.
  intros [-> | [-> (t & -> & Ht)]]; simpl; [| rewrite Ht; simpl];
    by rewrite split_elements_spec.
Qed.

Lemma dict_from_snoc (k0 : gmap string obj) items kv :
  dict_from k0 (items ++ [kv]) = <[kv.1 := kv.2]> (dict_from k0 items).
Proof. unfold dict_from. by rewrite foldl_app. Qed.

Lemma dict_from_lookup_None (k0 : gmap string obj) items key :
  k0 !! key = None -> key ∉ items.*1 -> dict_from k0 items !! key = None.
Proof.
  revert k0. induction items as [|[n v] items IH]; intros k0 Hk0 Hnot; simpl.
  - done.
  - apply not_elem_of_cons in Hnot as [Hne Hnot]. simpl in Hne.
    apply IH; [| done]. by rewrite lookup_insert_ne.
Qed.

(** With distinct keys, the dict holds exactly the items inserted. *)
Lemma map_to_list_dict_from (items : list (string * obj)) :
  NoDup items.*1 -> map_to_list (dict_from ∅ items) ≡ₚ items.
Proof.
  induction items as [|kv items IH] using rev_ind; intros Hnd.
  - simpl. by rewrite map_to_list_empty.
  - rewrite fmap_app in Hnd. apply NoDup_app in Hnd as (Hnd & Hdisj & _).
    rewrite dict_from_snoc, map_to_list_insert.
    + rewrite (IH Hnd). destruct kv. simpl. by rewrite Permutation_app_comm.
    + apply dict_from_lookup_None; [done |].
      intros Hin. apply (Hdisj _ Hin). simpl. constructor.
Qed.

Lemma named_items_cons n v els :
  named_items ((n, v) :: els)
  = match n with
    | Some name =>
        if name_truthy n then (name, v) :: named_items els else named_items els
    | None => named_items els
    end.
Proof.
  unfold named_items, named. simpl.
  destruct n as [name|]; [destruct (name_truthy (Some name))|]; done.
Qed.

Lemma named_items_keys els key :
  key ∈ (named_items els).*1 -> key ≠ ""%string.
Proof.
  induction els as [|[n v] els IH]; [by intros ?%elem_of_nil |].
  rewrite named_items_cons. destruct n as [name|]; [| exact IH].
  simpl. destruct (String.eqb name "") eqn:Hname; simpl; [exact IH |].
  intros [-> | Hin]%elem_of_cons; [| by apply IH].
  by apply String.eqb_neq.
Qed.

Lemma named_items_all_named N :
  Forall (fun e => named e = true) N ->
  map (fun kv : string * obj => (Some kv.1, kv.2)) (named_items N) = N.
Proof.
  induction 1 as [|[n v] N Hn _ IH]; [done |].
  rewrite named_items_cons. unfold named in Hn. simpl in Hn.
  destruct n as [name|]; [| done].
  rewrite Hn. simpl. by rewrite IH.
Qed.

Lemma named_items_app els1 els2 :
  named_items (els1 ++ els2) = named_items els1 ++ named_items els2.
Proof. unfold named_items. by rewrite omap_app. Qed.

Lemma named_items_unnamed U :
  Forall (fun e => named e = false) U -> named_items U = [].
Proof.
  induction 1 as [|[n v] U Hn _ IH]; [done |].
  rewrite named_items_cons. unfold named in Hn. simpl in Hn.
  destruct n as [name|]; [| done].
  by rewrite Hn.
Qed.

Lemma positional_values_app els1 els2 :
  positional_values (els1 ++ els2)
  = positional_values els1 ++ positional_values els2.
Proof. unfold positional_values. by rewrite filter_app, fmap_app. Qed.

Lemma positional_values_unnamed U :
  Forall (fun e => named e = false) U -> positional_values U = U.*2.
Proof.
  intros HU. unfold positional_values. f_equal.
  induction HU as [|e U He _ IH]; [done |].
  rewrite filter_cons, decide_True by done. by rewrite IH.
Qed.

Lemma positional_values_named N :
  Forall (fun e => named e = true) N -> positional_values N = [].
Proof.
  intros HN. unfold positional_values.
  induction HN as [|e N He _ IH]; [done |].
  rewrite filter_cons, decide_False by (rewrite He; done). done.
Qed.

(** ** Claims about argument tuples *)

(** C6, as amended. An element counts as named when the code takes it as
    named: its name is neither [None] nor the empty string.  On every
    sequence of elements, [is_argument_tuple] is false whenever a named
    element stands strictly before an unnamed one, and true when all
    elements are unnamed, when all are named, when unnamed elements are
    followed by named ones, and on the empty sequence. *)
Theorem is_argument_tuple_order arg els :
  elements_of arg els ->
  ((∃ i j e1 e2, (i < j)%nat ∧ els !! i = Some e1 ∧ els !! j = Some e2
                 ∧ named e1 = true ∧ named e2 = false) ->
   is_argument_tuple arg = Ok false)
  ∧ (Forall (fun e => named e = false) els -> is_argument_tuple arg = Ok true)
  ∧ (Forall (fun e => named e = true) els -> is_argument_tuple arg = Ok true)
  ∧ (∀ U N, els = U ++ N -> Forall (fun e => named e = false) U ->
            Forall (fun e => named e = true) N ->
            is_argument_tuple arg = Ok true)
  ∧ (els = [] -> is_argument_tuple arg = Ok true).
Proof.
  intros Hels. rewrite (is_argument_tuple_elements arg els Hels).
  assert (HN0 : Forall (fun e : element => named e = false) []) by constructor.
  repeat split.
  - intros (i & j & e1 & e2 & Hij & H1 & H2 & Hn1 & Hn2).
    by rewrite (elements_in_order_inversion els i j e1 e2).
  - intros HU. rewrite <- (app_nil_r els).
    by rewrite elements_in_order_app.
  - intros HN. f_equal. exact (elements_in_order_app [] els HN0 HN).
  - intros U N -> HU HN. by rewrite elements_in_order_app.
  - by intros ->.
Qed.

(** C10, as amended. An element whose name is the empty string is taken as
    unnamed by both functions: standing after a named element it makes
    [is_argument_tuple] false, as every unnamed element there does, and
    [unpack_args_from_tuple] puts its value in the positional list and makes
    no entry for the empty name in the keyword mapping. *)
Theorem empty_name_is_unnamed arg els j v :
  elements_of arg els ->
  els !! j = Some (Some ""%string, v) ->
  named (Some ""%string, v) = false
  ∧ (∀ i e1, (i < j)%nat -> els !! i = Some e1 -> named e1 = true ->
             is_argument_tuple arg = Ok false)
  ∧ ∃ a kwargs, unpack_args_from_tuple arg = Ok (a, kwargs)
                ∧ v ∈ a ∧ kwargs !! ""%string = None.
Proof.
  intros Hels Hj. split; [done |]. split.
  - intros i e1 Hij Hi Hn1.
    rewrite (is_argument_tuple_elements arg els Hels).
    by rewrite (elements_in_order_inversion els i j e1 (Some ""%string, v)).
  - eexists _, _. split; [by apply unpack_args_from_tuple_elements |]. split.
    + unfold positional_values. apply list_elem_of_fmap.
      exists (Some ""%string, v). split; [done |].
      apply list_elem_of_filter. split; [done |].
      by apply list_elem_of_lookup_2 with j.
    + apply dict_from_lookup_None; [done |].
      intros Hin. by apply named_items_keys in Hin.
Qed.

(** C2, as amended. [unpack_args_from_tuple] fails with [NotArgumentTuple]
    exactly on what is neither an anonymous tuple nor converts to a named tuple
    type; on every tuple it returns the split, the unnamed values in order and
    the named ones in a mapping, also when a named element stands before an
    unnamed one.  So where [is_argument_tuple] is false, it fails on what is no
    tuple and returns the split on a tuple out of order. *)
Theorem unpack_args_from_tuple_unchecked arg :
  (unpack_args_from_tuple arg = Raise (TypeError NotArgumentTuple)
   ↔ not_a_tuple arg)
  ∧ (∀ els, elements_of arg els ->
        unpack_args_from_tuple arg
        = Ok (positional_values els, dict_from ∅ (named_items els)))
  ∧ (is_argument_tuple arg = Ok false ->
     not_a_tuple arg
     ∨ ∃ els, elements_of arg els ∧ elements_in_order els = false
              ∧ unpack_args_from_tuple arg
                = Ok (positional_values els, dict_from ∅ (named_items els))).
Proof.
  split; [| split].
  - unfold unpack_args_from_tuple, not_a_tuple. split.
    + destruct (as_AnonymousTuple arg) as [els|]; [done |].
      unfold to_type. destruct (types_to_type arg) as [t|te text]; simpl; [| done].
      destruct (as_NamedTupleType t) as [els|] eqn:Ht; [done |].
      intros _. split; [done |]. by exists t.
    + intros [-> (t & -> & Ht)]. simpl. by rewrite Ht.
  - apply unpack_args_from_tuple_elements.
  - unfold is_argument_tuple.
    destruct (as_AnonymousTuple arg) as [els|] eqn:Hanon.
    + intros [= Hord]. right. exists els.
      assert (elements_of arg els) by by left.
      split; [done |]. split; [done |].
      by apply unpack_args_from_tuple_elements.
    + destruct (to_type arg) as [t|e] eqn:Ht; simpl; [| done].
      destruct (as_NamedTupleType t) as [els|] eqn:Hnt.
      * intros [= Hord]. right. exists els.
        assert (elements_of arg els) by (right; split; [done | by exists t]).
        split; [done |]. split; [done |].
        by apply unpack_args_from_tuple_elements.
      * intros _. left. split; [done |]. by exists t.
Qed.

(** C4, as amended. For every [x] on which [is_argument_tuple] is true and
    whose named elements carry distinct names, unpacking [x] and packing the
    two parts again yields the unnamed elements of [x] first, in their order
    and with no name, followed by the named elements of [x] in the order the
    dict lists them: a permutation of them, each with its name and value. *)
Theorem unpack_then_pack x els :
  elements_of x els ->
  is_argument_tuple x = Ok true ->
  NoDup (named_items els).*1 ->
  ∃ U N kw,
    els = U ++ N
    ∧ Forall (fun e => named e = false) U
    ∧ Forall (fun e => named e = true) N
    ∧ repacked_elements x = Ok (map (fun e => (None, e.2)) U ++ kw)
    ∧ kw ≡ₚ N.
Proof.
  intros Hels Htup Hnd.
  rewrite (is_argument_tuple_elements x els Hels) in Htup.
  injection Htup as Hord.
  destruct (elements_in_order_split els Hord) as (U & N & -> & HU & HN).
  rewrite named_items_app, (named_items_unnamed U HU) in Hnd. simpl in Hnd.
  exists U, N,
    (map (fun kv : string * obj => (Some kv.1, kv.2))
         (iteritems (dict_from ∅ (named_items N)))).
  repeat split; [done | done | |].
  - unfold repacked_elements.
    rewrite (unpack_args_from_tuple_elements x (U ++ N) Hels). simpl.
    unfold packed_elements.
    rewrite positional_values_app, (positional_values_unnamed U HU),
      (positional_values_named N HN), app_nil_r.
    rewrite named_items_app, (named_items_unnamed U HU). simpl.
    do 2 f_equal. unfold fmap. by rewrite map_map.
  - rewrite iteritems_perm, (map_to_list_dict_from _ Hnd).
    by rewrite named_items_all_named.
Qed.

(** The dict built from two named elements does not depend on the order they
    came in, so both orders pack to one and the same element list. *)
Lemma repacked_elements_swap x y a b v w :
  a ≠ b -> name_truthy (Some a) = true -> name_truthy (Some b) = true ->
  elements_of x [(Some a, v); (Some b, w)] ->
  elements_of y [(Some b, w); (Some a, v)] ->
  repacked_elements x = repacked_elements y.
Proof.
  intros Hab Ha Hb Hx Hy. unfold repacked_elements.
  rewrite (unpack_args_from_tuple_elements x _ Hx),
    (unpack_args_from_tuple_elements y _ Hy).
  simpl in Ha, Hb. simpl. f_equal.
  unfold packed_elements, positional_values, named_items, named. simpl.
  rewrite !filter_cons, !filter_nil. simpl. rewrite !Ha, !Hb. simpl.
  by rewrite insert_insert_ne.
Qed.

(** ** The binder *)

Lemma py_index_nonneg {A} (l : list A) (i : nat) :
  py_index l (Z.of_nat i)
  = match l !! i with Some a => Ok a | None => Raise IndexError end.
Proof.
  unfold py_index.
  rewrite (proj2 (Z.leb_le 0 (Z.of_nat i))) by lia.
  rewrite (proj2 (Z.ltb_ge (Z.of_nat i) 0)) by lia.
  by rewrite Nat2Z.id.
Qed.

(** An iteration stores one value under the name, whatever the dict. *)
Lemma bind_specarg_inserts s a kw nwd idx name r c :
  bind_specarg s a kw nwd idx name r = Ok c ->
  ∃ v, c = <[name := v]> r
       ∧ ∀ r', bind_specarg s a kw nwd idx name r' = Ok (<[name := v]> r').
Proof.
  unfold bind_specarg. destruct (idx <? length a)%nat.
  - destruct (decide (is_Some (kw !! name))); [done |].
    destruct (py_index a (Z.of_nat idx)) as [v|e]; simpl; [| done].
    intros [= <-]. by exists v.
  - destruct (kw !! name) as [v|]; [intros [= <-]; by exists v |].
    destruct (nwd <=? Z.of_nat idx); [| done].
    destruct (defaults s) as [ds|]; [| done].
    destruct (py_index ds (Z.of_nat idx - nwd)) as [v|e]; simpl; [| done].
    intros [= <-]. by exists v.
Qed.

Lemma bind_specargs_covers s a kw nwd specargs idx r c :
  bind_specargs s a kw nwd idx specargs r = Ok c ->
  ∀ name, is_Some (r !! name) ∨ name ∈ specargs -> is_Some (c !! name).
Proof.
  revert idx r. induction specargs as [|x rest IH]; intros idx r; simpl.
  - intros [= <-] name [H | H]; [done | by apply elem_of_nil in H].
  - destruct (bind_specarg s a kw nwd idx x r) as [r1|e] eqn:Hstep;
      simpl; [| done].
    intros Hrest name Hname. apply (IH _ _ Hrest).
    apply bind_specarg_inserts in Hstep as (v & -> & _).
    destruct (decide (name = x)) as [-> | Hne].
    + left. rewrite lookup_insert_eq. by eexists.
    + destruct Hname as [H | H]; [left; by rewrite lookup_insert_ne |].
      apply elem_of_cons in H as [? | ?]; [done | by right].
Qed.

Lemma bind_collectors_covers s a kw r c :
  bind_collectors s a kw r = Ok c ->
  ∀ name, is_Some (r !! name) -> is_Some (c !! name).
Proof.
  unfold bind_collectors. intros Hc name Hname.
  destruct (varargs s) as [vn|], (keywords s) as [kn|]; simpl in Hc;
    repeat match type of Hc with
           | context [if ?b then _ else _] => destruct b
           end;
    try discriminate; injection Hc as <-;
    rewrite ?lookup_insert; repeat case_decide; done.
Qed.

Lemma get_callargs_covers s a kw c :
  get_callargs_for_argspec s a kw = Ok c ->
  ∀ name, name ∈ args s -> is_Some (c !! name).
Proof.
  unfold get_callargs_for_argspec.
  destruct (_ && _); [done |].
  destruct (bind_specargs s a kw _ 0 (args s) ∅) as [r|e] eqn:Hloop;
    simpl; [| done].
  intros Hc name Hname. apply (bind_collectors_covers _ _ _ _ _ Hc).
  apply (bind_specargs_covers _ _ _ _ _ _ _ _ Hloop). by right.
Qed.

(** *** One more keyword argument *)

Lemma bind_specarg_insert_other s a kw nwd idx name r k t :
  name ≠ k ->
  bind_specarg s a (<[k := t]> kw) nwd idx name r
  = bind_specarg s a kw nwd idx name r.
Proof. intros Hne. unfold bind_specarg. by rewrite lookup_insert_ne. Qed.

Lemma bind_specarg_insert_self s a kw nwd idx r k t :
  (length a <= idx)%nat ->
  bind_specarg s a (<[k := t]> kw) nwd idx k r = Ok (<[k := t]> r).
Proof.
  intros Hle. unfold bind_specarg.
  rewrite (proj2 (Nat.ltb_ge idx (length a))) by lia.
  by rewrite lookup_insert_eq.
Qed.

Lemma bind_specargs_insert s a kw nwd k t specargs idx r r' c :
  (∀ j, specargs !! j = Some k -> (length a <= idx + j)%nat) ->
  bind_specargs s a kw nwd idx specargs r = Ok c ->
  r' = r ∨ r' = <[k := t]> r ->
  ∃ c', bind_specargs s a (<[k := t]> kw) nwd idx specargs r' = Ok c'
        ∧ (r' = <[k := t]> r ∨ k ∈ specargs -> c' = <[k := t]> c)
        ∧ (r' = r -> k ∉ specargs -> c' = c).
Proof.
  revert idx r r'. induction specargs as [|x rest IH]; intros idx r r' Hpos; simpl.
  - intros [= <-] Hr. exists r'. split; [done |]. split.
    + intros [-> | H]; [done | by apply elem_of_nil in H].
    + by intros ->.
  - destruct (bind_specarg s a kw nwd idx x r) as [r1|e] eqn:Hstep;
      simpl; [| done].
    intros Hrest Hr.
    apply bind_specarg_inserts in Hstep as (v & -> & Hany).
    assert (Hpos' : ∀ j, rest !! j = Some k -> (length a <= S idx + j)%nat).
    { intros j Hj. specialize (Hpos (S j) Hj). lia. }
    destruct (decide (x = k)) as [-> | Hne].
    + rewrite bind_specarg_insert_self by (specialize (Hpos 0%nat eq_refl); lia).
      simpl.
      destruct (IH (S idx) (<[k := v]> r) (<[k := t]> r') Hpos' Hrest)
        as (c' & Hc' & Hin & _).
      { right. destruct Hr as [-> | ->]; by rewrite !insert_insert_eq. }
      exists c'. split; [done |]. split.
      * intros _. apply Hin. left.
        destruct Hr as [-> | ->]; by rewrite !insert_insert_eq.
      * intros _ Hnot. exfalso. apply Hnot. constructor.
    + rewrite bind_specarg_insert_other, Hany by done. simpl.
      destruct (IH (S idx) (<[x := v]> r) (<[x := v]> r') Hpos' Hrest)
        as (c' & Hc' & Hin & Hout).
      { destruct Hr as [-> | ->]; [by left | right].
        by rewrite insert_insert_ne. }
      exists c'. split; [done |]. split.
      * intros [-> | Hk]; apply Hin.
        -- left. by rewrite insert_insert_ne.
        -- right. apply elem_of_cons in Hk as [? | ?]; [done | done].
      * intros -> Hnot. apply Hout; [done |].
        intros Hk. apply Hnot. by right.
Qed.

Lemma unused_kwargs_insert (kw r : gmap string obj) k t :
  kw !! k = None -> is_Some (r !! k) ->
  filter (fun kv : string * obj => <[k := t]> r !! kv.1 = None) (<[k := t]> kw)
  = filter (fun kv : string * obj => r !! kv.1 = None) kw.
Proof.
  intros Hkw [v Hr]. apply map_filter_strong_ext_1. intros i x. simpl.
  destruct (decide (i = k)) as [-> | Hne].
  - rewrite lookup_insert_eq, Hkw, Hr. split; intros [? ?]; done.
  - by rewrite !lookup_insert_ne.
Qed.

Lemma bind_collectors_insert s a kw r c k t :
  kw !! k = None -> is_Some (r !! k) ->
  bind_collectors s a kw r = Ok c ->
  ∃ c', bind_collectors s a (<[k := t]> kw) (<[k := t]> r) = Ok c'
        ∧ ∀ name, c' !! name = c !! name ∨ (name = k ∧ c' !! name = Some t).
Proof.
  intros Hkw Hr. unfold bind_collectors.
  rewrite (unused_kwargs_insert kw r k t Hkw Hr).
  intros Hc.
  destruct (varargs s) as [vn|], (keywords s) as [kn|]; simpl in *;
    repeat match type of Hc with
           | context [if ?b then _ else _] => destruct b
           end;
    try discriminate; injection Hc as <-;
    eexists; (split; [reflexivity |]); intros name;
    destruct (decide (name = k)) as [-> | Hne];
    rewrite ?lookup_insert; repeat case_decide; subst; auto; congruence.
Qed.

Lemma get_callargs_insert s a kw c k t :
  kw !! k = None -> k ∈ args s ->
  (∀ i, args s !! i = Some k -> (length a <= i)%nat) ->
  get_callargs_for_argspec s a kw = Ok c ->
  ∃ c', get_callargs_for_argspec s a (<[k := t]> kw) = Ok c'
        ∧ ∀ name, c' !! name = c !! name ∨ (name = k ∧ c' !! name = Some t).
Proof.
  intros Hkw Hk Hpos. unfold get_callargs_for_argspec.
  destruct (_ && _); [done |].
  destruct (bind_specargs s a kw _ 0 (args s) ∅) as [r|e] eqn:Hloop;
    simpl; [| done].
  intros Hc.
  destruct (bind_specargs_insert _ _ _ _ k t _ 0%nat _ ∅ _ Hpos Hloop
              (or_introl eq_refl)) as (r' & Hr' & Hin & _).
  rewrite Hr'. simpl. rewrite (Hin (or_intror Hk)).
  apply bind_collectors_insert; [done | | done].
  apply (bind_specargs_covers _ _ _ _ _ _ _ _ Hloop). by right.
Qed.

(** ** The verification of defaults *)

Lemma check_default_admitted bound d :
  check_default bound d = Ok true ↔ default_admitted bound d.
Proof.
  unfold check_default, default_admitted. split.
  - destruct (to_type bound) as [t|e]; simpl; [| done].
    destruct (infer_type d) as [dt|e]; simpl; [| done].
    intros H. by exists t, dt.
  - intros (t & dt & -> & -> & H). done.
Qed.

(** One iteration of the loop on a default that is tested. *)
Lemma verify_defaults_tested s c (n idx : nat) d rest name bound :
  d ≠ py_None -> args s !! (n + idx)%nat = Some name ->
  c !! name = Some bound -> bound ≠ d ->
  verify_defaults s c (Z.of_nat n) idx (d :: rest)
  = (assignable ← check_default bound d;
     if (assignable : bool) then verify_defaults s c (Z.of_nat n) (S idx) rest
     else Ok false).
Proof.
  intros Hd Hname Hbound Hne. simpl.
  rewrite decide_False by done.
  rewrite <- Nat2Z.inj_add, py_index_nonneg, Hname. simpl.
  unfold dict_getitem. rewrite Hbound. simpl.
  by rewrite decide_False.
Qed.

Lemma verify_defaults_true s c (n : nat) ds idx :
  verify_defaults s c (Z.of_nat n) idx ds = Ok true
  ↔ ∀ j d, ds !! j = Some d ->
      d = py_None
      ∨ ∃ name bound, args s !! (n + (idx + j))%nat = Some name
                      ∧ c !! name = Some bound
                      ∧ (bound = d ∨ default_admitted bound d).
Proof.
  revert idx. induction ds as [|d0 rest IH]; intros idx.
  - simpl. split; [by intros _ j d | done].
  - assert (Hshift : ∀ j, (n + (S idx + j) = n + (idx + S j))%nat) by (intros; lia).
    split.
    + intros Hrun [|j] d Hj; simpl in Hj.
      * injection Hj as ->. simpl in Hrun.
        destruct (decide (d = py_None)) as [-> | Hd]; [by left | right].
        rewrite <- Nat2Z.inj_add, py_index_nonneg in Hrun.
        rewrite Nat.add_0_r.
        destruct (args s !! (n + idx)%nat) as [name|]; simpl in Hrun; [| done].
        unfold dict_getitem in Hrun.
        destruct (c !! name) as [bound|] eqn:Hbound; simpl in Hrun; [| done].
        exists name, bound. split; [done |]. split; [done |].
        destruct (decide (bound = d)) as [-> | Hne]; [by left | right].
        apply check_default_admitted.
        destruct (check_default bound d) as [[|]|e]; simpl in Hrun; done.
      * rewrite <- Hshift. apply (proj1 (IH (S idx))); [| done].
        simpl in Hrun.
        destruct (decide (d0 = py_None)); [done |].
        rewrite <- Nat2Z.inj_add, py_index_nonneg in Hrun.
        destruct (args s !! (n + idx)%nat) as [name|]; simpl in Hrun; [| done].
        unfold dict_getitem in Hrun.
        destruct (c !! name) as [bound|]; simpl in Hrun; [| done].
        destruct (decide (bound = d0)); [done |].
        destruct (check_default bound d0) as [[|]|e]; simpl in Hrun; done.
    + intros Hall.
      assert (Hrest : verify_defaults s c (Z.of_nat n) (S idx) rest = Ok true).
      { apply IH. intros j d Hj. rewrite Hshift. by apply Hall. }
      destruct (Hall 0%nat d0 eq_refl)
        as [-> | (name & bound & Hname & Hbound & Hok)].
      * simpl. by rewrite decide_True.
      * rewrite Nat.add_0_r in Hname. simpl.
        destruct (decide (d0 = py_None)); [done |].
        rewrite <- Nat2Z.inj_add, py_index_nonneg, Hname. simpl.
        unfold dict_getitem. rewrite Hbound. simpl.
        destruct (decide (bound = d0)); [done |].
        destruct Hok as [-> | Hadm]; [done |].
        apply check_default_admitted in Hadm. by rewrite Hadm.
Qed.

(** The loop stops at the first default whose test does not return true:
    with [False] when the test returns false, with the exception when it
    raises. *)
Lemma verify_defaults_stops s c (n : nat) pre d post idx name bound :
  (∀ j d', pre !! j = Some d' ->
     d' = py_None
     ∨ ∃ name' bound', args s !! (n + (idx + j))%nat = Some name'
                       ∧ c !! name' = Some bound'
                       ∧ (bound' = d' ∨ default_admitted bound' d')) ->
  d ≠ py_None -> args s !! (n + (idx + length pre))%nat = Some name ->
  c !! name = Some bound -> bound ≠ d ->
  check_default bound d ≠ Ok true ->
  verify_defaults s c (Z.of_nat n) idx (pre ++ d :: post)
  = match check_default bound d with
    | Ok _ => Ok false
    | Raise e => Raise e
    end.
Proof.
  revert idx. induction pre as [|d0 pre IH]; intros idx Hpre Hd Hname Hbound Hne Hchk.
  - simpl app. rewrite Nat.add_0_r in Hname.
    rewrite (verify_defaults_tested s c n idx d post name bound) by done.
    destruct (check_default bound d) as [[|]|e]; done.
  - assert (Hshift : ∀ j, (n + (S idx + j) = n + (idx + S j))%nat) by (intros; lia).
    assert (Hnext : verify_defaults s c (Z.of_nat n) (S idx) (pre ++ d :: post)
                    = match check_default bound d with
                      | Ok _ => Ok false
                      | Raise e => Raise e
                      end).
    { apply IH; try done.
      - intros j d' Hj. rewrite Hshift. by apply Hpre.
      - by rewrite Hshift. }
    destruct (Hpre 0%nat d0 eq_refl)
      as [-> | (name0 & bound0 & Hname0 & Hbound0 & Hok)].
    + simpl. by rewrite decide_True.
    + rewrite Nat.add_0_r in Hname0. simpl app. simpl verify_defaults.
      destruct (decide (d0 = py_None)); [done |].
      rewrite <- Nat2Z.inj_add, py_index_nonneg, Hname0. simpl.
      unfold dict_getitem. rewrite Hbound0. simpl.
      destruct (decide (bound0 = d0)); [done |].
      destruct Hok as [-> | Hadm]; [done |].
      apply check_default_admitted in Hadm. by rewrite Hadm.
Qed.

(** What the function does once the binding exists and there are defaults. *)
Lemma is_compatible_with_defaults s a kw c :
  wf_argspec s -> seq_truthy (defaults s) = true ->
  get_callargs_for_argspec s a kw = Ok c ->
  is_argspec_compatible_with_types s a kw
  = verify_defaults s c (Z.of_nat (first_default s)) 0
      (default [] (defaults s)).
Proof.
  intros Hwf Hds Hc. unfold is_argspec_compatible_with_types, try_body.
  rewrite Hc. simpl. rewrite Hds. simpl.
  unfold first_default. unfold wf_argspec in Hwf.
  by rewrite Nat2Z.inj_sub.
Qed.

(** ** Claims about is_argspec_compatible_with_types *)

Lemma defaulted_name_exists s idx d :
  wf_argspec s -> default [] (defaults s) !! idx = Some d ->
  ∃ name, args s !! (first_default s + idx)%nat = Some name.
Proof.
  unfold wf_argspec, first_default. intros Hwf Hd.
  apply lookup_lt_Some in Hd. apply lookup_lt_is_Some_2. lia.
Qed.

(** The binding of the scenario: spec [a, b=five], two positional types. *)
Lemma scenario_callargs (ta tb five : obj) :
  get_callargs_for_argspec
    (mkArgSpec ["a"; "b"]%string None None (Some [five])) [ta; tb] ∅
  = Ok (<["b"%string := tb]> (<["a"%string := ta]> ∅)).
Proof.
  unfold get_callargs_for_argspec, bind_specargs, bind_specarg, bind_collectors.
  cbn [args defaults varargs keywords seq_truthy len_or_0 length Nat.ltb
       Nat.leb andb negb name_truthy].
  rewrite !lookup_empty, !py_index_nonneg.
  cbn [lookup list_lookup].
  repeat (case_decide as H; [by destruct H |]).
  cbn [mbind outcome_bind].
  rewrite map_filter_empty. by rewrite decide_True.
Qed.

(** The same binding with the type for [b] given by keyword. *)
Lemma scenario_callargs_keyword (ta tb five : obj) :
  get_callargs_for_argspec
    (mkArgSpec ["a"; "b"]%string None None (Some [five])) [ta]
    (<["b"%string := tb]> ∅)
  = Ok (<["b"%string := tb]> (<["a"%string := ta]> ∅)).
Proof.
  unfold get_callargs_for_argspec, bind_specargs, bind_specarg, bind_collectors.
  cbn [args defaults varargs keywords seq_truthy len_or_0 length Nat.ltb
       Nat.leb andb negb name_truthy].
  rewrite (lookup_insert_ne _ "b"%string "a"%string) by (intros [=]).
  rewrite lookup_insert_eq, lookup_empty.
  rewrite !py_index_nonneg. cbn [lookup list_lookup].
  case_decide as H; [by destruct H |].
  cbn [mbind outcome_bind].
  rewrite map_filter_insert_False
    by (cbn [fst]; rewrite lookup_insert_eq; by intros ?).
  rewrite delete_empty, map_filter_empty. by rewrite decide_True.
Qed.

(** C3. For an argspec with defaults and a binding that succeeds,
    [is_argspec_compatible_with_types] returns true iff, for every defaulted
    name whose bound object is not the default itself and whose default is not
    [None], the supplied type is assignable from the type inferred for the
    default.  For the spec [a, b=five] and a type for [b] that is not
    assignable from the type inferred for [five], it returns false. *)
Theorem is_compatible_iff_defaults_admitted :
  (∀ s a kw c,
     wf_argspec s -> seq_truthy (defaults s) = true ->
     get_callargs_for_argspec s a kw = Ok c ->
     (is_argspec_compatible_with_types s a kw = Ok true
      ↔ ∀ idx d name bound,
          default [] (defaults s) !! idx = Some d ->
          args s !! (first_default s + idx)%nat = Some name ->
          c !! name = Some bound ->
          bound ≠ d -> d ≠ py_None ->
          default_admitted bound d))
  ∧ (∀ ta tb five t dt,
       five ≠ py_None -> tb ≠ five ->
       to_type tb = Ok t -> infer_type five = Ok dt ->
       is_assignable_from t dt = Ok false ->
       is_argspec_compatible_with_types
         (mkArgSpec ["a"; "b"]%string None None (Some [five])) [ta; tb] ∅
       = Ok false
       ∧ is_argspec_compatible_with_types
           (mkArgSpec ["a"; "b"]%string None None (Some [five])) [ta]
           (<["b"%string := tb]> ∅)
         = Ok false).
Proof.
  split.
  - intros s a kw c Hwf Hds Hc.
    rewrite (is_compatible_with_defaults s a kw c Hwf Hds Hc).
    rewrite verify_defaults_true. split.
    + intros Hall idx d name bound Hd Hname Hbound Hne Hnone.
      destruct (Hall idx d Hd) as [-> | (name' & bound' & Hname' & Hbound' & Hok)];
        [done |].
      simpl in Hname'. rewrite Hname in Hname'. injection Hname' as <-.
      rewrite Hbound in Hbound'. injection Hbound' as <-.
      by destruct Hok.
    + intros Hall j d Hd.
      destruct (decide (d = py_None)) as [-> | Hnone]; [by left | right].
      destruct (defaulted_name_exists s j d Hwf Hd) as [name Hname].
      destruct (get_callargs_covers s a kw c Hc name) as [bound Hbound].
      { by apply list_elem_of_lookup_2 with (first_default s + j)%nat. }
      exists name, bound. split; [done |]. split; [done |].
      destruct (decide (bound = d)) as [-> | Hne]; [by left | right].
      by apply (Hall j d name bound).
  - intros ta tb five t dt Hnone Hne Ht Hdt Hassign.
    set (s := mkArgSpec ["a"; "b"]%string None None (Some [five])).
    rewrite (is_compatible_with_defaults s [ta; tb] ∅ _
               ltac:(unfold wf_argspec; simpl; lia) eq_refl
               (scenario_callargs ta tb five)).
    rewrite (is_compatible_with_defaults s [ta] _ _
               ltac:(unfold wf_argspec; simpl; lia) eq_refl
               (scenario_callargs_keyword ta tb five)).
    rewrite (verify_defaults_stops s _ 1 [] five [] 0 "b"%string tb);
      unfold check_default; rewrite ?Ht, ?Hdt; simpl; rewrite ?Hassign;
      done.
Qed.

(** C7. When [is_argspec_compatible_with_types] is true on positional and
    keyword types with no excess positional argument, it stays true with one
    more keyword argument [k] that names a defaulted parameter not bound yet,
    whose type is assignable from the type inferred for that parameter's
    default. *)
Theorem is_compatible_monotone s a kw k t :
  wf_argspec s ->
  (length a <= length (args s))%nat ->
  is_argspec_compatible_with_types s a kw = Ok true ->
  kw !! k = None ->
  (∀ i, args s !! i = Some k -> (length a <= i)%nat) ->
  (∃ i, args s !! i = Some k ∧ (first_default s <= i)%nat) ->
  (∀ idx d, default [] (defaults s) !! idx = Some d ->
            args s !! (first_default s + idx)%nat = Some k ->
            default_admitted t d) ->
  is_argspec_compatible_with_types s a (<[k := t]> kw) = Ok true.
Proof.
  intros Hwf _ Hcompat Hkw Hpos (i & Hi & Hdef) Hadm.
  assert (Hk : k ∈ args s) by by apply list_elem_of_lookup_2 with i.
  assert (Hds : seq_truthy (defaults s) = true).
  { apply lookup_lt_Some in Hi. unfold first_default in Hdef.
    destruct (defaults s) as [[|d ds]|]; simpl in *; [lia | done | lia]. }
  destruct (get_callargs_for_argspec s a kw) as [c|e] eqn:Hc.
  2:{ unfold is_argspec_compatible_with_types, try_body in Hcompat.
      rewrite Hc in Hcompat. simpl in Hcompat.
      destruct (is_TypeError e); done. }
  destruct (get_callargs_insert s a kw c k t Hkw Hk Hpos Hc) as (c' & Hc' & Hrel).
  rewrite (is_compatible_with_defaults s a kw c Hwf Hds Hc) in Hcompat.
  rewrite (is_compatible_with_defaults s a _ c' Hwf Hds Hc').
  rewrite verify_defaults_true in Hcompat. rewrite verify_defaults_true.
  intros j d Hd.
  destruct (Hcompat j d Hd) as [-> | (name & bound & Hname & Hbound & Hok)];
    [by left | right].
  destruct (Hrel name) as [Hsame | [-> Ht]].
  - exists name, bound. by rewrite Hsame.
  - exists k, t. split; [done |]. split; [done |]. right.
    by apply (Hadm j d).
Qed.

(** C9. A [TypeError] raised while the binding is built becomes the result
    [False] (any other exception raised there is the outcome of the call), and
    without defaults a binding that exists gives [True]; but an exception
    raised by the test of a default (by [types.to_type],
    [type_utils.infer_type] or [is_assignable_from]), a [TypeError] included,
    is the outcome of the call: the function then returns no boolean. *)
Theorem is_compatible_raises :
  (∀ s a kw (e : exn),
     get_callargs_for_argspec s a kw = Raise e ->
     is_argspec_compatible_with_types s a kw
     = if is_TypeError e then Ok false else Raise e)
  ∧ (∀ s a kw c,
       get_callargs_for_argspec s a kw = Ok c ->
       seq_truthy (defaults s) = false ->
       is_argspec_compatible_with_types s a kw = Ok true)
  ∧ (∀ s a kw c pre d post name bound (e : exn),
       wf_argspec s ->
       get_callargs_for_argspec s a kw = Ok c ->
       defaults s = Some (pre ++ d :: post) ->
       (∀ j d', pre !! j = Some d' -> default_passes s c j d') ->
       d ≠ py_None ->
       args s !! (first_default s + length pre)%nat = Some name ->
       c !! name = Some bound -> bound ≠ d ->
       check_default bound d = Raise e ->
       is_argspec_compatible_with_types s a kw = Raise e)
  ∧ (∀ bound d (e : exn), to_type bound = Raise e -> check_default bound d = Raise e)
  ∧ (∀ bound d t (e : exn), to_type bound = Ok t -> infer_type d = Raise e ->
                    check_default bound d = Raise e).
Proof.
  split; [| split; [| split; [| split]]].
  - intros s a kw e He.
    unfold is_argspec_compatible_with_types, try_body.
    rewrite He. simpl. by destruct (is_TypeError e).
  - intros s a kw c Hc Hds.
    unfold is_argspec_compatible_with_types, try_body.
    rewrite Hc. simpl. by rewrite Hds.
  - intros s a kw c pre d post name bound e Hwf Hc Hds Hpre Hd Hname Hbound Hne Hchk.
    assert (Htruthy : seq_truthy (defaults s) = true).
    { rewrite Hds. by destruct pre. }
    rewrite (is_compatible_with_defaults s a kw c Hwf Htruthy Hc).
    rewrite Hds. simpl default.
    rewrite (verify_defaults_stops s c _ pre d post 0 name bound);
      try done; [by rewrite Hchk | by rewrite Hchk].
  - intros bound d e Ht. unfold check_default. by rewrite Ht.
  - intros bound d t e Ht Hd. unfold check_default. rewrite Ht. simpl.
    by rewrite Hd.
Qed.

(** ** Claims about wrap_as_zero_or_one_arg_callable *)

Lemma True_is_not_False : py_True ≠ py_False.
Proof.
  intros Heq. pose proof truthy_True as Ht.
  rewrite Heq, truthy_False in Ht. discriminate.
Qed.

Lemma True_is_not_None : py_True ≠ py_None.
Proof.
  intros Heq. pose proof truthy_True as Ht.
  rewrite Heq, truthy_None in Ht. discriminate.
Qed.

(** The identity tests on the three values of the knob. *)
Lemma knob_is_True u :
  is_True (knob u) = match u with Some true => true | _ => false end.
Proof.
  unfold is_True. destruct u as [[|]|]; simpl.
  - by apply bool_decide_eq_true.
  - apply bool_decide_eq_false. intros Heq. by apply True_is_not_False.
  - apply bool_decide_eq_false. intros Heq. by apply True_is_not_None.
Qed.

Lemma knob_is_False u :
  is_False (knob u) = match u with Some false => true | _ => false end.
Proof.
  unfold is_False. destruct u as [[|]|]; simpl.
  - apply bool_decide_eq_false. apply True_is_not_False.
  - by apply bool_decide_eq_true.
  - apply bool_decide_eq_false. intros Heq. by apply False_is_not_None.
Qed.

Lemma knob_is_None u :
  is_None (knob u) = match u with None => true | _ => false end.
Proof.
  unfold is_None. destruct u as [[|]|]; simpl.
  - apply bool_decide_eq_false. apply True_is_not_None.
  - apply bool_decide_eq_false. apply False_is_not_None.
  - by apply bool_decide_eq_true.
Qed.

Lemma knob_truthy u :
  truthy (knob u) = match u with Some true => true | _ => false end.
Proof.
  destruct u as [[|]|]; simpl;
    [apply truthy_True | apply truthy_False | apply truthy_None].
Qed.

(** [True], [False] and [None] pass the test on the knob. *)
Lemma py_in_knob u : py_in (knob u) [py_True; py_False; py_None] = Ok true.
Proof.
  destruct u as [[|]|]; simpl.
  - by rewrite decide_True.
  - rewrite decide_False by (intros Heq; by apply True_is_not_False).
    rewrite False_eq_True. simpl. by rewrite decide_True.
  - rewrite decide_False by (intros Heq; by apply True_is_not_None).
    rewrite None_eq_True. simpl.
    rewrite decide_False by (intros Heq; by apply False_is_not_None).
    rewrite None_eq_False. simpl. by rewrite decide_True.
Qed.

(** An object that is one of the three is a value of the knob. *)
Lemma knob_elem_of unpack :
  unpack ∈ [py_True; py_False; py_None] -> ∃ u, unpack = knob u.
Proof.
  intros Hin. apply elem_of_cons in Hin as [-> | Hin]; [by exists (Some true) |].
  apply elem_of_cons in Hin as [-> | Hin]; [by exists (Some false) |].
  apply list_elem_of_singleton in Hin as ->. by exists None.
Qed.

(** None of this file's own [TypeError]s leaves a collaborator, the
    subscripts, or the compatibility test, which catches those of the
    binder. *)
Lemma run_no_message {A} (c : collab A) m : run c ≠ Raise (TypeError m).
Proof. by destruct c. Qed.

Lemma py_index_no_message {A} (l : list A) i m :
  py_index l i ≠ Raise (TypeError m).
Proof.
  unfold py_index. destruct (_ <? 0); [done |]. by destruct (l !! _).
Qed.

Lemma verify_defaults_no_message s c n idx ds m :
  verify_defaults s c n idx ds ≠ Raise (TypeError m).
Proof.
  revert idx. induction ds as [|d ds IH]; intros idx; simpl; [done |].
  destruct (decide (d = py_None)); [apply IH |].
  destruct (py_index (args s) _) as [name|err] eqn:Hname; simpl.
  - unfold dict_getitem. destruct (c !! name) as [bound|]; simpl; [| done].
    destruct (decide (bound = d)); [apply IH |].
    unfold check_default, to_type, infer_type, is_assignable_from.
    destruct (types_to_type bound) as [t|te txt]; simpl; [| done].
    destruct (type_utils_infer_type d) as [dt|te txt]; simpl; [| done].
    destruct (method_is_assignable_from t dt) as [[|]|te txt]; simpl;
      [apply IH | done | done].
  - intros [= ->]. by apply py_index_no_message in Hname.
Qed.

Lemma is_compatible_no_message s a kw m :
  is_argspec_compatible_with_types s a kw ≠ Raise (TypeError m).
Proof.
  unfold is_argspec_compatible_with_types, try_except_TypeError.
  destruct (try_body s a kw) as [[b|c]|[m'| | | | |te txt]]; simpl; try done.
  - apply verify_defaults_no_message.
  - by destruct te.
Qed.

Lemma is_argument_tuple_no_message pt m :
  is_argument_tuple pt ≠ Raise (TypeError m).
Proof.
  unfold is_argument_tuple. destruct (as_AnonymousTuple pt); [done |].
  unfold to_type. destruct (types_to_type pt) as [t|te txt]; simpl; [| done].
  by destruct (as_NamedTupleType t).
Qed.

(** The only [TypeError]s of this file that the computation of
    [unpack_possible] lets through. *)
Lemma compute_unpack_possible_message s pt m :
  compute_unpack_possible s pt = Raise (TypeError m) ->
  m = NotArgumentTuple ∨ m = MultipleValuesForKeyword "argspec".
Proof.
  unfold compute_unpack_possible.
  destruct (is_argument_tuple pt) as [[|]|err] eqn:Htup; simpl; [| done |].
  - unfold unpack_args_from_tuple.
    destruct (as_AnonymousTuple pt) as [els|]; simpl.
    + unfold spread_into_is_argspec_compatible_with_types.
      destruct (decide _); simpl; [intros [= <-]; by right |].
      destruct (is_argspec_compatible_with_types s _ _) as [c|err] eqn:Hc;
        simpl; [done |].
      intros [= ->]. by apply is_compatible_no_message in Hc.
    + unfold to_type. destruct (types_to_type pt) as [t|te txt]; simpl; [| done].
      destruct (as_NamedTupleType t) as [els|]; simpl; [| intros [= <-]; by left].
      unfold spread_into_is_argspec_compatible_with_types.
      destruct (decide _); simpl; [intros [= <-]; by right |].
      destruct (is_argspec_compatible_with_types s _ _) as [c|err] eqn:Hc;
        simpl; [done |].
      intros [= ->]. by apply is_compatible_no_message in Hc.
  - intros [= ->]. by apply is_argument_tuple_no_message in Htup.
Qed.

(** The code's [unpack_possible] is the specification's. *)
Lemma compute_unpack_possible_is s pt poss types :
  compute_unpack_possible s pt = Ok (poss, types) ->
  unpack_possible_is s pt poss
  ∧ match types with
    | Some ty =>
        is_argument_tuple pt = Ok true
        ∧ unpack_args_from_tuple pt = Ok ty
        ∧ ty.2 !! "argspec"%string = None
        ∧ is_argspec_compatible_with_types s ty.1 ty.2 = Ok poss
    | None => is_argument_tuple pt = Ok false ∧ poss = false
    end.
Proof.
  unfold compute_unpack_possible, unpack_possible_is.
  destruct (is_argument_tuple pt) as [[|]|err]; simpl; [| | done].
  - destruct (unpack_args_from_tuple pt) as [[at_ kt]|err]; simpl; [| done].
    unfold spread_into_is_argspec_compatible_with_types. simpl.
    destruct (decide (is_Some (kt !! "argspec"%string))) as [Hsome|Hnone];
      simpl; [done |].
    destruct (is_argspec_compatible_with_types s at_ kt) as [c|err] eqn:Hc;
      simpl; [| done].
    intros [= <- <-]. simpl.
    assert (kt !! "argspec"%string = None) as Hkt
      by (destruct (kt !! "argspec"%string) eqn:Hk; [| done];
          exfalso; apply Hnone; by eexists).
    split; [right; split; [done |]; by exists at_, kt | done].
  - intros [= <- <-]. split; [by left | done].
Qed.

Lemma unpack_possible_is_compute s pt poss :
  unpack_possible_is s pt poss ->
  ∃ types, compute_unpack_possible s pt = Ok (poss, types)
           ∧ (poss = true -> is_Some types).
Proof.
  unfold compute_unpack_possible.
  intros [(-> & ->) | (-> & at_ & kt & -> & Hkt & Hc)]; simpl.
  - by exists None.
  - unfold spread_into_is_argspec_compatible_with_types. simpl.
    rewrite decide_False by (rewrite Hkt; by intros [? ?]).
    rewrite Hc. simpl. exists (Some (at_, kt)). split; [done |]. by eexists.
Qed.

(** With a parameter type, and a knob that passes the test on it, the
    function is the resolution of the two booleans. *)
Lemma wrap_with_parameter_type func pt0 unpack s pt c1 :
  py_in unpack [py_True; py_False; py_None] = Ok true ->
  get_argspec func = Ok s -> to_type pt0 = Ok pt -> truthy pt = true ->
  is_argspec_compatible_with_types s [pt] ∅ = Ok c1 ->
  wrap_as_zero_or_one_arg_callable func pt0 unpack
  = resolve_unpack func s pt unpack (negb c1).
Proof.
  intros Hin Hs Hpt Htruthy Hc1. unfold wrap_as_zero_or_one_arg_callable.
  rewrite Hin. simpl. rewrite Hs. simpl. rewrite Hpt. simpl.
  rewrite Htruthy. simpl. by rewrite Hc1.
Qed.

(** The resolution on the three values of the knob, the two booleans
    given. *)
Lemma resolve_unpack_knob func s pt u (c1 poss : bool) types :
  compute_unpack_possible s pt = Ok (poss, types) ->
  (poss = true -> is_Some types) ->
  resolve_unpack func s pt (knob u) (negb c1)
  = if negb c1 && match u with Some false => true | _ => false end then
      Raise (TypeError CannotAcceptAsSingleArgument)
    else if negb poss && match u with Some true => true | _ => false end then
      Raise (TypeError CannotAcceptAsMultipleArguments)
    else if negb c1 && negb poss then
      Raise (TypeError CannotAcceptEitherForm)
    else if c1 && poss && match u with None => true | _ => false end then
      Raise (TypeError AmbiguousUnpackingChoice)
    else if match u with Some b => b | None => poss end then
      match types with
      | Some ty => Ok (UnpackAndCall func ty.1 ty.2)
      | None => Raise UnboundLocalError
      end
    else Ok (SingleCall func pt).
Proof.
  intros Hposs Htypes. unfold resolve_unpack.
  rewrite knob_is_False, knob_is_True, knob_is_None, Hposs. simpl.
  destruct c1, poss, u as [[|]|]; simpl;
    rewrite ?truthy_True, ?truthy_False; try done.
Qed.

(** X22. For a callable with an argspec and a parameter type that is present,
    with the preference left to be inferred ([unpack] is [None]) the function
    fails with [AmbiguousUnpackingChoice] exactly when both forms are found
    feasible: the parameter type binds as one positional argument
    ([unpack_required] is false) and it is an argument tuple whose split
    holds no keyword named [argspec] and binds ([unpack_possible] is true).  When it returns, [unpack_required]
    and [unpack_possible] have one value [u], and the adapter unpacks, into
    the split of the parameter type, exactly when [u] is true.  For each of
    the three preferences the failure cases are tested in the order of the
    resolution table: single argument refused, multiple arguments refused,
    neither form, ambiguity; otherwise an adapter is returned that unpacks
    when unpacking was asked for, or was left to be inferred and is
    possible. *)
Theorem infer_resolution func pt0 s pt :
  get_argspec func = Ok s -> to_type pt0 = Ok pt -> truthy pt = true ->
  (wrap_as_zero_or_one_arg_callable func pt0 py_None
   = Raise (TypeError AmbiguousUnpackingChoice)
   ↔ is_argspec_compatible_with_types s [pt] ∅ = Ok true
     ∧ unpack_possible_is s pt true)
  ∧ (∀ ad, wrap_as_zero_or_one_arg_callable func pt0 py_None = Ok ad ->
       ∃ u : bool,
         is_argspec_compatible_with_types s [pt] ∅ = Ok (negb u)
         ∧ unpack_possible_is s pt u
         ∧ unpacks ad = u
         ∧ if u then ∃ arg_types kwarg_types,
                  unpack_args_from_tuple pt = Ok (arg_types, kwarg_types)
                  ∧ ad = UnpackAndCall func arg_types kwarg_types
           else ad = SingleCall func pt)
  ∧ (∀ unpack (c1 unpack_possible : bool),
       unpack ∈ [py_True; py_False; py_None] ->
       is_argspec_compatible_with_types s [pt] ∅ = Ok c1 ->
       unpack_possible_is s pt unpack_possible ->
       let unpack_required := negb c1 in
       if unpack_required && is_False unpack then
         wrap_as_zero_or_one_arg_callable func pt0 unpack
         = Raise (TypeError CannotAcceptAsSingleArgument)
       else if negb unpack_possible && is_True unpack then
         wrap_as_zero_or_one_arg_callable func pt0 unpack
         = Raise (TypeError CannotAcceptAsMultipleArguments)
       else if unpack_required && negb unpack_possible then
         wrap_as_zero_or_one_arg_callable func pt0 unpack
         = Raise (TypeError CannotAcceptEitherForm)
       else if negb unpack_required && unpack_possible && is_None unpack then
         wrap_as_zero_or_one_arg_callable func pt0 unpack
         = Raise (TypeError AmbiguousUnpackingChoice)
       else
         ∃ ad, wrap_as_zero_or_one_arg_callable func pt0 unpack = Ok ad
               ∧ unpacks ad
                 = is_True unpack || (is_None unpack && unpack_possible)).
Proof.
  intros Hs Hpt Htruthy.
  assert (Hwrap : ∀ u c1,
            is_argspec_compatible_with_types s [pt] ∅ = Ok c1 ->
            wrap_as_zero_or_one_arg_callable func pt0 (knob u)
            = resolve_unpack func s pt (knob u) (negb c1)).
  { intros u c1 Hc1. apply wrap_with_parameter_type; try done.
    apply py_in_knob. }
  assert (Hnone : wrap_as_zero_or_one_arg_callable func pt0 py_None
                  = (c ← is_argspec_compatible_with_types s [pt] ∅;
                     resolve_unpack func s pt py_None (negb c))).
  { unfold wrap_as_zero_or_one_arg_callable.
    pose proof (py_in_knob None) as Hin.
    change (knob None) with py_None in Hin. rewrite Hin. simpl.
    rewrite Hs. simpl. rewrite Hpt. simpl. by rewrite Htruthy. }
  pose proof (knob_is_False None) as HisF.
  change (knob None) with py_None in HisF.
  assert (Hres : ∀ c1 poss types,
            compute_unpack_possible s pt = Ok (poss, types) ->
            (poss = true -> is_Some types) ->
            resolve_unpack func s pt py_None (negb c1)
            = if negb c1 && negb poss then
                Raise (TypeError CannotAcceptEitherForm)
              else if c1 && poss then
                Raise (TypeError AmbiguousUnpackingChoice)
              else if poss then
                match types with
                | Some ty => Ok (UnpackAndCall func ty.1 ty.2)
                | None => Raise UnboundLocalError
                end
              else Ok (SingleCall func pt)).
  { intros c1 poss types Hposs Htypes.
    change py_None with (knob None) at 1.
    rewrite (resolve_unpack_knob func s pt None c1 poss types Hposs Htypes).
    by destruct c1, poss. }
  split; [| split].
  - split.
    + rewrite Hnone.
      destruct (is_argspec_compatible_with_types s [pt] ∅) as [c1|err] eqn:Hc1;
        simpl; [| intros [= ->]; by apply is_compatible_no_message in Hc1].
      destruct (compute_unpack_possible s pt) as [[poss types]|err] eqn:Hposs.
      * destruct (compute_unpack_possible_is s pt poss types Hposs)
          as [His Hty].
        assert (Htypes : poss = true -> is_Some types).
        { intros ->. destruct types; [by eexists | by destruct Hty]. }
        rewrite (Hres c1 poss types eq_refl Htypes).
        destruct c1, poss; simpl; try done.
        destruct types as [ty|]; [done | by destruct (Htypes eq_refl)].
      * unfold resolve_unpack. rewrite HisF, Hposs. simpl.
        rewrite andb_false_r. simpl. intros [= ->].
        by destruct (compute_unpack_possible_message s pt _ Hposs).
    + intros [Hc1 His].
      destruct (unpack_possible_is_compute s pt true His)
        as (types & Hposs & Htypes).
      rewrite Hnone, Hc1. exact (Hres true true types Hposs Htypes).
  - intros ad. rewrite Hnone.
    destruct (is_argspec_compatible_with_types s [pt] ∅) as [c1|err] eqn:Hc1;
      simpl; [| done].
    destruct (compute_unpack_possible s pt) as [[poss types]|err] eqn:Hposs.
    + destruct (compute_unpack_possible_is s pt poss types Hposs) as [His Hty].
      assert (Htypes : poss = true -> is_Some types).
      { intros ->. destruct types; [by eexists | by destruct Hty]. }
      rewrite (Hres c1 poss types eq_refl Htypes).
      destruct c1, poss; simpl; try done.
      * intros [= <-]. exists false. by repeat split.
      * destruct types as [[at_ kt]|]; [| done]. intros [= <-].
        exists true. repeat split; try done.
        exists at_, kt. split; [by destruct Hty as (_ & ? & _) | done].
    + unfold resolve_unpack. rewrite HisF, Hposs. simpl.
      by rewrite andb_false_r.
  - intros unpack c1 poss Hin Hc1 His. simpl.
    destruct (knob_elem_of unpack Hin) as [u ->].
    destruct (unpack_possible_is_compute s pt poss His)
      as (types & Hposs & Htypes).
    rewrite (Hwrap u c1 Hc1).
    rewrite (resolve_unpack_knob func s pt u c1 poss types Hposs Htypes).
    rewrite knob_is_False, knob_is_True, knob_is_None.
    destruct c1, poss, u as [[|]|]; simpl; try done;
      try (destruct (Htypes eq_refl) as [ty ->]); by eexists.
Qed.

(** ** Claims about PolymorphicFunction *)

Lemma PolymorphicFunction_call_unfold self a kw t key :
  dispatch_key a kw t key ->
  PolymorphicFunction_call self a kw
  = let concrete_fn := default py_None (_concrete_function_cache self !! key) in
    if negb (truthy concrete_fn) then
      match call (_concrete_function_factory self) [t] ∅ with
      | Raise err => (self, [FactoryInvoked t], Raise err)
      | Ok concrete_fn =>
          (mkPolymorphicFunction (_concrete_function_factory self)
             (<[key := concrete_fn]> (_concrete_function_cache self)),
           [FactoryInvoked t; ConcreteInvoked concrete_fn],
           call concrete_fn a kw)
      end
    else (self, [ConcreteInvoked concrete_fn], call concrete_fn a kw).
Proof.
  intros (packed & Hpack & Ht & Hkey). unfold PolymorphicFunction_call.
  rewrite Hpack. simpl. rewrite Ht. simpl. by rewrite Hkey.
Qed.

(** A call on a key with no entry, or with an entry that is false, invokes
    the factory once. *)
Lemma PolymorphicFunction_call_miss self a kw t key :
  dispatch_key a kw t key ->
  truthy (default py_None (_concrete_function_cache self !! key)) = false ->
  factory_invocations (PolymorphicFunction_call self a kw).1.2 = 1%nat
  ∧ ∀ fn, call (_concrete_function_factory self) [t] ∅ = Ok fn ->
          PolymorphicFunction_call self a kw
          = (mkPolymorphicFunction (_concrete_function_factory self)
               (<[key := fn]> (_concrete_function_cache self)),
             [FactoryInvoked t; ConcreteInvoked fn], call fn a kw).
Proof.
  intros Hkey Hfalsy.
  rewrite (PolymorphicFunction_call_unfold self a kw t key Hkey).
  simpl. rewrite Hfalsy. simpl.
  destruct (call (_concrete_function_factory self) [t] ∅) as [fn|err]; simpl.
  - split; [done |]. by intros fn' [= <-].
  - split; [done |]. by intros fn' [=].
Qed.

Lemma PolymorphicFunction_call_hit self a kw t key fn :
  dispatch_key a kw t key ->
  _concrete_function_cache self !! key = Some fn -> truthy fn = true ->
  PolymorphicFunction_call self a kw = (self, [ConcreteInvoked fn], call fn a kw).
Proof.
  intros Hkey Hfn Htruthy.
  rewrite (PolymorphicFunction_call_unfold self a kw t key Hkey).
  rewrite Hfn. simpl. by rewrite Htruthy.
Qed.

Lemma factory_invocations_app tr1 tr2 :
  factory_invocations (tr1 ++ tr2)
  = (factory_invocations tr1 + factory_invocations tr2)%nat.
Proof.
  induction tr1 as [|[t|fn] tr1 IH]; simpl; [done | by rewrite IH | done].
Qed.

Lemma dispatch_key_inferred a kw t key :
  dispatch_key a kw t key ↔ inferred_type a kw t ∧ repr t = Ok key.
Proof.
  unfold dispatch_key, inferred_type. split.
  - intros (packed & Hpack & Ht & Hkey). split; [by exists packed | done].
  - intros [(packed & Hpack & Ht) Hkey]. by exists packed.
Qed.

(** Under canonical keys, an inferred type has a key, and an inferred type
    with that key is that type. *)
Lemma canonical_keys_key a kw t :
  canonical_keys -> inferred_type a kw t ->
  ∃ key, dispatch_key a kw t key
         ∧ ∀ a' kw' t', dispatch_key a' kw' t' key -> t' = t.
Proof.
  intros Hcan (packed & Hpack & Ht).
  destruct (Hcan packed t Ht) as (key & Hkey & Huniq).
  exists key. split; [by exists packed |].
  intros a' kw' t' (packed' & _ & Ht' & Hkey'). by apply (Huniq packed').
Qed.

(** What one call does to the object: the factory stays, an entry that is
    there afterwards was there before or is what the factory returned at the
    key of the call, and an entry that is true stays. *)
Lemma PolymorphicFunction_call_factory self a kw :
  _concrete_function_factory (PolymorphicFunction_call self a kw).1.1
  = _concrete_function_factory self.
Proof.
  unfold PolymorphicFunction_call.
  destruct (_ ≫= _) as [[t key]|err]; [| done].
  destruct (negb _); [| done].
  by destruct (call (_concrete_function_factory self) [t] ∅).
Qed.

Lemma PolymorphicFunction_call_entry self a kw key fn :
  _concrete_function_cache (PolymorphicFunction_call self a kw).1.1 !! key
  = Some fn ->
  _concrete_function_cache self !! key = Some fn
  ∨ ∃ t, dispatch_key a kw t key
         ∧ call (_concrete_function_factory self) [t] ∅ = Ok fn.
Proof.
  unfold PolymorphicFunction_call, dispatch_key.
  destruct (pack_args_into_anonymous_tuple a kw) as [packed|err]; simpl;
    [| by left].
  destruct (infer_type packed) as [t|err] eqn:Ht; simpl; [| by left].
  destruct (repr t) as [k|err] eqn:Hk; simpl; [| by left].
  destruct (negb _); [| by left].
  destruct (call (_concrete_function_factory self) [t] ∅) as [fn'|err] eqn:Hfn;
    simpl; [| by left].
  destruct (decide (k = key)) as [-> | Hne].
  - rewrite lookup_insert_eq. intros [= ->]. right. exists t.
    split; [by exists packed | done].
  - rewrite lookup_insert_ne by done. by left.
Qed.

Lemma PolymorphicFunction_call_keeps self a kw key fn :
  _concrete_function_cache self !! key = Some fn -> truthy fn = true ->
  _concrete_function_cache (PolymorphicFunction_call self a kw).1.1 !! key
  = Some fn.
Proof.
  intros Hfn Htruthy. unfold PolymorphicFunction_call.
  destruct (_ ≫= _) as [[t k]|err]; [| done].
  destruct (negb _) eqn:Hmiss; [| done].
  destruct (call (_concrete_function_factory self) [t] ∅) as [fn'|err];
    simpl; [| done].
  destruct (decide (k = key)) as [-> | Hne].
  - rewrite Hfn in Hmiss. simpl in Hmiss. by rewrite Htruthy in Hmiss.
  - by rewrite lookup_insert_ne.
Qed.

(** The same over calls made one after the other. *)
Lemma PolymorphicFunction_calls_factory self calls :
  _concrete_function_factory (PolymorphicFunction_calls self calls).1
  = _concrete_function_factory self.
Proof.
  revert self. induction calls as [|c calls IH]; intros self; simpl; [done |].
  rewrite IH. apply PolymorphicFunction_call_factory.
Qed.

Lemma PolymorphicFunction_calls_entry self calls key fn :
  _concrete_function_cache (PolymorphicFunction_calls self calls).1 !! key
  = Some fn ->
  _concrete_function_cache self !! key = Some fn
  ∨ ∃ c t, c ∈ calls ∧ dispatch_key c.1 c.2 t key
           ∧ call (_concrete_function_factory self) [t] ∅ = Ok fn.
Proof.
  revert self. induction calls as [|c calls IH]; intros self; simpl;
    [by left |].
  intros Hfn. apply IH in Hfn as [Hfn | (c' & t & Hin & Hkey & Hcall)].
  - apply PolymorphicFunction_call_entry in Hfn as [Hfn | (t & Hkey & Hcall)];
      [by left |].
    right. exists c, t. split; [apply elem_of_cons; by left | done].
  - right. exists c', t. split; [apply elem_of_cons; by right |].
    split; [done |]. by rewrite PolymorphicFunction_call_factory in Hcall.
Qed.

Lemma PolymorphicFunction_calls_keeps self calls key fn :
  _concrete_function_cache self !! key = Some fn -> truthy fn = true ->
  _concrete_function_cache (PolymorphicFunction_calls self calls).1 !! key
  = Some fn.
Proof.
  revert self. induction calls as [|c calls IH]; intros self Hfn Htruthy;
    simpl; [done |].
  apply IH; [| done]. by apply PolymorphicFunction_call_keeps.
Qed.

(** After a call whose type the factory gives an object that is true, the
    key of the type has an entry that is true; it is there at the end of any
    calls that contain such a call. *)
Lemma PolymorphicFunction_call_seen self a kw t key fn :
  dispatch_key a kw t key ->
  call (_concrete_function_factory self) [t] ∅ = Ok fn -> truthy fn = true ->
  ∃ fn', _concrete_function_cache (PolymorphicFunction_call self a kw).1.1 !! key
         = Some fn'
         ∧ truthy fn' = true.
Proof.
  intros Hkey Hfn Htruthy.
  rewrite (PolymorphicFunction_call_unfold self a kw t key Hkey). simpl.
  destruct (_concrete_function_cache self !! key) as [old|] eqn:Hold; simpl.
  - destruct (truthy old) eqn:Hto; simpl.
    + exists old. by rewrite Hold.
    + rewrite Hfn. simpl. exists fn. by rewrite lookup_insert_eq.
  - rewrite truthy_None. simpl. rewrite Hfn. simpl.
    exists fn. by rewrite lookup_insert_eq.
Qed.

Lemma PolymorphicFunction_calls_seen self calls c t key fn :
  c ∈ calls -> dispatch_key c.1 c.2 t key ->
  call (_concrete_function_factory self) [t] ∅ = Ok fn -> truthy fn = true ->
  ∃ fn', _concrete_function_cache (PolymorphicFunction_calls self calls).1 !! key
         = Some fn'
         ∧ truthy fn' = true.
Proof.
  revert self. induction calls as [|c' calls IH]; intros self Hin Hkey Hfn Htruthy;
    [by apply elem_of_nil in Hin |].
  simpl. apply elem_of_cons in Hin as [-> | Hin].
  - destruct (PolymorphicFunction_call_seen self c'.1 c'.2 t key fn Hkey Hfn Htruthy)
      as (fn' & Hfn' & Htruthy').
    exists fn'. split; [| done]. by apply PolymorphicFunction_calls_keeps.
  - apply IH; try done. by rewrite PolymorphicFunction_call_factory.
Qed.

(** C5, as amended. A call whose packed arguments have a type that no earlier
    call on the object had invokes the factory exactly once and, when the
    factory returns, stores what it returned under the key of the type.  A
    call with a type that an earlier call had, for which the factory returns
    an object that is true, invokes the entry of the cache and not the
    factory.  On a new object, two calls with distinct types invoke the
    factory exactly twice, and two calls with the same type invoke it exactly
    once when it returns an object that is true.  Types are told apart by
    their keys: where a type has to be new to the cache, the keys are taken
    to be canonical. *)
Theorem polymorphic_dispatch :
  (∀ factory calls a kw t,
     canonical_keys -> inferred_type a kw t ->
     (∀ c, c ∈ calls -> ¬ inferred_type c.1 c.2 t) ->
     let self := (PolymorphicFunction_calls (PolymorphicFunction_init factory)
                    calls).1 in
     factory_invocations (PolymorphicFunction_call self a kw).1.2 = 1%nat
     ∧ ∀ fn, call factory [t] ∅ = Ok fn ->
         ∃ key, repr t = Ok key
                ∧ PolymorphicFunction_call self a kw
                  = (mkPolymorphicFunction factory
                       (<[key := fn]> (_concrete_function_cache self)),
                     [FactoryInvoked t; ConcreteInvoked fn], call fn a kw))
  ∧ (∀ factory calls c a kw t key fn,
       dispatch_key a kw t key ->
       c ∈ calls -> inferred_type c.1 c.2 t ->
       call factory [t] ∅ = Ok fn -> truthy fn = true ->
       let self := (PolymorphicFunction_calls (PolymorphicFunction_init factory)
                      calls).1 in
       ∃ fn', _concrete_function_cache self !! key = Some fn'
              ∧ PolymorphicFunction_call self a kw
                = (self, [ConcreteInvoked fn'], call fn' a kw)
              ∧ (canonical_keys -> fn' = fn))
  ∧ (∀ factory a1 kw1 t1 a2 kw2 t2,
       canonical_keys ->
       inferred_type a1 kw1 t1 -> inferred_type a2 kw2 t2 -> t1 ≠ t2 ->
       let r1 := PolymorphicFunction_call (PolymorphicFunction_init factory) a1 kw1 in
       let r2 := PolymorphicFunction_call r1.1.1 a2 kw2 in
       factory_invocations (r1.1.2 ++ r2.1.2) = 2%nat)
  ∧ (∀ factory a1 kw1 a2 kw2 t key fn,
       dispatch_key a1 kw1 t key -> dispatch_key a2 kw2 t key ->
       call factory [t] ∅ = Ok fn -> truthy fn = true ->
       let r1 := PolymorphicFunction_call (PolymorphicFunction_init factory) a1 kw1 in
       let r2 := PolymorphicFunction_call r1.1.1 a2 kw2 in
       factory_invocations (r1.1.2 ++ r2.1.2) = 1%nat).
Proof.
  split; [| split; [| split]].
  - intros factory calls a kw t Hcan Ht Hnew. simpl.
    destruct (canonical_keys_key a kw t Hcan Ht) as (key & Hkey & Huniq).
    set (self := (PolymorphicFunction_calls (PolymorphicFunction_init factory)
                    calls).1).
    assert (Hfactory : _concrete_function_factory self = factory)
      by apply PolymorphicFunction_calls_factory.
    assert (Hnone : _concrete_function_cache self !! key = None).
    { destruct (_concrete_function_cache self !! key) as [fn|] eqn:Hfn; [| done].
      apply PolymorphicFunction_calls_entry in Hfn
        as [Hfn | (c & t' & Hin & Hkey' & _)].
      - simpl in Hfn. by rewrite lookup_empty in Hfn.
      - exfalso. apply (Hnew c Hin).
        rewrite <- (Huniq c.1 c.2 t' Hkey').
        by apply dispatch_key_inferred in Hkey' as [? _]. }
    destruct (PolymorphicFunction_call_miss self a kw t key Hkey) as [Hone Hstate].
    { rewrite Hnone. apply truthy_None. }
    split; [done |]. intros fn Hfn. exists key.
    split; [by apply dispatch_key_inferred in Hkey as [_ ?] |].
    rewrite Hfactory in Hstate. by rewrite (Hstate fn Hfn).
  - intros factory calls c a kw t key fn Hkey Hin Hseen Hfn Htruthy. simpl.
    set (self := (PolymorphicFunction_calls (PolymorphicFunction_init factory)
                    calls).1).
    assert (Hkeyc : dispatch_key c.1 c.2 t key).
    { apply dispatch_key_inferred. split; [done |].
      by apply dispatch_key_inferred in Hkey as [_ ?]. }
    destruct (PolymorphicFunction_calls_seen (PolymorphicFunction_init factory)
                calls c t key fn Hin Hkeyc Hfn Htruthy) as (fn' & Hfn' & Htruthy').
    exists fn'. split; [done |].
    split; [by apply (PolymorphicFunction_call_hit self a kw t key fn') |].
    intros Hcan.
    apply PolymorphicFunction_calls_entry in Hfn'
      as [Hfn' | (c' & t' & _ & Hkey' & Hcall)].
    + simpl in Hfn'. by rewrite lookup_empty in Hfn'.
    + simpl in Hcall.
      destruct (canonical_keys_key a kw t Hcan) as (key0 & Hkey0 & Huniq).
      { by apply dispatch_key_inferred in Hkey as [? _]. }
      assert (key0 = key) as ->.
      { apply dispatch_key_inferred in Hkey as [_ Hk].
        apply dispatch_key_inferred in Hkey0 as [_ Hk0]. congruence. }
      rewrite (Huniq c'.1 c'.2 t' Hkey') in Hcall. congruence.
  - intros factory a1 kw1 t1 a2 kw2 t2 Hcan Ht1 Ht2 Hne. simpl.
    destruct (canonical_keys_key a1 kw1 t1 Hcan Ht1) as (key1 & Hk1 & Huniq1).
    destruct (canonical_keys_key a2 kw2 t2 Hcan Ht2) as (key2 & Hk2 & _).
    assert (Hkeys : key1 ≠ key2).
    { intros <-. apply Hne. symmetry. by apply (Huniq1 a2 kw2). }
    rewrite factory_invocations_app.
    destruct (PolymorphicFunction_call_miss (PolymorphicFunction_init factory)
                a1 kw1 t1 key1 Hk1) as [-> Hstate].
    { simpl. rewrite lookup_empty. apply truthy_None. }
    destruct (PolymorphicFunction_call_miss
                (PolymorphicFunction_call (PolymorphicFunction_init factory)
                   a1 kw1).1.1 a2 kw2 t2 key2 Hk2) as [-> _]; [| done].
    rewrite (PolymorphicFunction_call_unfold _ a1 kw1 t1 key1 Hk1). simpl.
    rewrite lookup_empty. simpl. rewrite truthy_None. simpl.
    destruct (call factory [t1] ∅) as [fn|err]; simpl.
    + rewrite lookup_insert_ne by done. rewrite lookup_empty. apply truthy_None.
    + rewrite lookup_empty. apply truthy_None.
  - intros factory a1 kw1 a2 kw2 t key fn Hk1 Hk2 Hfn Htruthy. simpl.
    destruct (PolymorphicFunction_call_miss (PolymorphicFunction_init factory)
                a1 kw1 t key Hk1) as [_ Hstate].
    { simpl. rewrite lookup_empty. apply truthy_None. }
    rewrite (Hstate fn Hfn). simpl.
    rewrite (PolymorphicFunction_call_hit _ a2 kw2 t key fn Hk2); try done.
    simpl. by rewrite lookup_insert_eq.
Qed.

(** C8. When the factory returns an object that is false, the call stores it
    in the cache, and every later call with the same inferred type finds the
    entry, takes it for a miss and invokes the factory again: the object is
    left as it was, so this holds for each call after the first. *)
Theorem falsy_entry_is_a_miss self a kw t key fn :
  dispatch_key a kw t key ->
  truthy (default py_None (_concrete_function_cache self !! key)) = false ->
  call (_concrete_function_factory self) [t] ∅ = Ok fn ->
  truthy fn = false ->
  let self1 := (PolymorphicFunction_call self a kw).1.1 in
  _concrete_function_cache self1 !! key = Some fn
  ∧ ∀ a' kw', dispatch_key a' kw' t key ->
      PolymorphicFunction_call self1 a' kw'
      = (self1, [FactoryInvoked t; ConcreteInvoked fn], call fn a' kw').
Proof.
  intros Hkey Hmiss Hfn Hfalsy. simpl.
  destruct (PolymorphicFunction_call_miss self a kw t key Hkey Hmiss)
    as [_ Hstate].
  rewrite (Hstate fn Hfn). simpl. split; [by rewrite lookup_insert_eq |].
  intros a' kw' Hkey'.
  destruct (PolymorphicFunction_call_miss
              (mkPolymorphicFunction (_concrete_function_factory self)
                 (<[key := fn]> (_concrete_function_cache self)))
              a' kw' t key Hkey') as [_ Hstate'].
  { simpl. by rewrite lookup_insert_eq. }
  rewrite (Hstate' fn Hfn). simpl. by rewrite insert_insert_eq.
Qed.

End Properties.

(** * More properties *)

Section BinderProperties.

Context `{RT : Runtime}.

Implicit Types (s : ArgSpec obj) (a : list obj) (kw r c : gmap string obj).

(** ** get_callargs_for_argspec, step by step *)

Lemma num_defaults_length s :
  (if seq_truthy (defaults s) then len_or_0 (defaults s) else 0%nat)
  = length (default [] (defaults s)).
Proof. by destruct (defaults s) as [[|d ds]|]. Qed.

Lemma get_callargs_unfold s a kw :
  wf_argspec s ->
  get_callargs_for_argspec s a kw
  = if (length (args s) <? length a)%nat && negb (name_truthy (varargs s))
    then Raise (TypeError TooManyPositionalArguments)
    else r ← bind_specargs s a kw (Z.of_nat (first_default s)) 0 (args s) ∅;
         bind_collectors s a kw r.
Proof.
  intros Hwf. unfold get_callargs_for_argspec. rewrite num_defaults_length.
  unfold first_default. unfold wf_argspec in Hwf. by rewrite Nat2Z.inj_sub.
Qed.

Lemma bind_specarg_bound s a kw idx name r v :
  bound_from s a kw idx name v ->
  bind_specarg s a kw (Z.of_nat (first_default s)) idx name r
  = Ok (<[name := v]> r).
Proof.
  unfold bound_from, bind_specarg.
  intros [(Hlt & Hv & Hkw) | [(Hge & Hkw) | (Hge & Hkw & Hfd & Hv)]].
  - rewrite (proj2 (Nat.ltb_lt idx (length a))) by done.
    rewrite Hkw, decide_False by (by intros [? ?]).
    by rewrite py_index_nonneg, Hv.
  - rewrite (proj2 (Nat.ltb_ge idx (length a))) by done. by rewrite Hkw.
  - rewrite (proj2 (Nat.ltb_ge idx (length a))) by done. rewrite Hkw.
    rewrite (proj2 (Z.leb_le _ _)) by lia.
    destruct (defaults s) as [ds|]; simpl in Hv; [| by rewrite lookup_nil in Hv].
    replace (Z.of_nat idx - Z.of_nat (first_default s))
      with (Z.of_nat (idx - first_default s)) by lia.
    by rewrite py_index_nonneg, Hv.
Qed.

Lemma bind_specarg_ok s a kw idx name r c :
  bind_specarg s a kw (Z.of_nat (first_default s)) idx name r = Ok c ->
  ∃ v, c = <[name := v]> r ∧ bound_from s a kw idx name v.
Proof.
  unfold bind_specarg, bound_from.
  destruct (idx <? length a)%nat eqn:Hlt.
  - apply Nat.ltb_lt in Hlt.
    destruct (decide (is_Some (kw !! name))) as [? | Hnone]; [done |].
    rewrite py_index_nonneg.
    destruct (a !! idx) as [v|] eqn:Hv; simpl; [| done].
    intros [= <-]. exists v. split; [done |]. left.
    split; [done |]. split; [done |]. by apply eq_None_not_Some.
  - apply Nat.ltb_ge in Hlt.
    destruct (kw !! name) as [v|] eqn:Hkw.
    { intros [= <-]. exists v. split; [done |]. right. by left. }
    destruct (Z.of_nat (first_default s) <=? Z.of_nat idx) eqn:Hfd; [| done].
    apply Z.leb_le in Hfd.
    destruct (defaults s) as [ds|] eqn:Hds; [| done].
    replace (Z.of_nat idx - Z.of_nat (first_default s))
      with (Z.of_nat (idx - first_default s)) by lia.
    rewrite py_index_nonneg.
    destruct (ds !! (idx - first_default s)%nat) as [v|] eqn:Hv; simpl; [| done].
    intros [= <-]. exists v. split; [done |]. right. right.
    repeat split; [done | lia | done].
Qed.

(** An iteration fails on a name given twice, or on a name that nothing
    gives a value to. *)
Lemma bind_specarg_raise s a kw idx name r (err : exn) :
  wf_argspec s -> (idx < length (args s))%nat ->
  bind_specarg s a kw (Z.of_nat (first_default s)) idx name r = Raise err ->
  (err = TypeError (DuplicateArgument name)
   ∧ (idx < length a)%nat ∧ is_Some (kw !! name))
  ∨ (err = TypeError (MissingArgument name)
     ∧ (length a <= idx)%nat ∧ kw !! name = None ∧ (idx < first_default s)%nat).
Proof.
  intros Hwf Hidx. unfold bind_specarg.
  destruct (idx <? length a)%nat eqn:Hlt.
  - apply Nat.ltb_lt in Hlt.
    destruct (decide (is_Some (kw !! name))) as [Hsome | Hnone].
    { intros [= <-]. by left. }
    rewrite py_index_nonneg.
    destruct (lookup_lt_is_Some_2 a idx Hlt) as [v ->]. done.
  - apply Nat.ltb_ge in Hlt.
    destruct (kw !! name) as [v|] eqn:Hkw; [done |].
    destruct (Z.of_nat (first_default s) <=? Z.of_nat idx) eqn:Hfd.
    + apply Z.leb_le in Hfd. unfold wf_argspec in Hwf.
      unfold first_default in *.
      destruct (defaults s) as [ds|] eqn:Hds; simpl in *; [| lia].
      replace (Z.of_nat idx - Z.of_nat (length (args s) - length ds))
        with (Z.of_nat (idx - (length (args s) - length ds))) by lia.
      rewrite py_index_nonneg.
      destruct (lookup_lt_is_Some_2 ds (idx - (length (args s) - length ds)))
        as [v ->]; [lia | done].
    + apply Z.leb_gt in Hfd. intros [= <-]. right.
      repeat split; [done | lia].
Qed.

Lemma bind_specargs_ok s a kw specargs idx r c :
  bind_specargs s a kw (Z.of_nat (first_default s)) idx specargs r = Ok c ->
  (∀ name, name ∉ specargs -> c !! name = r !! name)
  ∧ ∀ j name, specargs !! j = Some name ->
      ∃ v, bound_from s a kw (idx + j) name v
           ∧ (name ∉ drop (S j) specargs -> c !! name = Some v).
Proof.
  revert idx r. induction specargs as [|x rest IH]; intros idx r; simpl.
  - intros [= <-]. split; [done |]. intros j name Hj.
    by rewrite lookup_nil in Hj.
  - destruct (bind_specarg s a kw _ idx x r) as [r1|err] eqn:Hstep;
      simpl; [| done].
    intros Hrest. apply bind_specarg_ok in Hstep as (v & -> & Hv).
    destruct (IH _ _ Hrest) as [Hout Hin]. split.
    + intros name [Hne Hnot]%not_elem_of_cons.
      by rewrite (Hout name Hnot), lookup_insert_ne.
    + intros [|j] name Hj; simpl in Hj.
      * injection Hj as ->. exists v. rewrite Nat.add_0_r. split; [done |].
        simpl. rewrite drop_0. intros Hnot.
        by rewrite (Hout name Hnot), lookup_insert_eq.
      * destruct (Hin j name Hj) as (w & Hw & Hlast). exists w.
        replace (idx + S j)%nat with (S idx + j)%nat by lia. done.
Qed.

Lemma bind_specargs_complete s a kw specargs idx r :
  (∀ j name, specargs !! j = Some name ->
             ∃ v, bound_from s a kw (idx + j) name v) ->
  ∃ c, bind_specargs s a kw (Z.of_nat (first_default s)) idx specargs r = Ok c.
Proof.
  revert idx r. induction specargs as [|x rest IH]; intros idx r Hall; simpl.
  - by eexists.
  - destruct (Hall 0%nat x eq_refl) as [v Hv]. rewrite Nat.add_0_r in Hv.
    rewrite (bind_specarg_bound _ _ _ _ _ r v Hv). simpl.
    apply IH. intros j name Hj.
    replace (S idx + j)%nat with (idx + S j)%nat by lia. by apply Hall.
Qed.

(** The loop fails at the first name that an iteration fails on. *)
Lemma bind_specargs_raise s a kw specargs idx r (err : exn) :
  wf_argspec s -> (idx + length specargs <= length (args s))%nat ->
  bind_specargs s a kw (Z.of_nat (first_default s)) idx specargs r = Raise err ->
  ∃ j name, specargs !! j = Some name
    ∧ (∀ j' name', (j' < j)%nat -> specargs !! j' = Some name' ->
                   ∃ v, bound_from s a kw (idx + j') name' v)
    ∧ ((err = TypeError (DuplicateArgument name)
        ∧ (idx + j < length a)%nat ∧ is_Some (kw !! name))
       ∨ (err = TypeError (MissingArgument name)
          ∧ (length a <= idx + j)%nat ∧ kw !! name = None
          ∧ (idx + j < first_default s)%nat)).
Proof.
  intros Hwf. revert idx r.
  induction specargs as [|x rest IH]; intros idx r Hlen; simpl; [done |].
  simpl in Hlen.
  destruct (bind_specarg s a kw _ idx x r) as [r1|err1] eqn:Hstep; simpl.
  - intros Hrest. apply bind_specarg_ok in Hstep as (v & -> & Hv).
    destruct (IH (S idx) _ ltac:(lia) Hrest) as (j & name & Hj & Hbefore & Hat).
    exists (S j), name. split; [done |]. split.
    + intros [|j'] name' Hlt Hj'; simpl in Hj'.
      * injection Hj' as <-. exists v. by rewrite Nat.add_0_r.
      * replace (idx + S j')%nat with (S idx + j')%nat by lia.
        apply Hbefore; [lia | done].
    + by replace (idx + S j)%nat with (S idx + j)%nat by lia.
  - intros [= <-].
    apply bind_specarg_raise in Hstep; [| done | lia].
    exists 0%nat, x. split; [done |]. split; [intros; lia |].
    by rewrite Nat.add_0_r.
Qed.

(** The keys of the dict the loop builds are the keys it started from and
    the names. *)
Lemma bind_specargs_dom s a kw nwd specargs idx r c k :
  bind_specargs s a kw nwd idx specargs r = Ok c ->
  is_Some (c !! k) ↔ is_Some (r !! k) ∨ k ∈ specargs.
Proof.
  revert idx r. induction specargs as [|x rest IH]; intros idx r; simpl.
  - intros [= <-]. split; [by left |].
    intros [? | H]; [done | by apply elem_of_nil in H].
  - destruct (bind_specarg s a kw nwd idx x r) as [r1|err] eqn:Hstep;
      simpl; [| done].
    intros Hrest. apply bind_specarg_inserts in Hstep as (v & -> & _).
    rewrite (IH _ _ Hrest), elem_of_cons, lookup_insert.
    case_decide as Hx; subst.
    + split; [intros _; right; by left | intros _; left; by eexists].
    + split; [intros [? | ?]; [by left | right; by right] |].
      intros [? | [? | ?]]; [by left | congruence | by right].
Qed.

(** ** get_callargs_for_argspec, as a whole *)

(** The keyword arguments left over are those whose name the spec does not
    declare. *)
Lemma unused_kwargs_undeclared s a kw nwd r :
  bind_specargs s a kw nwd 0 (args s) ∅ = Ok r ->
  filter (fun kv : string * obj => r !! kv.1 = None) kw
  = filter (fun kv : string * obj => kv.1 ∉ args s) kw.
Proof.
  intros Hloop. apply map_filter_ext. intros k v _. simpl.
  rewrite eq_None_not_Some, (bind_specargs_dom _ _ _ _ _ _ _ _ k Hloop).
  rewrite lookup_empty. split.
  - intros Hnot Hin. apply Hnot. by right.
  - intros Hnot [[? ?] | Hin]; done.
Qed.

Lemma unused_kwargs_empty s kw :
  filter (fun kv : string * obj => kv.1 ∉ args s) kw = ∅
  ↔ ∀ k, is_Some (kw !! k) -> k ∈ args s.
Proof.
  rewrite map_empty_filter. unfold map_Forall. split.
  - intros Hall k [v Hv].
    destruct (decide (k ∈ args s)) as [? | Hnot]; [done |].
    by destruct (Hall k v Hv).
  - intros Hall k v Hv Hnot. simpl in Hnot. apply Hnot, Hall. by eexists.
Qed.

Lemma bind_collectors_lookup_other s a kw r c name :
  bind_collectors s a kw r = Ok c -> not_a_collector s name ->
  c !! name = r !! name.
Proof.
  unfold bind_collectors, not_a_collector. intros Hc [Hv Hk].
  destruct (varargs s) as [vn|], (keywords s) as [kn|]; simpl in Hc;
    repeat match type of Hc with
           | context [if ?b then _ else _] => destruct b
           end;
    try discriminate; injection Hc as <-;
    rewrite ?lookup_insert; repeat case_decide; congruence.
Qed.

Lemma bind_collectors_ok_iff s a kw r :
  (∃ c, bind_collectors s a kw r = Ok c)
  ↔ name_truthy (keywords s) = true
    ∨ filter (fun kv : string * obj => r !! kv.1 = None) kw = ∅.
Proof.
  unfold bind_collectors.
  destruct (keywords s) as [kn|]; simpl.
  - destruct (negb (String.eqb kn "")); simpl.
    + split; [by left | by eexists].
    + case_decide as Hu.
      * split; [by right | by eexists].
      * split; [by intros [? ?] | by intros [? | ?]].
  - case_decide as Hu.
    + split; [by right | by eexists].
    + split; [by intros [? ?] | by intros [? | ?]].
Qed.

Lemma bind_collectors_raise s a kw r (err : exn) :
  bind_collectors s a kw r = Raise err ->
  err = TypeError UnexpectedKeywordArguments
  ∧ name_truthy (keywords s) = false
  ∧ filter (fun kv : string * obj => r !! kv.1 = None) kw ≠ ∅.
Proof.
  unfold bind_collectors.
  destruct (keywords s) as [kn|]; simpl.
  - destruct (negb (String.eqb kn "")); simpl; [done |].
    case_decide as Hu; [done |]. by intros [= <-].
  - case_decide as Hu; [done |]. by intros [= <-].
Qed.

Lemma bind_collectors_dom s a kw r c k :
  bind_collectors s a kw r = Ok c ->
  is_Some (c !! k)
  ↔ is_Some (r !! k)
    ∨ (varargs s = Some k ∧ name_truthy (Some k) = true)
    ∨ (keywords s = Some k ∧ name_truthy (Some k) = true).
Proof.
  unfold bind_collectors.
  set (r1 := match varargs s with
             | Some name =>
                 if name_truthy (varargs s)
                 then <[name := tuple_of (drop (length (args s)) a)]> r
                 else r
             | None => r
             end).
  assert (H1 : is_Some (r1 !! k)
               ↔ is_Some (r !! k)
                 ∨ (varargs s = Some k ∧ name_truthy (Some k) = true)).
  { subst r1. destruct (varargs s) as [vn|].
    - destruct (name_truthy (Some vn)) eqn:Hvn.
      + rewrite lookup_insert. case_decide as Hk; subst.
        * split; [intros _; by right | intros _; by eexists].
        * split; [by left | intros [? | [[= ?] _]]; done].
      + split; [by left | intros [? | [[= ->] ?]]; [done | congruence]].
    - split; [by left | intros [? | [? _]]; done]. }
  clearbody r1. intros Hc.
  assert (Hgoal : ∀ c', (is_Some (c' !! k)
                         ↔ is_Some (r1 !! k)
                           ∨ (keywords s = Some k ∧ name_truthy (Some k) = true)) ->
            is_Some (c' !! k)
            ↔ is_Some (r !! k)
              ∨ (varargs s = Some k ∧ name_truthy (Some k) = true)
              ∨ (keywords s = Some k ∧ name_truthy (Some k) = true)).
  { intros c' ->. rewrite H1. clear. tauto. }
  apply Hgoal. clear Hgoal H1.
  destruct (keywords s) as [kn|].
  - destruct (name_truthy (Some kn)) eqn:Hkn.
    + injection Hc as <-. rewrite lookup_insert. case_decide as Hk; subst.
      * split; [intros _; by right | intros _; by eexists].
      * split; [by left | intros [? | [[= ?] _]]; done].
    + case_decide; [| done]. injection Hc as <-.
      split; [by left | intros [? | [[= ->] ?]]; [done | congruence]].
  - case_decide; [| done]. injection Hc as <-.
    split; [by left | intros [? | [? _]]; done].
Qed.

(** X1. When the binding succeeds, the keys of the result are exactly the
    names of the spec and the collectors it declares. *)
Theorem get_callargs_keys s a kw c k :
  get_callargs_for_argspec s a kw = Ok c ->
  is_Some (c !! k)
  ↔ k ∈ args s
    ∨ (varargs s = Some k ∧ name_truthy (Some k) = true)
    ∨ (keywords s = Some k ∧ name_truthy (Some k) = true).
Proof.
  unfold get_callargs_for_argspec. destruct (_ && _); [done |].
  destruct (bind_specargs s a kw _ 0 (args s) ∅) as [r|err] eqn:Hloop;
    simpl; [| done].
  intros Hc. rewrite (bind_collectors_dom _ _ _ _ _ k Hc).
  rewrite (bind_specargs_dom _ _ _ _ _ _ _ _ k Hloop), lookup_empty.
  split; [intros [[[? ?] | ?] | ?]; [done | by left | by right] |].
  intros [? | ?]; [left; by right | by right].
Qed.

(** The callargs of a binding that succeeds, for a name that is no
    collector. *)
Lemma get_callargs_value s a kw c i name :
  wf_argspec s -> NoDup (args s) ->
  get_callargs_for_argspec s a kw = Ok c ->
  args s !! i = Some name -> not_a_collector s name ->
  ∃ v, bound_from s a kw i name v ∧ c !! name = Some v.
Proof.
  intros Hwf Hnd Hc Hi Hcol. rewrite get_callargs_unfold in Hc by done.
  destruct (_ && _); [done |].
  destruct (bind_specargs s a kw _ 0 (args s) ∅) as [r|err] eqn:Hloop;
    simpl in Hc; [| done].
  destruct (bind_specargs_ok _ _ _ _ _ _ _ Hloop) as [_ Hin].
  destruct (Hin i name Hi) as (v & Hv & Hlast). exists v. split; [done |].
  rewrite (bind_collectors_lookup_other _ _ _ _ _ _ Hc Hcol).
  apply Hlast. intros Hdrop.
  apply list_elem_of_lookup in Hdrop as [j Hj]. rewrite lookup_drop in Hj.
  pose proof (NoDup_lookup _ _ _ _ Hnd Hi Hj). lia.
Qed.

(** A name has at most one source. *)
Lemma bound_from_unique s a kw i name v v' :
  bound_from s a kw i name v -> bound_from s a kw i name v' -> v' = v.
Proof.
  unfold bound_from.
  intros [(? & Hv & Hk) | [(? & Hk) | (? & Hk & ? & Hv)]]
         [(? & Hv' & Hk') | [(? & Hk') | (? & Hk' & ? & Hv')]];
    first [lia | congruence].
Qed.

(** X2. When the binding succeeds, each name of the spec is bound to the
    positional argument at its index, or else to the keyword argument of its
    name, or else to its default: to the one of the three that applies. *)
Theorem get_callargs_binds s a kw c i name :
  wf_argspec s -> NoDup (args s) ->
  get_callargs_for_argspec s a kw = Ok c ->
  args s !! i = Some name -> not_a_collector s name ->
  ∃ v, bound_from s a kw i name v ∧ c !! name = Some v
       ∧ ∀ v', bound_from s a kw i name v' -> v' = v.
Proof.
  intros Hwf Hnd Hc Hi Hcol.
  destruct (get_callargs_value s a kw c i name Hwf Hnd Hc Hi Hcol)
    as (v & Hv & Hcv).
  exists v. split; [done |]. split; [done |].
  intros v' Hv'. by apply (bound_from_unique s a kw i name).
Qed.

(** X3. When the binding succeeds, the collector of positional arguments
    holds the arguments past the names, and the collector of keyword
    arguments holds the keyword arguments whose name the spec does not
    declare. *)
Theorem get_callargs_collects s a kw c :
  get_callargs_for_argspec s a kw = Ok c ->
  (∀ vn, varargs s = Some vn -> name_truthy (Some vn) = true ->
         keywords s ≠ Some vn ->
         c !! vn = Some (tuple_of (drop (length (args s)) a)))
  ∧ (∀ kn, keywords s = Some kn -> name_truthy (Some kn) = true ->
           c !! kn
           = Some (dict_of (filter (fun kv : string * obj => kv.1 ∉ args s) kw))).
Proof.
  unfold get_callargs_for_argspec. destruct (_ && _); [done |].
  destruct (bind_specargs s a kw _ 0 (args s) ∅) as [r|err] eqn:Hloop;
    cbn [mbind outcome_bind]; [| done].
  unfold bind_collectors. rewrite (unused_kwargs_undeclared _ _ _ _ _ Hloop).
  intros Hc. split.
  - intros vn Hvn Htruthy Hkn. rewrite Hvn in Hc. rewrite Htruthy in Hc.
    destruct (keywords s) as [kn|];
      repeat match type of Hc with
             | context [if ?b then _ else _] => destruct b
             end;
      try discriminate; injection Hc as <-;
      rewrite ?lookup_insert; repeat case_decide; congruence.
  - intros kn Hkn Htruthy. rewrite Hkn in Hc. rewrite Htruthy in Hc.
    injection Hc as <-. by rewrite lookup_insert_eq.
Qed.

Lemma get_callargs_ok_inv s a kw c :
  wf_argspec s ->
  get_callargs_for_argspec s a kw = Ok c ->
  ((length a <= length (args s))%nat ∨ name_truthy (varargs s) = true)
  ∧ (∀ i name, args s !! i = Some name -> ∃ v, bound_from s a kw i name v)
  ∧ (name_truthy (keywords s) = true
     ∨ ∀ k, is_Some (kw !! k) -> k ∈ args s).
Proof.
  intros Hwf Hc. rewrite get_callargs_unfold in Hc by done.
  destruct (length (args s) <? length a)%nat eqn:Hlen;
    destruct (name_truthy (varargs s)) eqn:Hvar; simpl in Hc; try done;
    (destruct (bind_specargs s a kw _ 0 (args s) ∅) as [r|err] eqn:Hloop;
     simpl in Hc; [| done]);
    (split; [first [by right | left; by apply Nat.ltb_ge] |]);
    (split; [intros i name Hi;
             destruct (bind_specargs_ok _ _ _ _ _ _ _ Hloop) as [_ Hin];
             destruct (Hin i name Hi) as (v & Hv & _); by exists v |]);
    (destruct (proj1 (bind_collectors_ok_iff s a kw r) (ex_intro _ c Hc))
       as [? | Hu]; [by left | right]);
    rewrite (unused_kwargs_undeclared _ _ _ _ _ Hloop) in Hu;
    by apply unused_kwargs_empty.
Qed.

Lemma get_callargs_ok_intro s a kw :
  wf_argspec s ->
  ((length a <= length (args s))%nat ∨ name_truthy (varargs s) = true) ->
  (∀ i name, args s !! i = Some name -> ∃ v, bound_from s a kw i name v) ->
  (name_truthy (keywords s) = true
   ∨ ∀ k, is_Some (kw !! k) -> k ∈ args s) ->
  ∃ c, get_callargs_for_argspec s a kw = Ok c.
Proof.
  intros Hwf Hlen Hall Hkw. rewrite get_callargs_unfold by done.
  assert ((length (args s) <? length a)%nat
          && negb (name_truthy (varargs s)) = false) as ->.
  { destruct Hlen as [Hlen | ->]; [| by rewrite andb_false_r].
    by rewrite (proj2 (Nat.ltb_ge _ _) Hlen). }
  destruct (bind_specargs_complete s a kw (args s) 0 ∅ Hall) as [r Hloop].
  rewrite Hloop. simpl. apply bind_collectors_ok_iff.
  destruct Hkw as [? | Hkw]; [by left | right].
  rewrite (unused_kwargs_undeclared _ _ _ _ _ Hloop).
  by apply unused_kwargs_empty.
Qed.

(** X4. The binding succeeds exactly when there are no more positional
    arguments than names (unless a collector takes them), every name gets a
    value from exactly one of a positional argument, a keyword argument or a
    default, and every keyword argument bears a name of the spec (unless a
    collector takes them). *)
Theorem get_callargs_succeeds_iff s a kw :
  wf_argspec s ->
  (∃ c, get_callargs_for_argspec s a kw = Ok c)
  ↔ ((length a <= length (args s))%nat ∨ name_truthy (varargs s) = true)
    ∧ (∀ i name, args s !! i = Some name -> ∃ v, bound_from s a kw i name v)
    ∧ (name_truthy (keywords s) = true
       ∨ ∀ k, is_Some (kw !! k) -> k ∈ args s).
Proof.
  intros Hwf. split.
  - intros [c Hc]. by apply (get_callargs_ok_inv s a kw c).
  - intros (Hlen & Hall & Hkw). by apply get_callargs_ok_intro.
Qed.

(** The first thing that goes wrong in a binding that fails. *)
Lemma get_callargs_raise_first s a kw (err : exn) :
  wf_argspec s ->
  get_callargs_for_argspec s a kw = Raise err ->
  (err = TypeError TooManyPositionalArguments
   ∧ (length (args s) < length a)%nat ∧ name_truthy (varargs s) = false)
  ∨ (((length a <= length (args s))%nat ∨ name_truthy (varargs s) = true)
     ∧ ∃ j name, args s !! j = Some name
       ∧ (∀ j' name', (j' < j)%nat -> args s !! j' = Some name' ->
                      ∃ v, bound_from s a kw j' name' v)
       ∧ ((err = TypeError (DuplicateArgument name)
           ∧ (j < length a)%nat ∧ is_Some (kw !! name))
          ∨ (err = TypeError (MissingArgument name)
             ∧ (length a <= j)%nat ∧ kw !! name = None
             ∧ (j < first_default s)%nat)))
  ∨ (err = TypeError UnexpectedKeywordArguments
     ∧ name_truthy (keywords s) = false
     ∧ (∀ i name, args s !! i = Some name -> ∃ v, bound_from s a kw i name v)
     ∧ ∃ k, is_Some (kw !! k) ∧ k ∉ args s).
Proof.
  intros Hwf Herr. rewrite get_callargs_unfold in Herr by done.
  destruct (length (args s) <? length a)%nat eqn:Hlen;
    destruct (name_truthy (varargs s)) eqn:Hvar; simpl in Herr.
  2:{ injection Herr as <-. left. by apply Nat.ltb_lt in Hlen. }
  all: destruct (bind_specargs s a kw _ 0 (args s) ∅) as [r|err1] eqn:Hloop;
    simpl in Herr.
  all: try (apply bind_collectors_raise in Herr as (-> & Hk & Hu);
            do 2 right; split; [done |]; split; [done |];
            split;
            [ intros i name Hi;
              destruct (bind_specargs_ok _ _ _ _ _ _ _ Hloop) as [_ Hin];
              destruct (Hin i name Hi) as (v & Hv & _); by exists v
            | rewrite (unused_kwargs_undeclared _ _ _ _ _ Hloop) in Hu;
              apply map_choose in Hu
                as (k & v & [Hv Hnot]%map_lookup_filter_Some);
              exists k; split; [by eexists | done] ]).
  all: injection Herr as <-; right; left;
    (split; [first [by right | left; by apply Nat.ltb_ge] |]);
    (apply bind_specargs_raise in Hloop as (j & name & Hj & Hbefore & Hat);
     [| done | simpl; lia]);
    exists j, name; done.
Qed.

(** X5. Every failure of the binding is one of four [TypeError]s, each for
    its reason: too many positional arguments and no collector; a name given
    by position and by keyword; a name with no positional argument, no keyword
    argument and no default; a keyword argument with a name the spec does not
    declare and no collector.  [is_argspec_compatible_with_types] is then
    false. *)
Theorem get_callargs_failures s a kw (err : exn) :
  wf_argspec s ->
  get_callargs_for_argspec s a kw = Raise err ->
  ((err = TypeError TooManyPositionalArguments
    ∧ (length (args s) < length a)%nat ∧ name_truthy (varargs s) = false)
   ∨ (∃ i name, err = TypeError (DuplicateArgument name)
        ∧ args s !! i = Some name ∧ (i < length a)%nat ∧ is_Some (kw !! name))
   ∨ (∃ i name, err = TypeError (MissingArgument name)
        ∧ args s !! i = Some name ∧ (length a <= i)%nat ∧ kw !! name = None
        ∧ (i < first_default s)%nat)
   ∨ (err = TypeError UnexpectedKeywordArguments
      ∧ name_truthy (keywords s) = false
      ∧ ∃ k, is_Some (kw !! k) ∧ k ∉ args s))
  ∧ is_argspec_compatible_with_types s a kw = Ok false.
Proof.
  intros Hwf Herr.
  assert (Hkind : is_TypeError err = true ->
                  is_argspec_compatible_with_types s a kw = Ok false).
  { intros Hte. unfold is_argspec_compatible_with_types, try_body.
    rewrite Herr. simpl. by rewrite Hte. }
  destruct (get_callargs_raise_first s a kw err Hwf Herr)
    as [(-> & ? & ?)
       | [(_ & j & name & Hj & _ & [(-> & ? & ?) | (-> & ? & ? & ?)])
       | (-> & ? & _ & ?)]];
    (split; [| by apply Hkind]).
  - by left.
  - right. left. by exists j, name.
  - right. right. left. by exists j, name.
  - by do 3 right.
Qed.

(** X6. A name given both by position and by keyword makes the binding fail
    with [DuplicateArgument] for the first such name, whatever the two
    values are. *)
Theorem get_callargs_duplicate s a kw pre name post :
  wf_argspec s ->
  args s = pre ++ name :: post ->
  (length pre < length a)%nat ->
  ((length a <= length (args s))%nat ∨ name_truthy (varargs s) = true) ->
  is_Some (kw !! name) ->
  (∀ n, n ∈ pre -> kw !! n = None) ->
  get_callargs_for_argspec s a kw = Raise (TypeError (DuplicateArgument name)).
Proof.
  intros Hwf Hargs Hpre Hlen Hsome Hfree.
  assert (Hname : args s !! length pre = Some name).
  { rewrite Hargs. by apply list_lookup_middle. }
  assert (Hno : ¬ ∃ v, bound_from s a kw (length pre) name v).
  { intros [v Hv]. destruct Hsome as [w Hw]. unfold bound_from in Hv.
    rewrite Hw in Hv.
    destruct Hv as [(_ & _ & ?) | [(? & _) | (? & _)]]; [done | lia | lia]. }
  destruct (get_callargs_for_argspec s a kw) as [c|err] eqn:Hc.
  - exfalso. apply Hno.
    rewrite get_callargs_unfold in Hc by done.
    destruct (_ && _); [done |].
    destruct (bind_specargs s a kw _ 0 (args s) ∅) as [r|err] eqn:Hloop;
      simpl in Hc; [| done].
    destruct (bind_specargs_ok _ _ _ _ _ _ _ Hloop) as [_ Hin].
    destruct (Hin _ _ Hname) as (v & Hv & _). by exists v.
  - destruct (get_callargs_raise_first s a kw err Hwf Hc)
      as [(-> & Hlt & Hvar)
         | [(_ & j & n & Hj & Hbefore & Hat) | (-> & _ & Hall & _)]].
    + exfalso. destruct Hlen as [? | Hv]; [lia | congruence].
    + destruct (Nat.lt_trichotomy j (length pre)) as [Hlt | [-> | Hgt]].
      * exfalso. assert (Hin : n ∈ pre).
        { rewrite Hargs, lookup_app_l in Hj by done.
          by apply list_elem_of_lookup_2 in Hj. }
        destruct Hat as [(_ & _ & [w Hw]) | (_ & ? & _)]; [| lia].
        by rewrite (Hfree n Hin) in Hw.
      * rewrite Hname in Hj. injection Hj as <-.
        destruct Hat as [(-> & _) | (_ & ? & _)]; [done | lia].
      * exfalso. apply Hno. by apply (Hbefore (length pre) name).
    + exfalso. apply Hno. by apply Hall.
Qed.

End BinderProperties.

Section CompatibilityProperties.

Context `{RT : Runtime}.

Implicit Types (s : ArgSpec obj) (a : list obj) (kw r c : gmap string obj).

(** ** is_argspec_compatible_with_types on names left to their defaults *)

Lemma is_compatible_without_defaults s a kw c :
  get_callargs_for_argspec s a kw = Ok c ->
  seq_truthy (defaults s) = false ->
  is_argspec_compatible_with_types s a kw = Ok true.
Proof.
  intros Hc Hds. unfold is_argspec_compatible_with_types, try_body.
  rewrite Hc. simpl. by rewrite Hds.
Qed.

Lemma is_compatible_bind_fails s a kw (err : exn) :
  get_callargs_for_argspec s a kw = Raise err -> is_TypeError err = true ->
  is_argspec_compatible_with_types s a kw = Ok false.
Proof.
  intros Hc Hte. unfold is_argspec_compatible_with_types, try_body.
  rewrite Hc. simpl. by rewrite Hte.
Qed.

(** When every default is [None] or is the very object bound to its name,
    no test is made. *)
Lemma is_compatible_bound_to_defaults s a kw c :
  wf_argspec s ->
  get_callargs_for_argspec s a kw = Ok c ->
  (∀ j d name, default [] (defaults s) !! j = Some d ->
               args s !! (first_default s + j)%nat = Some name ->
               d = py_None ∨ c !! name = Some d) ->
  is_argspec_compatible_with_types s a kw = Ok true.
Proof.
  intros Hwf Hc Hsame.
  destruct (seq_truthy (defaults s)) eqn:Hds;
    [| by apply (is_compatible_without_defaults s a kw c)].
  rewrite (is_compatible_with_defaults s a kw c Hwf Hds Hc).
  apply verify_defaults_true. intros j d Hd.
  destruct (defaulted_name_exists s j d Hwf Hd) as [name Hname].
  destruct (Hsame j d name Hd Hname) as [-> | Hbound]; [by left | right].
  exists name, d. split; [done |]. split; [done | by left].
Qed.

(** A name that is given no argument is bound to its default. *)
Lemma unsupplied_bound_to_default s a kw c j d name :
  wf_argspec s -> NoDup (args s) -> not_a_collector s name ->
  get_callargs_for_argspec s a kw = Ok c ->
  default [] (defaults s) !! j = Some d ->
  args s !! (first_default s + j)%nat = Some name ->
  (length a <= first_default s + j)%nat -> kw !! name = None ->
  c !! name = Some d.
Proof.
  intros Hwf Hnd Hcol Hc Hd Hname Hge Hkw.
  destruct (get_callargs_value s a kw c _ name Hwf Hnd Hc Hname Hcol)
    as (v & Hv & ->).
  unfold bound_from in Hv. rewrite Hkw in Hv.
  destruct Hv as [(? & _) | [(_ & ?) | (_ & _ & _ & Hdef)]]; [lia | done |].
  replace (first_default s + j - first_default s)%nat with j in Hdef by lia.
  congruence.
Qed.

(** X7. When the binding succeeds and every default is [None] or belongs to a
    name that is given no argument, the function returns true, whatever the
    objects given for the other names are: they are never looked at. *)
Theorem is_compatible_defaults_untouched s a kw c :
  wf_argspec s -> NoDup (args s) ->
  (∀ name, name ∈ args s -> not_a_collector s name) ->
  get_callargs_for_argspec s a kw = Ok c ->
  (∀ j d name, default [] (defaults s) !! j = Some d ->
               args s !! (first_default s + j)%nat = Some name ->
               d = py_None
               ∨ ((length a <= first_default s + j)%nat ∧ kw !! name = None)) ->
  is_argspec_compatible_with_types s a kw = Ok true.
Proof.
  intros Hwf Hnd Hcol Hc Hfree.
  apply (is_compatible_bound_to_defaults s a kw c Hwf Hc).
  intros j d name Hd Hname.
  destruct (Hfree j d name Hd Hname) as [-> | [Hge Hkw]]; [by left | right].
  apply (unsupplied_bound_to_default s a kw c j d name); try done.
  apply Hcol. by apply list_elem_of_lookup_2 in Hname.
Qed.

(** ** wrap_as_zero_or_one_arg_callable *)

(** With no argument at all, the binding succeeds exactly when every name has
    a default. *)
Lemma is_compatible_no_arguments s :
  wf_argspec s -> NoDup (args s) ->
  (∀ name, name ∈ args s -> not_a_collector s name) ->
  is_argspec_compatible_with_types s [] ∅
  = Ok (bool_decide (first_default s = 0%nat)).
Proof.
  intros Hwf Hnd Hcol.
  destruct (get_callargs_for_argspec s [] ∅) as [c|err] eqn:Hc.
  - assert (Hall : ∀ i name, args s !! i = Some name ->
                             (first_default s <= i)%nat).
    { intros i name Hi. rewrite get_callargs_unfold in Hc by done.
      destruct (_ && _); [done |].
      destruct (bind_specargs s [] ∅ _ 0 (args s) ∅) as [r|err] eqn:Hloop;
        simpl in Hc; [| done].
      destruct (bind_specargs_ok _ _ _ _ _ _ _ Hloop) as [_ Hin].
      destruct (Hin i name Hi) as (v & Hv & _). unfold bound_from in Hv.
      simpl in Hv. rewrite lookup_empty in Hv.
      destruct Hv as [(? & _) | [(_ & ?) | (_ & _ & ? & _)]]; [lia | done | done]. }
    rewrite (is_compatible_bound_to_defaults s [] ∅ c Hwf Hc).
    + f_equal. symmetry. apply bool_decide_eq_true.
      destruct (args s) as [|x rest] eqn:Hargs.
      * unfold first_default. rewrite Hargs. simpl. lia.
      * specialize (Hall 0%nat x eq_refl). lia.
    + intros j d name Hd Hname. right.
      apply (unsupplied_bound_to_default s [] ∅ c j d name); try done.
      * apply Hcol. by apply list_elem_of_lookup_2 in Hname.
      * simpl. lia.
  - pose proof Hc as Hc'. rewrite get_callargs_unfold in Hc by done.
    simpl in Hc.
    destruct (bind_specargs s [] ∅ _ 0 (args s) ∅) as [r|err1] eqn:Hloop;
      simpl in Hc.
    + apply bind_collectors_raise in Hc as (_ & _ & Hu). exfalso. apply Hu.
      apply map_filter_empty.
    + injection Hc as <-.
      apply bind_specargs_raise in Hloop
        as (j & name & Hj & _ & [(_ & Hlt & _) | (-> & _ & _ & Hfd)]);
        [simpl in Hlt; lia | | done | simpl; lia].
      rewrite (is_compatible_bind_fails s [] ∅ _ Hc' eq_refl).
      f_equal. symmetry. apply bool_decide_eq_false. simpl in Hfd. lia.
Qed.

(** A binding that cannot succeed gives false. *)
Lemma is_compatible_not_bound s a kw :
  wf_argspec s ->
  (∀ c, get_callargs_for_argspec s a kw = Ok c -> False) ->
  is_argspec_compatible_with_types s a kw = Ok false.
Proof.
  intros Hwf Hno.
  destruct (get_callargs_for_argspec s a kw) as [c|err] eqn:Hc;
    [by destruct (Hno c) |].
  apply (is_compatible_bind_fails s a kw err Hc).
  destruct (get_callargs_raise_first s a kw err Hwf Hc)
    as [(-> & _) | [(_ & j & name & _ & _ & [(-> & _) | (-> & _)])
                   | (-> & _)]]; done.
Qed.

Lemma wrap_no_parameter func pt0 unpack s pt :
  py_in unpack [py_True; py_False; py_None] = Ok true ->
  get_argspec func = Ok s -> to_type pt0 = Ok pt -> truthy pt = false ->
  wrap_as_zero_or_one_arg_callable func pt0 unpack
  = (c ← is_argspec_compatible_with_types s [] ∅;
     if (c : bool) then Ok (NoArgCall func)
     else Raise (TypeError IncompatibleNoParameterSignature)).
Proof.
  intros Hin Hs Hpt Htruthy. unfold wrap_as_zero_or_one_arg_callable.
  rewrite Hin. simpl. rewrite Hs. simpl. rewrite Hpt. simpl.
  by rewrite Htruthy.
Qed.

(** X8. With no parameter type, and a knob [unpack] that passes the test on
    its value, the function returns the adapter that calls [func] with no
    argument exactly when every name of the argspec has a default, and fails
    with [IncompatibleNoParameterSignature] otherwise; which value the knob
    has, and the collectors, play no part. *)
Theorem wrap_without_parameter_type func pt0 unpack s pt :
  py_in unpack [py_True; py_False; py_None] = Ok true ->
  get_argspec func = Ok s -> to_type pt0 = Ok pt -> truthy pt = false ->
  wf_argspec s -> NoDup (args s) ->
  (∀ name, name ∈ args s -> not_a_collector s name) ->
  wrap_as_zero_or_one_arg_callable func pt0 unpack
  = if bool_decide (first_default s = 0%nat) then Ok (NoArgCall func)
    else Raise (TypeError IncompatibleNoParameterSignature).
Proof.
  intros Hin Hs Hpt Htruthy Hwf Hnd Hcol.
  rewrite (wrap_no_parameter func pt0 unpack s pt Hin Hs Hpt Htruthy).
  by rewrite (is_compatible_no_arguments s Hwf Hnd Hcol).
Qed.

Lemma compute_unpack_possible_tuple s pt els :
  elements_of pt els -> elements_in_order els = true ->
  compute_unpack_possible s pt
  = (c ← spread_into_is_argspec_compatible_with_types s (positional_values els)
           (dict_from ∅ (named_items els));
     Ok (c, Some (positional_values els, dict_from ∅ (named_items els)))).
Proof.
  intros Hels Hord. unfold compute_unpack_possible.
  rewrite (is_argument_tuple_elements pt els Hels), Hord. simpl.
  by rewrite (unpack_args_from_tuple_elements pt els Hels).
Qed.

Lemma compute_unpack_possible_not_a_tuple s pt :
  not_a_tuple pt -> compute_unpack_possible s pt = Ok (false, None).
Proof.
  intros Hnot. unfold compute_unpack_possible.
  by rewrite (is_argument_tuple_not_a_tuple pt Hnot).
Qed.

(** X9. A function with two names or more and no default, given as parameter
    type a tuple of as many unnamed elements: a single argument cannot bind,
    the elements can, and the function returns the adapter that unpacks into
    the element types, unless unpacking was forbidden, which fails with
    [CannotAcceptAsSingleArgument]. *)
Theorem wrap_unnamed_tuple func pt0 unpack s pt els :
  get_argspec func = Ok s -> to_type pt0 = Ok pt -> truthy pt = true ->
  seq_truthy (defaults s) = false ->
  (2 <= length (args s))%nat ->
  elements_of pt els ->
  Forall (fun e => named e = false) els ->
  length els = length (args s) ->
  wrap_as_zero_or_one_arg_callable func pt0 (knob unpack)
  = match unpack with
    | Some false => Raise (TypeError CannotAcceptAsSingleArgument)
    | _ => Ok (UnpackAndCall func els.*2 ∅)
    end.
Proof.
  intros Hs Hpt Htruthy Hds Hlen Hels Hun Hn.
  assert (Hdef : default [] (defaults s) = []).
  { by destruct (defaults s) as [[|d ds]|]. }
  assert (Hwf : wf_argspec s).
  { unfold wf_argspec. rewrite Hdef. simpl. lia. }
  assert (Hfd : first_default s = length (args s)).
  { unfold first_default. rewrite Hdef. simpl. lia. }
  assert (Hsingle : is_argspec_compatible_with_types s [pt] ∅ = Ok false).
  { apply is_compatible_not_bound; [done |]. intros c Hc.
    destruct (get_callargs_ok_inv s [pt] ∅ c Hwf Hc) as (_ & Hall & _).
    destruct (lookup_lt_is_Some_2 (args s) 1) as [name Hname]; [lia |].
    destruct (Hall 1%nat name Hname) as [v Hv].
    unfold bound_from in Hv. simpl in Hv. rewrite lookup_empty in Hv.
    destruct Hv as [(? & _) | [(_ & ?) | (_ & _ & ? & _)]]; [lia | done | lia]. }
  assert (Hord : elements_in_order els = true).
  { rewrite <- (app_nil_r els). apply elements_in_order_app; [done | constructor]. }
  assert (Hmany : is_argspec_compatible_with_types s els.*2 ∅ = Ok true).
  { destruct (get_callargs_ok_intro s els.*2 ∅ Hwf) as [c Hc].
    - left. rewrite length_fmap. lia.
    - intros i name Hi.
      destruct (lookup_lt_is_Some_2 els.*2 i) as [v Hv].
      { rewrite length_fmap, Hn. by apply lookup_lt_Some in Hi. }
      exists v. left. split; [by apply lookup_lt_Some in Hv |].
      split; [done | apply lookup_empty].
    - right. intros k [v Hv]. by rewrite lookup_empty in Hv.
    - by apply (is_compatible_without_defaults s _ _ c). }
  assert (Hposs : compute_unpack_possible s pt = Ok (true, Some (els.*2, ∅))).
  { rewrite (compute_unpack_possible_tuple s pt els Hels Hord).
    rewrite (positional_values_unnamed els Hun), (named_items_unnamed els Hun).
    simpl. unfold spread_into_is_argspec_compatible_with_types.
    rewrite decide_False by (rewrite lookup_empty; by intros [? ?]).
    by rewrite Hmany. }
  rewrite (wrap_with_parameter_type func pt0 (knob unpack) s pt false
             (py_in_knob unpack) Hs Hpt Htruthy Hsingle).
  rewrite (resolve_unpack_knob func s pt unpack false true _ Hposs)
    by (by eexists).
  by destruct unpack as [[|]|].
Qed.

(** X10. A parameter type that is no tuple is never unpacked: when it binds
    as a single argument the function returns the adapter that passes it
    whole, unless unpacking was required, which fails with
    [CannotAcceptAsMultipleArguments]; when it does not bind, the function
    fails, with [CannotAcceptEitherForm] when the choice was left open. *)
Theorem wrap_not_a_tuple func pt0 unpack s pt (c1 : bool) :
  get_argspec func = Ok s -> to_type pt0 = Ok pt -> truthy pt = true ->
  not_a_tuple pt ->
  is_argspec_compatible_with_types s [pt] ∅ = Ok c1 ->
  wrap_as_zero_or_one_arg_callable func pt0 (knob unpack)
  = match unpack with
    | Some true => Raise (TypeError CannotAcceptAsMultipleArguments)
    | Some false =>
        if c1 then Ok (SingleCall func pt)
        else Raise (TypeError CannotAcceptAsSingleArgument)
    | None =>
        if c1 then Ok (SingleCall func pt)
        else Raise (TypeError CannotAcceptEitherForm)
    end.
Proof.
  intros Hs Hpt Htruthy Hnot Hc1.
  rewrite (wrap_with_parameter_type func pt0 (knob unpack) s pt c1
             (py_in_knob unpack) Hs Hpt Htruthy Hc1).
  rewrite (resolve_unpack_knob func s pt unpack c1 false None
             (compute_unpack_possible_not_a_tuple s pt Hnot)) by done.
  by destruct c1, unpack as [[|]|].
Qed.

(** X19. When the knob is [True], [False] or [None] itself, whatever adapter
    the function returns, the way of calling it stands for was found to bind:
    the adapter with no argument when the function binds with no argument,
    the adapter that passes its argument whole when the parameter type binds
    as one positional argument and unpacking was not required, the adapter
    that unpacks when the parameter type is an argument tuple whose split
    binds and unpacking was not forbidden; the adapter calls the function
    given and holds that split. *)
Theorem wrap_sound func pt0 unpack s ad :
  unpack ∈ [py_True; py_False; py_None] ->
  get_argspec func = Ok s ->
  wrap_as_zero_or_one_arg_callable func pt0 unpack = Ok ad ->
  ∃ pt, to_type pt0 = Ok pt
    ∧ match ad with
      | NoArgCall f =>
          f = func ∧ truthy pt = false
          ∧ is_argspec_compatible_with_types s [] ∅ = Ok true
      | SingleCall f parameter_type =>
          f = func ∧ parameter_type = pt ∧ truthy pt = true
          ∧ is_True unpack = false
          ∧ is_argspec_compatible_with_types s [pt] ∅ = Ok true
      | UnpackAndCall f arg_types kwarg_types =>
          f = func ∧ truthy pt = true
          ∧ is_False unpack = false
          ∧ is_argument_tuple pt = Ok true
          ∧ unpack_args_from_tuple pt = Ok (arg_types, kwarg_types)
          ∧ kwarg_types !! "argspec"%string = None
          ∧ is_argspec_compatible_with_types s arg_types kwarg_types = Ok true
      end.
Proof.
  intros Hin Hs. destruct (knob_elem_of unpack Hin) as [u ->].
  unfold wrap_as_zero_or_one_arg_callable. rewrite (py_in_knob u). simpl.
  rewrite Hs. simpl.
  destruct (to_type pt0) as [pt|err]; simpl; [| done].
  intros Hwrap. exists pt. split; [done |].
  rewrite knob_is_True, knob_is_False.
  destruct (truthy pt) eqn:Htruthy; simpl in Hwrap.
  - destruct (is_argspec_compatible_with_types s [pt] ∅) as [c1|err] eqn:Hc1;
      simpl in Hwrap; [| done].
    destruct (compute_unpack_possible s pt) as [[poss types]|err] eqn:Hposs.
    + destruct (compute_unpack_possible_is s pt poss types Hposs) as [_ Hty].
      rewrite (resolve_unpack_knob func s pt u c1 poss types Hposs) in Hwrap
        by (intros ->; destruct types; [by eexists | by destruct Hty]).
      destruct types as [[at_ kt]|]; simpl in Hty.
      * destruct Hty as (Htup & Hsplit & Hkt & Hc2).
        destruct c1, poss, u as [[|]|]; simpl in Hwrap; try done;
          injection Hwrap as <-; done.
      * destruct Hty as [_ ->].
        destruct c1, u as [[|]|]; simpl in Hwrap; try done;
          injection Hwrap as <-; done.
    + unfold resolve_unpack in Hwrap. rewrite Hposs in Hwrap.
      by destruct (negb c1 && is_False (knob u)).
  - destruct (is_argspec_compatible_with_types s [] ∅) as [[|]|err] eqn:Hc;
      simpl in Hwrap; [| done | done].
    by injection Hwrap as <-.
Qed.

Lemma get_argspec_message func m :
  get_argspec func = Raise (TypeError m) ->
  m = UnsupportedDefun ∨ m = UnsupportedCallableKind.
Proof.
  unfold get_argspec, getargspec.
  destruct (is_FunctionType func);
    [intros Hr; by apply run_no_message in Hr |].
  destruct (is_tf_function func);
    [intros Hr; by apply run_no_message in Hr |].
  destruct (is_defun func); intros [= <-]; [by left | by right].
Qed.

(** The test on the knob says no exactly when the knob is none of the three
    objects and [==] finds it equal to none of them. *)
Lemma py_in_expected_false unpack :
  py_in unpack [py_True; py_False; py_None] = Ok false
  ↔ (unpack ∉ [py_True; py_False; py_None])
    ∧ py_eq unpack py_True = Returns false
    ∧ py_eq unpack py_False = Returns false
    ∧ py_eq unpack py_None = Returns false.
Proof.
  simpl. split.
  - destruct (decide (unpack = py_True)) as [|H1]; [done |].
    destruct (py_eq unpack py_True) as [[|]|te txt]; simpl; [done | | done].
    destruct (decide (unpack = py_False)) as [|H2]; [done |].
    destruct (py_eq unpack py_False) as [[|]|te txt]; simpl; [done | | done].
    destruct (decide (unpack = py_None)) as [|H3]; [done |].
    destruct (py_eq unpack py_None) as [[|]|te txt]; simpl; [done | | done].
    intros _. split; [| done].
    intros Hin. apply elem_of_cons in Hin as [-> | Hin]; [done |].
    apply elem_of_cons in Hin as [-> | Hin]; [done |].
    by apply list_elem_of_singleton in Hin as ->.
  - intros (Hnot & -> & -> & ->). simpl.
    rewrite !decide_False; [done | | |]; intros ->; apply Hnot.
    + do 2 (apply elem_of_cons; right). apply elem_of_cons. by left.
    + apply elem_of_cons. right. apply elem_of_cons. by left.
    + apply elem_of_cons. by left.
Qed.

(** X20. The function fails with [UnexpectedUnpackValue] exactly when the
    knob is none of [True], [False], [None] and equal to none of them; it
    does so before it looks at the function or at the parameter type, and no
    later statement fails that way. *)
Theorem wrap_unexpected_unpack_value func pt0 unpack :
  wrap_as_zero_or_one_arg_callable func pt0 unpack
  = Raise (TypeError UnexpectedUnpackValue)
  ↔ (unpack ∉ [py_True; py_False; py_None])
    ∧ py_eq unpack py_True = Returns false
    ∧ py_eq unpack py_False = Returns false
    ∧ py_eq unpack py_None = Returns false.
Proof.
  rewrite <- py_in_expected_false. unfold wrap_as_zero_or_one_arg_callable.
  destruct (py_in unpack [py_True; py_False; py_None]) as [[|]|err] eqn:Hin;
    simpl; [| done |].
  - split; [| done]. intros Hwrap. exfalso.
    destruct (get_argspec func) as [s|err] eqn:Hs; simpl in Hwrap;
      [| injection Hwrap as ->;
         by destruct (get_argspec_message func _ Hs)].
    unfold to_type in Hwrap.
    destruct (types_to_type pt0) as [pt|te txt]; simpl in Hwrap; [| done].
    destruct (truthy pt); simpl in Hwrap.
    + destruct (is_argspec_compatible_with_types s [pt] ∅) as [c1|err] eqn:Hc1;
        simpl in Hwrap;
        [| injection Hwrap as ->; by apply is_compatible_no_message in Hc1].
      unfold resolve_unpack in Hwrap.
      destruct (negb c1 && is_False unpack); [done |].
      destruct (compute_unpack_possible s pt) as [[poss types]|err] eqn:Hposs;
        simpl in Hwrap;
        [| injection Hwrap as ->;
           by destruct (compute_unpack_possible_message s pt _ Hposs)].
      destruct (negb poss && is_True unpack); [done |].
      destruct (negb c1 && negb poss); [done |].
      destruct (negb (negb c1) && poss && is_None unpack); [done |].
      destruct (is_None unpack).
      * destruct (eqb (negb c1) poss); simpl in Hwrap; [| done].
        destruct (truthy (py_bool poss)); [by destruct types | done].
      * simpl in Hwrap. destruct (truthy unpack); [by destruct types | done].
    + destruct (is_argspec_compatible_with_types s [] ∅) as [[|]|err] eqn:Hc;
        simpl in Hwrap; [done | done |].
      injection Hwrap as ->. by apply is_compatible_no_message in Hc.
  - split; [| done]. intros [= ->].
    simpl in Hin.
    destruct (decide (unpack = py_True)); [done |].
    destruct (py_eq unpack py_True) as [[|]|te txt]; simpl in Hin; try done.
    destruct (decide (unpack = py_False)); [done |].
    destruct (py_eq unpack py_False) as [[|]|te txt]; simpl in Hin; try done.
    destruct (decide (unpack = py_None)); [done |].
    by destruct (py_eq unpack py_None) as [[|]|te txt].
Qed.

(** X21. A knob that passes the test by being equal to [True] or [False]
    without being the object itself (the integers [1] and [0] are) meets none
    of the identity tests of the table.  Only the row for neither form can
    fail; past it the truth value of the knob decides: when it is false the
    adapter passes its argument whole, also when the parameter type does not
    bind as one argument; when it is true the adapter unpacks into the split
    of the parameter type, also when the split does not bind, and on a
    parameter type that is no argument tuple the split was never assigned
    and reading it fails with [UnboundLocalError]. *)
Theorem wrap_unpack_equal_not_identical func pt0 unpack s pt
    (c1 unpack_possible : bool) :
  py_in unpack [py_True; py_False; py_None] = Ok true ->
  unpack ∉ [py_True; py_False; py_None] ->
  get_argspec func = Ok s -> to_type pt0 = Ok pt -> truthy pt = true ->
  is_argspec_compatible_with_types s [pt] ∅ = Ok c1 ->
  unpack_possible_is s pt unpack_possible ->
  (c1 = false -> unpack_possible = false ->
   wrap_as_zero_or_one_arg_callable func pt0 unpack
   = Raise (TypeError CannotAcceptEitherForm))
  ∧ (c1 = true ∨ unpack_possible = true ->
     if truthy unpack then
       (is_argument_tuple pt = Ok false ->
        wrap_as_zero_or_one_arg_callable func pt0 unpack
        = Raise UnboundLocalError)
       ∧ (∀ arg_types kwarg_types,
            is_argument_tuple pt = Ok true ->
            unpack_args_from_tuple pt = Ok (arg_types, kwarg_types) ->
            wrap_as_zero_or_one_arg_callable func pt0 unpack
            = Ok (UnpackAndCall func arg_types kwarg_types))
     else wrap_as_zero_or_one_arg_callable func pt0 unpack
          = Ok (SingleCall func pt)).
Proof.
  intros Hin Hnot Hs Hpt Htruthy Hc1 His.
  assert (HT : is_True unpack = false).
  { apply bool_decide_eq_false. intros ->. apply Hnot. apply elem_of_cons. by left. }
  assert (HF : is_False unpack = false).
  { apply bool_decide_eq_false. intros ->. apply Hnot.
    apply elem_of_cons. right. apply elem_of_cons. by left. }
  assert (HN : is_None unpack = false).
  { apply bool_decide_eq_false. intros ->. apply Hnot.
    do 2 (apply elem_of_cons; right). apply elem_of_cons. by left. }
  destruct (unpack_possible_is_compute s pt unpack_possible His)
    as (types & Hposs & Htypes).
  destruct (compute_unpack_possible_is s pt unpack_possible types Hposs)
    as [_ Hty].
  rewrite (wrap_with_parameter_type func pt0 unpack s pt c1 Hin Hs Hpt Htruthy Hc1).
  unfold resolve_unpack. rewrite HT, HF, HN, Hposs. simpl.
  rewrite !andb_false_r. simpl.
  split.
  - by intros -> ->.
  - intros Hone.
    assert (negb c1 && negb unpack_possible = false) as ->
      by (destruct Hone as [-> | ->]; [done | by rewrite andb_false_r]).
    destruct (truthy unpack); [| done].
    destruct types as [ty|]; simpl in Hty.
    + destruct Hty as (Htup & Hsplit & _). split.
      * intros Hno. rewrite Htup in Hno. discriminate.
      * intros at_ kt _ Hsplit'. rewrite Hsplit in Hsplit'.
        by injection Hsplit' as ->.
    + destruct Hty as [Htup _]. split; [done |].
      intros at_ kt Hyes. rewrite Htup in Hyes. discriminate.
Qed.

End CompatibilityProperties.

Section TupleProperties.

Context `{RT : Runtime}.

Local Abbreviation element := (option string * obj)%type.

Implicit Types (els : list element) (a : list obj) (kw : gmap string obj).

(** ** pack_args_into_anonymous_tuple, then unpack_args_from_tuple *)

Lemma dict_from_app (k0 : gmap string obj) items1 items2 :
  dict_from k0 (items1 ++ items2) = dict_from (dict_from k0 items1) items2.
Proof. unfold dict_from. by rewrite foldl_app. Qed.

Lemma dict_from_list_to_map (items : list (string * obj)) :
  dict_from ∅ items = list_to_map (reverse items).
Proof.
  induction items as [|kv items IH] using rev_ind; [done |].
  rewrite dict_from_snoc, IH, reverse_app. by destruct kv.
Qed.

Lemma dict_from_iteritems kw : dict_from ∅ (iteritems kw) = kw.
Proof.
  rewrite dict_from_list_to_map.
  assert (Hperm : reverse (iteritems kw) ≡ₚ map_to_list kw).
  { by rewrite reverse_Permutation, iteritems_perm. }
  rewrite (list_to_map_proper _ (map_to_list kw)); [| | done].
  - apply list_to_map_to_list.
  - rewrite Hperm. apply NoDup_fst_map_to_list.
Qed.

Lemma named_items_of_items (items : list (string * obj)) :
  (∀ kv, kv ∈ items -> kv.1 ≠ ""%string) ->
  named_items (map (fun kv : string * obj => (Some kv.1, kv.2)) items) = items
  ∧ Forall (fun e : element => named e = true)
      (map (fun kv : string * obj => (Some kv.1, kv.2)) items).
Proof.
  induction items as [|[k v] items IH]; intros Hkeys; [by split |].
  destruct IH as [IH1 IH2].
  { intros kv Hin. apply Hkeys. by right. }
  assert (Hk : name_truthy (Some k) = true).
  { simpl. apply negb_true_iff, String.eqb_neq.
    apply (Hkeys (k, v)). by left. }
  split.
  - simpl map. rewrite named_items_cons, Hk. simpl. by rewrite IH1.
  - constructor; done.
Qed.

Lemma unnamed_of_values a :
  Forall (fun e : element => named e = false)
    (map (fun arg : obj => (None, arg)) a)
  ∧ (map (fun arg : obj => ((None, arg) : element)) a).*2 = a.
Proof.
  induction a as [|v a [IH1 IH2]]; [by split |].
  split; [by constructor | simpl; f_equal; exact IH2].
Qed.

(** X11. A tuple whose elements are those [pack_args_into_anonymous_tuple]
    builds from positional and keyword arguments, no keyword being the empty
    string, is an argument tuple, and [unpack_args_from_tuple] gives the
    positional and keyword arguments back. *)
Theorem pack_then_unpack x a kw :
  as_AnonymousTuple x = Some (packed_elements a kw) ->
  kw !! ""%string = None ->
  is_argument_tuple x = Ok true
  ∧ unpack_args_from_tuple x = Ok (a, kw).
Proof.
  intros Hx Hempty.
  assert (Hels : elements_of x (packed_elements a kw)) by by left.
  destruct (unnamed_of_values a) as [Hun Hvals].
  destruct (named_items_of_items (iteritems kw)) as [Hitems Hnamed].
  { intros [k v] Hin Hk. simpl in Hk. subst k.
    rewrite iteritems_perm in Hin. apply elem_of_map_to_list in Hin. congruence. }
  split.
  - rewrite (is_argument_tuple_elements x _ Hels). f_equal.
    by apply elements_in_order_app.
  - rewrite (unpack_args_from_tuple_elements x _ Hels). unfold packed_elements.
    rewrite positional_values_app, named_items_app.
    rewrite (positional_values_unnamed _ Hun), (positional_values_named _ Hnamed).
    rewrite (named_items_unnamed _ Hun), Hitems, Hvals, app_nil_r. simpl.
    by rewrite dict_from_iteritems.
Qed.

(** ** unpack_args_from_tuple on names that occur more than once *)

Lemma dict_from_lookup_notin (k0 : gmap string obj) items key :
  key ∉ items.*1 -> dict_from k0 items !! key = k0 !! key.
Proof.
  revert k0. induction items as [|[n v] items IH]; intros k0 Hnot; [done |].
  apply not_elem_of_cons in Hnot as [Hne Hnot]. simpl in Hne. simpl.
  rewrite (IH _ Hnot). by rewrite lookup_insert_ne.
Qed.

Lemma dict_from_lookup_Some (k0 : gmap string obj) items key v :
  dict_from k0 items !! key = Some v ->
  k0 !! key = Some v ∨ (key, v) ∈ items.
Proof.
  revert k0. induction items as [|[n w] items IH]; intros k0; [by left |].
  simpl. intros [Hk | Hin]%IH; [| right; by right].
  rewrite lookup_insert in Hk. case_decide as Hn; [| by left].
  injection Hk as <-. subst. right. by left.
Qed.

Lemma named_items_elem_of els key v :
  (key, v) ∈ named_items els ->
  (Some key, v) ∈ els ∧ key ≠ ""%string.
Proof.
  induction els as [|[n w] els IH]; [by intros ?%elem_of_nil |].
  rewrite named_items_cons.
  assert (Hrest : (key, v) ∈ named_items els ->
                  (Some key, v) ∈ (n, w) :: els ∧ key ≠ ""%string).
  { intros [? ?]%IH. split; [by right | done]. }
  destruct n as [name|]; [| done].
  destruct (name_truthy (Some name)) eqn:Hname; [| done].
  intros [[= -> ->] | Hin]%elem_of_cons; [| by apply Hrest].
  split; [by left |]. simpl in Hname.
  by apply String.eqb_neq, negb_true_iff.
Qed.

Lemma named_items_key_elem_of els key :
  key ∈ (named_items els).*1 -> ∃ e, e ∈ els ∧ e.1 = Some key.
Proof.
  intros ([k v] & -> & Hin)%list_elem_of_fmap.
  apply named_items_elem_of in Hin as [Hin _]. by exists (Some k, v).
Qed.

(** X12. The mapping [unpack_args_from_tuple] returns holds only named
    elements of the tuple, and for a name borne by several elements it holds
    the value of the last of them. *)
Theorem unpack_last_wins x els :
  elements_of x els ->
  ∃ a kwargs,
    unpack_args_from_tuple x = Ok (a, kwargs)
    ∧ (∀ key v, kwargs !! key = Some v ->
                (Some key, v) ∈ els ∧ key ≠ ""%string)
    ∧ (∀ pre name v post,
         els = pre ++ (Some name, v) :: post -> name ≠ ""%string ->
         (∀ e, e ∈ post -> e.1 ≠ Some name) ->
         kwargs !! name = Some v).
Proof.
  intros Hels. eexists _, _.
  split; [by apply unpack_args_from_tuple_elements |]. split.
  - intros key v [Hk | Hin]%dict_from_lookup_Some;
      [by rewrite lookup_empty in Hk | by apply named_items_elem_of].
  - intros pre name v post -> Hname Hlast.
    rewrite named_items_app, named_items_cons.
    assert (name_truthy (Some name) = true) as ->.
    { simpl. by apply negb_true_iff, String.eqb_neq. }
    rewrite dict_from_app. simpl.
    rewrite dict_from_lookup_notin; [by rewrite lookup_insert_eq |].
    intros (e & Hin & He)%named_items_key_elem_of. by apply (Hlast e).
Qed.

(** ** get_argspec *)

(** X13. [get_argspec] raises a [TypeError] of its own only on what is neither
    a Python function nor one of the two defun classes, and then it is the
    one that asks for a function or a defun: the branch for defuns that are
    not supported yet is never taken. *)
Theorem get_argspec_type_error func (m : message) :
  get_argspec func = Raise (TypeError m)
  ↔ m = UnsupportedCallableKind
    ∧ is_FunctionType func = false ∧ is_defun func = false.
Proof.
  unfold get_argspec, is_defun, getargspec.
  destruct (is_FunctionType func).
  - destruct (inspect_getargspec func); simpl;
      (split; [done | by intros (_ & ? & _)]).
  - destruct (is_tf_function func).
    + destruct (inspect_getargspec (defun_func func)); simpl;
        (split; [done | by intros (_ & _ & ?)]).
    + split; [by intros [= <-] | by intros (-> & _)].
Qed.

End TupleProperties.

Section AdapterProperties.

Context `{RT : Runtime}.

Variable tuple_getitem : obj -> nat -> collab obj.
Variable tuple_getattr : obj -> string -> collab obj.

Implicit Types (tys a vs : list obj) (kt kwargs : gmap string obj).

Local Abbreviation positional_loop := (check_positional tuple_getitem).
Local Abbreviation keyword_loop := (check_keywords tuple_getattr).
Local Abbreviation unpack_and_call :=
  (_unpack_and_call tuple_getitem tuple_getattr).

(** ** The bodies of the adapters *)

Lemma check_positional_ok arg tys idx acc a :
  positional_loop arg idx tys acc = Ok a ->
  ∃ vs, a = acc ++ vs ∧ length vs = length tys
        ∧ ∀ i t, tys !! i = Some t ->
            ∃ v, vs !! i = Some v
                 ∧ admitted_value t (tuple_getitem arg (idx + i)) v.
Proof.
  revert idx acc. induction tys as [|t0 tys IH]; intros idx acc; simpl.
  - intros [= <-]. exists []. rewrite app_nil_r. split; [done |].
    split; [done |]. intros i t Hi. by rewrite lookup_nil in Hi.
  - destruct (tuple_getitem arg idx) as [v0|te text] eqn:Hget; simpl; [| done].
    destruct (infer_type v0) as [ty|err] eqn:Hty; simpl; [| done].
    destruct (is_assignable_from t0 ty) as [[|]|err] eqn:Has; simpl;
      [| done | done].
    intros (vs & -> & Hlen & Hall)%IH. exists (v0 :: vs).
    rewrite <- app_assoc. split; [done |]. split; [simpl; lia |].
    intros [|i] t Hi; simpl in Hi.
    + injection Hi as <-. exists v0. split; [done |].
      rewrite Nat.add_0_r. split; [done | by exists ty].
    + destruct (Hall i t Hi) as (v & Hv & Hadm). exists v. split; [done |].
      by replace (idx + S i)%nat with (S idx + i)%nat by lia.
Qed.

(** The loop over the positional types stops at the first element whose
    type is refused. *)
Lemma check_positional_mismatch arg pre t post idx acc v ty :
  (∀ i t', pre !! i = Some t' ->
           ∃ v', admitted_value t' (tuple_getitem arg (idx + i)) v') ->
  tuple_getitem arg (idx + length pre) = Returns v ->
  infer_type v = Ok ty -> is_assignable_from t ty = Ok false ->
  positional_loop arg idx (pre ++ t :: post) acc
  = Raise (TypeError (TypeMismatchAt (idx + length pre))).
Proof.
  revert idx acc. induction pre as [|t0 pre IH]; intros idx acc Hpre Hget Hty Has.
  - simpl in *. rewrite Nat.add_0_r in *. rewrite Hget. simpl.
    rewrite Hty. simpl. by rewrite Has.
  - destruct (Hpre 0%nat t0 eq_refl) as (v0 & Hget0 & ty0 & Hty0 & Has0).
    rewrite Nat.add_0_r in Hget0. simpl. rewrite Hget0. simpl.
    rewrite Hty0. simpl. rewrite Has0. simpl.
    replace (idx + S (length pre))%nat with (S idx + length pre)%nat by lia.
    apply IH; try done.
    + intros i t' Hi.
      replace (S idx + i)%nat with (idx + S i)%nat by lia. by apply Hpre.
    + by replace (S idx + length pre)%nat with (idx + S (length pre))%nat by lia.
Qed.

Lemma check_keywords_ok arg items (acc kwargs : gmap string obj) :
  keyword_loop arg items acc = Ok kwargs ->
  (∀ name, name ∉ items.*1 -> kwargs !! name = acc !! name)
  ∧ ∀ name t, (name, t) ∈ items ->
      ∃ v, kwargs !! name = Some v
           ∧ admitted_value t (tuple_getattr arg name) v.
Proof.
  revert acc. induction items as [|[n t0] items IH]; intros acc; simpl.
  - intros [= <-]. split; [done |]. by intros name t ?%elem_of_nil.
  - destruct (tuple_getattr arg n) as [v0|te text] eqn:Hget; simpl; [| done].
    destruct (infer_type v0) as [ty|err] eqn:Hty; simpl; [| done].
    destruct (is_assignable_from t0 ty) as [[|]|err] eqn:Has; simpl;
      [| done | done].
    intros [Hout Hin]%IH. split.
    + intros name [Hne Hnot]%not_elem_of_cons. simpl in Hne.
      by rewrite (Hout name Hnot), lookup_insert_ne.
    + intros name t [[= -> ->] | Hrest]%elem_of_cons; [| by apply Hin].
      exists v0. split; [| split; [done | by exists ty]].
      destruct (decide (n ∈ items.*1)) as [Hn | Hn].
      * apply list_elem_of_fmap in Hn as ([n' t'] & -> & Hin').
        destruct (Hin _ _ Hin') as (v' & Hv' & Hget' & _). simpl in *.
        congruence.
      * by rewrite (Hout n Hn), lookup_insert_eq.
Qed.

(** X14. The two adapters test before they call.  The adapter that unpacks
    either fails in a way that does not depend on the function, or calls it
    once on one value per positional type, the element at that index, and
    one keyword per keyword type, the member of that name, each of a type the
    expected type is assignable from.  The adapter that passes its argument
    whole either fails in a way that does not depend on the function, or
    calls it on the argument alone, whose type the parameter type is
    assignable from. *)
Theorem adapters_test_before_calling tys kt parameter_type arg :
  ((∃ a kwargs,
      (∀ func, unpack_and_call func tys kt arg = call func a kwargs)
      ∧ is_Some (as_AnonymousTuple arg)
      ∧ length a = length tys
      ∧ (∀ i t, tys !! i = Some t ->
           ∃ v, a !! i = Some v ∧ admitted_value t (tuple_getitem arg i) v)
      ∧ (∀ name, kwargs !! name = None ↔ kt !! name = None)
      ∧ (∀ name t, kt !! name = Some t ->
           ∃ v, kwargs !! name = Some v
                ∧ admitted_value t (tuple_getattr arg name) v))
   ∨ ∃ err, ∀ func, unpack_and_call func tys kt arg = Raise err)
  ∧ ((∃ ty, infer_type arg = Ok ty
            ∧ is_assignable_from parameter_type ty = Ok true
            ∧ ∀ func, _call func parameter_type arg = call func [arg] ∅)
     ∨ ∃ err, ∀ func, _call func parameter_type arg = Raise err).
Proof.
  split.
  - unfold _unpack_and_call.
    destruct (as_AnonymousTuple arg) as [els|] eqn:Hels; [| right; by eexists].
    destruct (positional_loop arg 0 tys []) as [a|err] eqn:Hpos;
      [| right; by eexists].
    destruct (keyword_loop arg (iteritems kt) ∅) as [kwargs|err] eqn:Hkw;
      [| right; by eexists].
    left. exists a, kwargs. split; [done |]. split; [by eexists |].
    apply check_positional_ok in Hpos as (vs & -> & Hlen & Hall).
    apply check_keywords_ok in Hkw as [Hout Hin].
    split; [done |]. split; [exact Hall |].
    assert (Hitems : ∀ name t, (name, t) ∈ iteritems kt ↔ kt !! name = Some t).
    { intros name t. rewrite iteritems_perm. apply elem_of_map_to_list. }
    split.
    + intros name. split.
      * intros Hnone. destruct (kt !! name) as [t|] eqn:Hkt; [| done].
        destruct (Hin name t) as (v & Hv & _); [by apply Hitems | congruence].
      * intros Hnone. rewrite Hout; [apply lookup_empty |].
        intros ([n t] & -> & Hin')%list_elem_of_fmap.
        apply Hitems in Hin'. simpl in Hnone. congruence.
    + intros name t Hkt. apply Hin. by apply Hitems.
  - unfold _call.
    destruct (infer_type arg) as [ty|err] eqn:Hty; [| right; by eexists].
    simpl.
    destruct (is_assignable_from parameter_type ty) as [[|]|err] eqn:Has.
    + left. exists ty. split; [done |]. split; [done |].
      intros func. by rewrite ?Has.
    + right. eexists. intros func. by rewrite ?Has.
    + right. eexists. intros func. by rewrite ?Has.
Qed.

(** X15. The adapter that unpacks refuses what is no anonymous tuple, and on
    a tuple it fails with [TypeMismatch] for the first position whose element
    has a type the expected type is not assignable from, whatever the keyword
    types are. *)
Theorem unpack_and_call_first_mismatch func tys kt arg :
  (as_AnonymousTuple arg = None ->
   unpack_and_call func tys kt arg = Raise (TypeError ExpectedAnonymousTuple))
  ∧ (∀ pre t post v ty,
       is_Some (as_AnonymousTuple arg) ->
       tys = pre ++ t :: post ->
       (∀ i t', pre !! i = Some t' ->
                ∃ v', admitted_value t' (tuple_getitem arg i) v') ->
       tuple_getitem arg (length pre) = Returns v ->
       infer_type v = Ok ty -> is_assignable_from t ty = Ok false ->
       unpack_and_call func tys kt arg
       = Raise (TypeError (TypeMismatchAt (length pre)))).
Proof.
  unfold _unpack_and_call. split.
  - by intros ->.
  - intros pre t post v ty [els ->] -> Hpre Hget Hty Has.
    by rewrite (check_positional_mismatch arg pre t post 0 [] v ty).
Qed.

End AdapterProperties.

Section DispatchProperties.

Context `{RT : Runtime}.

Implicit Types (self : PolymorphicFunction) (a : list obj)
  (kw : gmap string obj).

(** ** PolymorphicFunction, call after call *)

(** X16. Whatever a call does, it leaves the factory as it is, removes no
    entry of the cache, and leaves every entry that is true as it is: a type
    once specialized is not specialized again. *)
Theorem cache_only_grows self a kw :
  let self' := (PolymorphicFunction_call self a kw).1.1 in
  _concrete_function_factory self' = _concrete_function_factory self
  ∧ (∀ key fn, _concrete_function_cache self !! key = Some fn ->
               truthy fn = true ->
               _concrete_function_cache self' !! key = Some fn)
  ∧ (∀ key, is_Some (_concrete_function_cache self !! key) ->
            is_Some (_concrete_function_cache self' !! key)).
Proof.
  unfold PolymorphicFunction_call.
  destruct (packed_arg ← pack_args_into_anonymous_tuple a kw;
            arg_type ← infer_type packed_arg;
            key ← repr arg_type; Ok (arg_type, key)) as [[t key]|err];
    [| by repeat split].
  destruct (truthy (default py_None (_concrete_function_cache self !! key)))
    eqn:Hhit; simpl; [by repeat split |].
  destruct (call (_concrete_function_factory self) [t] ∅) as [fn|err];
    simpl; [| by repeat split].
  split; [done |]. split.
  - intros key' fn' Hfn' Htruthy. rewrite lookup_insert.
    case_decide as Hk; [| done]. subst key'.
    rewrite Hfn' in Hhit. simpl in Hhit. congruence.
  - intros key' Hsome. rewrite lookup_insert. by case_decide.
Qed.

(** X17. A call that fails before its function is found leaves the object as
    it was: when packing, inferring the type or [repr] raises, nothing is
    invoked; when the factory raises, it was invoked once and nothing is
    stored.  The exception is the outcome of the call. *)
Theorem failed_call_stores_nothing self a kw :
  (∀ err : exn,
     (packed_arg ← pack_args_into_anonymous_tuple a kw;
      arg_type ← infer_type packed_arg;
      repr arg_type) = Raise err ->
     PolymorphicFunction_call self a kw = (self, [], Raise err))
  ∧ (∀ t key (err : exn),
       dispatch_key a kw t key ->
       truthy (default py_None (_concrete_function_cache self !! key)) = false ->
       call (_concrete_function_factory self) [t] ∅ = Raise err ->
       PolymorphicFunction_call self a kw
       = (self, [FactoryInvoked t], Raise err)).
Proof.
  split.
  - intros err. unfold PolymorphicFunction_call.
    destruct (pack_args_into_anonymous_tuple a kw) as [packed|e1]; simpl;
      [| by intros [= <-]].
    destruct (infer_type packed) as [t|e2]; simpl; [| by intros [= <-]].
    destruct (repr t) as [key|e3]; simpl; [done | by intros [= <-]].
  - intros t key err Hkey Hmiss Herr.
    rewrite (PolymorphicFunction_call_unfold self a kw t key Hkey).
    simpl. rewrite Hmiss. simpl. by rewrite Herr.
Qed.

Lemma keys_none (D : gset string) :
  (list_to_set [] : gset string) ∖ D = ∅ ∧ D ∪ (list_to_set [] : gset string) = D.
Proof. set_solver. Qed.

Lemma keys_seen (k : string) (L D : gset string) :
  k ∈ D -> ({[k]} ∪ L) ∖ D = L ∖ D ∧ D ∪ ({[k]} ∪ L) = D ∪ L.
Proof. set_solver. Qed.

Lemma keys_new (k : string) (L D : gset string) :
  k ∉ D ->
  ({[k]} ∪ L) ∖ D = {[k]} ∪ (L ∖ ({[k]} ∪ D))
  ∧ {[k]} ## L ∖ ({[k]} ∪ D)
  ∧ ({[k]} ∪ D) ∪ L = D ∪ ({[k]} ∪ L).
Proof.
  intros Hk. split; [| split].
  - apply set_eq. intros x. destruct (decide (x = k)); set_solver.
  - set_solver.
  - set_solver.
Qed.

(** X18. Over calls made one after the other, on an object whose entries
    are true and with a factory that returns an object that is true for each
    type met, the factory is invoked once for each distinct key that had no
    entry at the start, and the cache ends with these keys added. *)
Theorem calls_memoize self calls (keys : list string) :
  (∀ key fn, _concrete_function_cache self !! key = Some fn ->
             truthy fn = true) ->
  Forall2 (fun (c : list obj * gmap string obj) key =>
             ∃ t fn, dispatch_key c.1 c.2 t key
                     ∧ call (_concrete_function_factory self) [t] ∅ = Ok fn
                     ∧ truthy fn = true) calls keys ->
  let r := PolymorphicFunction_calls self calls in
  factory_invocations r.2
  = size (list_to_set keys ∖ dom (_concrete_function_cache self) : gset string)
  ∧ dom (_concrete_function_cache r.1)
    = dom (_concrete_function_cache self) ∪ (list_to_set keys : gset string)
  ∧ (∀ key fn, _concrete_function_cache r.1 !! key = Some fn ->
               truthy fn = true).
Proof.
  intros Htrue Hcalls. revert self Htrue Hcalls.
  induction calls as [|c calls IH] in keys |- *; intros self Htrue Hcalls.
  - apply Forall2_nil_inv_l in Hcalls as ->. simpl.
    split; [| split; [| done]].
    + by rewrite (proj1 (keys_none _)), size_empty.
    + by rewrite (proj2 (keys_none _)).
  - apply Forall2_cons_inv_l in Hcalls
      as (key & keys' & (t & fn & Hkey & Hfn & Hfntrue) & Hrest & ->).
    cbn [PolymorphicFunction_calls fst snd]. rewrite factory_invocations_app.
    rewrite list_to_set_cons.
    destruct (_concrete_function_cache self !! key) as [fn0|] eqn:Hentry.
    + rewrite (PolymorphicFunction_call_hit self c.1 c.2 t key fn0 Hkey Hentry)
        by (by apply (Htrue key)).
      cbn [fst snd factory_invocations].
      destruct (IH keys' self Htrue Hrest) as (Hcount & Hdom & Htrue').
      assert (Hin : key ∈ dom (_concrete_function_cache self)).
      { apply elem_of_dom. by eexists. }
      destruct (keys_seen key (list_to_set keys') _ Hin) as [Hdiff Hunion].
      split; [| split; [| done]].
      * by rewrite Hcount, Hdiff.
      * by rewrite Hdom, Hunion.
    + destruct (PolymorphicFunction_call_miss self c.1 c.2 t key Hkey)
        as [_ Hstate].
      { rewrite Hentry. apply truthy_None. }
      rewrite (Hstate fn Hfn). cbn [fst snd factory_invocations].
      set (self1 := mkPolymorphicFunction (_concrete_function_factory self)
                      (<[key := fn]> (_concrete_function_cache self))).
      destruct (IH keys' self1) as (Hcount & Hdom & Htrue').
      { intros key' fn'. subst self1. simpl. rewrite lookup_insert.
        case_decide; [by intros [= <-] | apply Htrue]. }
      { done. }
      assert (Hnot : key ∉ dom (_concrete_function_cache self)).
      { by apply not_elem_of_dom. }
      subst self1. simpl in *. rewrite dom_insert_L in Hcount, Hdom.
      destruct (keys_new key (list_to_set keys') _ Hnot)
        as (Hdiff & Hdisj & Hunion).
      split; [| split; [| done]].
      * by rewrite Hcount, Hdiff, (size_union _ _ Hdisj), size_singleton.
      * by rewrite Hdom, Hunion.
Qed.

End DispatchProperties.

(** * Runs on the small runtime *)

Import Demo.

Local Open Scope string_scope.
Local Open Scope list_scope.

Lemma is_argument_tuple_order_witness :
  is_argument_tuple (DNamedTupleType 2) = Ok false
  ∧ is_argument_tuple (DAnonymousTuple 0) = Ok true
  ∧ is_argument_tuple (DNamedTupleType 6) = Ok true.
Proof.
  split; [| split].
  - destruct (is_argument_tuple_order (RT := runtime) (DNamedTupleType 2)
                [(Some "a", int32); (None, bool_)]) as (Hfalse & _).
    + right. split; [reflexivity |].
      exists (DNamedTupleType 2). split; reflexivity.
    + apply Hfalse. exists 0%nat, 1%nat, (Some "a", int32), (None, bool_).
      repeat split. lia.
  - destruct (is_argument_tuple_order (RT := runtime) (DAnonymousTuple 0)
                [(None, DInt 1); (None, DInt 2)]) as (_ & Hunnamed & _).
    + left. reflexivity.
    + apply Hunnamed. repeat constructor.
  - destruct (is_argument_tuple_order (RT := runtime) (DNamedTupleType 6)
                [(None, int32); (Some "b", bool_)]) as (_ & _ & _ & Hsplit & _).
    + right. split; [reflexivity |].
      exists (DNamedTupleType 6). split; reflexivity.
    + apply (Hsplit [(None, int32)] [(Some "b", bool_)]);
        [reflexivity | repeat constructor | repeat constructor].
Defined.

(** The tuple [(""=1, 2)]: an element that has a name, the empty string,
    stands before one that has none, and [is_argument_tuple] is true.  The
    tuple [(a=1, ""=2)]: every element has a name, and [is_argument_tuple] is
    false. *)
Lemma is_argument_tuple_empty_name_counterexample :
  as_AnonymousTuple (DAnonymousTuple 8)
  = Some [(Some "", DInt 1); (None, DInt 2)]
  ∧ is_argument_tuple (DAnonymousTuple 8) = Ok true
  ∧ as_AnonymousTuple (DAnonymousTuple 3)
    = Some [(Some "a", DInt 1); (Some "", DInt 2)]
  ∧ is_argument_tuple (DAnonymousTuple 3) = Ok false.
Proof. repeat split. Qed.

(** The tuple [(a=1, ""=2)]: the element with the empty name stands after a
    named one, and [is_argument_tuple] is false; on [(a=1)] alone it is
    true. *)
Lemma empty_name_after_named_counterexample :
  as_AnonymousTuple (DAnonymousTuple 3)
  = Some [(Some "a", DInt 1); (Some "", DInt 2)]
  ∧ is_argument_tuple (DAnonymousTuple 3) = Ok false
  ∧ as_AnonymousTuple (DAnonymousTuple 7) = Some [(Some "a", DInt 1)]
  ∧ is_argument_tuple (DAnonymousTuple 7) = Ok true.
Proof. repeat split. Qed.

Lemma empty_name_is_unnamed_witness :
  named (Some "", DInt 2) = false
  ∧ (∀ i e1, (i < 1)%nat ->
       [(Some "a", DInt 1); (Some "", DInt 2)] !! i = Some e1 ->
       named e1 = true ->
       is_argument_tuple (DAnonymousTuple 3) = Ok false)
  ∧ ∃ a kwargs, unpack_args_from_tuple (DAnonymousTuple 3) = Ok (a, kwargs)
                ∧ DInt 2 ∈ a ∧ kwargs !! "" = None.
Proof.
  apply (empty_name_is_unnamed (RT := runtime) (DAnonymousTuple 3)
           [(Some "a", DInt 1); (Some "", DInt 2)] 1 (DInt 2)).
  - left. reflexivity.
  - reflexivity.
Defined.

(** The type [<a=int32, bool>]: a named element before an unnamed one.
    [is_argument_tuple] is false and [unpack_args_from_tuple] returns the
    split. *)
Lemma unpack_out_of_order_counterexample :
  as_NamedTupleType (DNamedTupleType 2) = Some [(Some "a", int32); (None, bool_)]
  ∧ is_argument_tuple (DNamedTupleType 2) = Ok false
  ∧ unpack_args_from_tuple (DNamedTupleType 2)
    = Ok ([bool_], {["a" := int32]}).
Proof. repeat split. Qed.

Lemma unpack_args_from_tuple_unchecked_witness :
  unpack_args_from_tuple (DNamedTupleType 2)
  = Ok (positional_values [(Some "a", int32); (None, bool_)],
        dict_from ∅ (named_items [(Some "a", int32); (None, bool_)]))
  ∧ unpack_args_from_tuple (RT := runtime) int32
    = Raise (TypeError NotArgumentTuple).
Proof.
  split.
  - apply (unpack_args_from_tuple_unchecked (RT := runtime) (DNamedTupleType 2)).
    right. split; [reflexivity |].
    exists (DNamedTupleType 2). split; reflexivity.
  - apply (unpack_args_from_tuple_unchecked (RT := runtime) int32).
    split; [reflexivity |]. exists int32. split; reflexivity.
Defined.

(** The tuple [(b=1, a=2)]: [is_argument_tuple] is true; unpacked and packed
    again its elements come out as [(a=2, b=1)]. *)
Lemma unpack_then_pack_counterexample :
  as_AnonymousTuple (DAnonymousTuple 1)
  = Some [(Some "b", DInt 1); (Some "a", DInt 2)]
  ∧ is_argument_tuple (DAnonymousTuple 1) = Ok true
  ∧ repacked_elements (DAnonymousTuple 1)
    = Ok [(Some "a", DInt 2); (Some "b", DInt 1)].
Proof. repeat split. Qed.

Lemma unpack_then_pack_witness :
  ∃ U N kw,
    [(Some "b", DInt 1); (Some "a", DInt 2)] = U ++ N
    ∧ Forall (fun e => named e = false) U
    ∧ Forall (fun e => named e = true) N
    ∧ repacked_elements (DAnonymousTuple 1)
      = Ok (map (fun e => (None, e.2)) U ++ kw)
    ∧ kw ≡ₚ N.
Proof.
  apply (unpack_then_pack (RT := runtime) (DAnonymousTuple 1)).
  - left. reflexivity.
  - reflexivity.
  - apply (bool_decide_unpack _). vm_compute. exact I.
Defined.

(** C1. [f5(x=None, **q)] with the parameter type [<argspec=int32>] and the
    preference left to be inferred.  Both forms are feasible: the type binds
    to [x] as one positional argument, and it is an argument tuple whose
    split, the keyword [argspec], binds into the collector [q].  The function
    does not fail with [AmbiguousUnpackingChoice]: the call that spreads the
    split beside the parameter [argspec] gives that name twice, and the
    interpreter's [TypeError] for it is what the function raises. *)
Lemma infer_resolution_argspec_element :
  get_argspec (DFunction 5)
  = Ok (mkArgSpec ["x"] None (Some "q") (Some [DNone]))
  ∧ is_argspec_compatible_with_types
      (mkArgSpec ["x"] None (Some "q") (Some [DNone])) [DNamedTupleType 10] ∅
    = Ok true
  ∧ is_argument_tuple (DNamedTupleType 10) = Ok true
  ∧ unpack_args_from_tuple (DNamedTupleType 10)
    = Ok ([], {["argspec" := int32]})
  ∧ is_argspec_compatible_with_types
      (mkArgSpec ["x"] None (Some "q") (Some [DNone])) []
      {["argspec" := int32]}
    = Ok true
  ∧ wrap_as_zero_or_one_arg_callable (DFunction 5) (DNamedTupleType 10) DNone
    = Raise (TypeError (MultipleValuesForKeyword "argspec")).
Proof. repeat split. Qed.

(** [f3(x)] with the parameter type [<int32>]: the type binds to [x] as it
    is, and its one element binds to [x] as well.  With the parameter type
    [<int32, int32>] the type binds to [x] and its two elements do not: the
    argument is passed whole.  [f0(x, y)] with [<int32, int32>]: the type
    does not bind alone, its elements do, and the adapter unpacks. *)
Lemma infer_resolution_witness :
  wrap_as_zero_or_one_arg_callable (DFunction 3) (DNamedTupleType 4) DNone
  = Raise (TypeError AmbiguousUnpackingChoice)
  ∧ wrap_as_zero_or_one_arg_callable (DFunction 3) (DNamedTupleType 0) DNone
    = Ok (SingleCall (DFunction 3) (DNamedTupleType 0))
  ∧ ∃ u : bool,
      is_argspec_compatible_with_types f0_argspec [DNamedTupleType 0] ∅
      = Ok (negb u)
      ∧ unpack_possible_is f0_argspec (DNamedTupleType 0) u
      ∧ unpacks (UnpackAndCall (DFunction 0) [int32; int32] ∅) = u
      ∧ if u then ∃ arg_types kwarg_types,
               unpack_args_from_tuple (DNamedTupleType 0)
               = Ok (arg_types, kwarg_types)
               ∧ UnpackAndCall (DFunction 0) [int32; int32] ∅
                 = UnpackAndCall (DFunction 0) arg_types kwarg_types
        else UnpackAndCall (DFunction 0) [int32; int32] ∅
             = SingleCall (DFunction 0) (DNamedTupleType 0).
Proof.
  split; [| split].
  - apply (infer_resolution (RT := runtime) (DFunction 3) (DNamedTupleType 4)
             (mkArgSpec ["x"] None None None) (DNamedTupleType 4));
      [reflexivity | reflexivity | reflexivity |].
    split; [reflexivity |]. right. split; [reflexivity |].
    exists [int32], ∅. repeat split.
  - reflexivity.
  - apply (infer_resolution (RT := runtime) (DFunction 0) (DNamedTupleType 0)
             f0_argspec (DNamedTupleType 0));
      reflexivity.
Defined.

Lemma is_compatible_iff_defaults_admitted_witness :
  is_argspec_compatible_with_types f1_argspec [int32; bool_] ∅ = Ok false
  ∧ (is_argspec_compatible_with_types f1_argspec [int32; int32] ∅ = Ok true
     ↔ ∀ idx d name bound,
         [DInt 5] !! idx = Some d ->
         ["a"; "b"] !! (1 + idx)%nat = Some name ->
         (<["b" := int32]> (<["a" := int32]> ∅) : gmap string dobj) !! name
         = Some bound ->
         bound ≠ d -> d ≠ DNone ->
         default_admitted bound d).
Proof.
  split.
  - apply (proj2 (is_compatible_iff_defaults_admitted (RT := runtime))
             int32 bool_ (DInt 5) bool_ int32);
      [done | done | reflexivity | reflexivity | reflexivity].
  - apply (proj1 (is_compatible_iff_defaults_admitted (RT := runtime))
             f1_argspec [int32; int32] ∅
             (<["b" := int32]> (<["a" := int32]> ∅))).
    + unfold wf_argspec. simpl. lia.
    + reflexivity.
    + vm_compute. reflexivity.
Defined.

Lemma is_compatible_monotone_witness :
  is_argspec_compatible_with_types f1_argspec [int32] (<["b" := int32]> ∅)
  = Ok true.
Proof.
  apply (is_compatible_monotone (RT := runtime) f1_argspec [int32] ∅ "b" int32).
  - unfold wf_argspec. simpl. lia.
  - simpl. lia.
  - vm_compute. reflexivity.
  - reflexivity.
  - intros [|i]; simpl; [done | lia].
  - exists 1%nat. split; [reflexivity |]. vm_compute. lia.
  - intros [|idx] d; simpl; [| done].
    intros [= <-] _. exists int32, int32. repeat split.
Defined.

(** [f1(a, b=5)] on the types [int32] and the string ["x"], which is no type:
    [types.to_type] raises a [TypeError], and so does the function.  On
    [f0(x, y)] with one type, the binding fails and the function returns
    [False]. *)
Lemma is_compatible_raises_witness :
  is_argspec_compatible_with_types f1_argspec [int32; DStr "x"] ∅
  = Raise (Foreign true "Unable to interpret an argument as a type spec.")
  ∧ is_argspec_compatible_with_types f0_argspec [int32] ∅ = Ok false.
Proof.
  destruct (is_compatible_raises (RT := runtime)) as (Hbind & _ & Hloop & _).
  split.
  - apply (Hloop f1_argspec [int32; DStr "x"] ∅
             (<["b" := DStr "x"]> (<["a" := int32]> ∅))
             [] (DInt 5) [] "b" (DStr "x")).
    + unfold wf_argspec. simpl. lia.
    + vm_compute. reflexivity.
    + reflexivity.
    + intros j d' Hj. by rewrite lookup_nil in Hj.
    + done.
    + reflexivity.
    + vm_compute. reflexivity.
    + done.
    + reflexivity.
  - apply (Hbind f0_argspec [int32] ∅ (TypeError (MissingArgument "y"))).
    reflexivity.
Defined.

Lemma dispatch_key_seven :
  dispatch_key (RT := runtime) [DInt 7] ∅ (DNamedTupleType 4) "NamedTupleType#4".
Proof. exists (DAnonymousTuple 4). repeat split. Defined.

Lemma dispatch_key_seven_text :
  dispatch_key (RT := runtime) [DStr "seven"] ∅ (DNamedTupleType 8) "NamedTupleType#8".
Proof. exists (DAnonymousTuple 5). repeat split. Defined.

(** Two calls on [7] through a factory that returns [None], and two through a
    factory that raises: the inferred type is the same, and the factory is
    invoked twice. *)
Lemma polymorphic_dispatch_counterexample :
  (let r1 := PolymorphicFunction_call (PolymorphicFunction_init (DFactory 1))
               [DInt 7] ∅ in
   let r2 := PolymorphicFunction_call r1.1.1 [DInt 7] ∅ in
   r1.1.2 = [FactoryInvoked (DNamedTupleType 4); ConcreteInvoked DNone]
   ∧ r2.1.2 = [FactoryInvoked (DNamedTupleType 4); ConcreteInvoked DNone]
   ∧ factory_invocations (r1.1.2 ++ r2.1.2) = 2%nat)
  ∧ (let r1 := PolymorphicFunction_call (PolymorphicFunction_init (DFactory 2))
                 [DInt 7] ∅ in
     let r2 := PolymorphicFunction_call r1.1.1 [DInt 7] ∅ in
     r1.1.2 = [FactoryInvoked (DNamedTupleType 4)]
     ∧ r2.1.2 = [FactoryInvoked (DNamedTupleType 4)]
     ∧ factory_invocations (r1.1.2 ++ r2.1.2) = 2%nat).
Proof. cbv zeta. repeat split; vm_compute; reflexivity. Qed.

(** The types the small runtime infers, and their keys: no two of them have
    the same. *)
Lemma demo_inferred_types x t :
  infer_type (RT := runtime) x = Ok t ->
  t ∈ [bool_; int32; DTensorType "string"; DNamedTupleType 0;
       DNamedTupleType 1; DNamedTupleType 2; DNamedTupleType 3;
       DNamedTupleType 4; DNamedTupleType 5; DNamedTupleType 6;
       DNamedTupleType 7; DNamedTupleType 8; DNamedTupleType 9].
Proof.
  destruct x as [|b|n|str|dtype|n|n|n|n| |]; try discriminate.
  - intros [= <-]. set_solver.
  - intros [= <-]. set_solver.
  - intros [= <-]. set_solver.
  - do 9 (destruct n as [|n]; [vm_compute; try discriminate;
                                intros [= <-]; set_solver |]).
    discriminate.
Qed.

Lemma demo_canonical_keys : canonical_keys (RT := runtime).
Proof.
  intros x t Hx. exists (match d_repr t with Returns k => k | _ => "" end).
  apply demo_inferred_types in Hx. split.
  - by destruct t.
  - intros x' t' Hx' Hkey. apply demo_inferred_types in Hx'.
    repeat (apply elem_of_cons in Hx as [-> | Hx]);
      try (by apply elem_of_nil in Hx);
      repeat (apply elem_of_cons in Hx' as [-> | Hx']);
      try (by apply elem_of_nil in Hx');
      (reflexivity || (vm_compute in Hkey; discriminate)).
Qed.

Lemma inferred_type_seven :
  inferred_type (RT := runtime) [DInt 7] ∅ (DNamedTupleType 4).
Proof. exists (DAnonymousTuple 4). repeat split. Defined.

Lemma inferred_type_seven_text :
  inferred_type (RT := runtime) [DStr "seven"] ∅ (DNamedTupleType 8).
Proof. exists (DAnonymousTuple 5). repeat split. Defined.

(** Through a factory that returns the function [f3] for every type: [7]
    twice invokes it once, [7] and then the string twice; after a call on
    [7], the string has a type that is new and invokes the factory, and [7]
    has a type that was seen and invokes the entry. *)
Lemma polymorphic_dispatch_witness :
  (let r1 := PolymorphicFunction_call (PolymorphicFunction_init (DFactory 0))
               [DInt 7] ∅ in
   let r2 := PolymorphicFunction_call r1.1.1 [DInt 7] ∅ in
   factory_invocations (r1.1.2 ++ r2.1.2) = 1%nat)
  ∧ (let r1 := PolymorphicFunction_call (PolymorphicFunction_init (DFactory 0))
                 [DInt 7] ∅ in
     let r2 := PolymorphicFunction_call r1.1.1 [DStr "seven"] ∅ in
     factory_invocations (r1.1.2 ++ r2.1.2) = 2%nat)
  ∧ (let self := (PolymorphicFunction_calls
                    (PolymorphicFunction_init (DFactory 0)) [([DInt 7], ∅)]).1 in
     factory_invocations
       (PolymorphicFunction_call self [DStr "seven"] ∅).1.2 = 1%nat)
  ∧ (let self := (PolymorphicFunction_calls
                    (PolymorphicFunction_init (DFactory 0)) [([DInt 7], ∅)]).1 in
     ∃ fn', _concrete_function_cache self !! "NamedTupleType#4" = Some fn'
            ∧ PolymorphicFunction_call self [DInt 7] ∅
              = (self, [ConcreteInvoked fn'], call fn' [DInt 7] ∅)
            ∧ (canonical_keys -> fn' = DFunction 3)).
Proof.
  destruct (polymorphic_dispatch (RT := runtime))
    as (Hnew & Hseen & Hdistinct & Hsame).
  split; [| split; [| split]].
  - apply (Hsame (DFactory 0) [DInt 7] ∅ [DInt 7] ∅ (DNamedTupleType 4)
             "NamedTupleType#4" (DFunction 3));
      [exact dispatch_key_seven | exact dispatch_key_seven
      | reflexivity | reflexivity].
  - apply (Hdistinct (DFactory 0) [DInt 7] ∅ (DNamedTupleType 4)
             [DStr "seven"] ∅ (DNamedTupleType 8));
      [exact demo_canonical_keys | exact inferred_type_seven
      | exact inferred_type_seven_text | done].
  - apply (Hnew (DFactory 0) [([DInt 7], ∅)] [DStr "seven"] ∅
             (DNamedTupleType 8));
      [exact demo_canonical_keys | exact inferred_type_seven_text |].
    intros c Hc (packed & Hpack & Ht).
    apply list_elem_of_singleton in Hc as ->. simpl in Hpack.
    injection Hpack as <-. discriminate.
  - apply (Hseen (DFactory 0) [([DInt 7], ∅)] ([DInt 7], ∅) [DInt 7] ∅
             (DNamedTupleType 4) "NamedTupleType#4" (DFunction 3));
      [exact dispatch_key_seven | apply list_elem_of_singleton; reflexivity
      | exact inferred_type_seven | reflexivity | reflexivity].
Defined.

Lemma falsy_entry_is_a_miss_witness :
  let self1 := (PolymorphicFunction_call (RT := runtime)
                  (PolymorphicFunction_init (DFactory 1)) [DInt 7] ∅).1.1 in
  _concrete_function_cache self1 !! "NamedTupleType#4" = Some DNone
  ∧ ∀ a' kw', dispatch_key a' kw' (DNamedTupleType 4) "NamedTupleType#4" ->
      PolymorphicFunction_call self1 a' kw'
      = (self1, [FactoryInvoked (DNamedTupleType 4); ConcreteInvoked DNone],
         call DNone a' kw').
Proof.
  apply (falsy_entry_is_a_miss (RT := runtime)
           (PolymorphicFunction_init (RT := runtime) (DFactory 1)) [DInt 7] ∅
           (DNamedTupleType 4) "NamedTupleType#4" DNone);
    [exact dispatch_key_seven | reflexivity | reflexivity | reflexivity].
Defined.

(** ** Runs for the further properties *)

Lemma get_callargs_keys_witness :
  is_Some ((<["q" := DDict]> (<["p" := DTuple]> (<["b" := bool_]>
              (<["a" := int32]> ∅))) : gmap string dobj) !! "p")
  ↔ "p" ∈ ["a"; "b"]
    ∨ (Some "p" = Some "p" ∧ name_truthy (Some "p") = true)
    ∨ (Some "q" = Some "p" ∧ name_truthy (Some "p") = true).
Proof.
  apply (get_callargs_keys (RT := runtime) demo_collecting_argspec
           [int32; bool_; int32] (<["z" := bool_]> ∅)).
  vm_compute. reflexivity.
Defined.

Lemma get_callargs_binds_witness :
  ∃ v, bound_from f1_argspec [int32] ∅ 1 "b" v
       ∧ (<["b" := DInt 5]> (<["a" := int32]> ∅) : gmap string dobj) !! "b"
         = Some v
       ∧ ∀ v', bound_from f1_argspec [int32] ∅ 1 "b" v' -> v' = v.
Proof.
  apply (get_callargs_binds (RT := runtime) f1_argspec [int32] ∅).
  - unfold wf_argspec. simpl. lia.
  - apply (bool_decide_unpack _). vm_compute. exact I.
  - vm_compute. reflexivity.
  - reflexivity.
  - split; done.
Defined.

Lemma get_callargs_collects_witness :
  (∀ vn, Some "p" = Some vn -> name_truthy (Some vn) = true ->
         Some "q" ≠ Some vn ->
         (<["q" := DDict]> (<["p" := DTuple]> (<["b" := bool_]>
            (<["a" := int32]> ∅))) : gmap string dobj) !! vn
         = Some (tuple_of (drop 2 [int32; bool_; int32])))
  ∧ (∀ kn, Some "q" = Some kn -> name_truthy (Some kn) = true ->
           (<["q" := DDict]> (<["p" := DTuple]> (<["b" := bool_]>
              (<["a" := int32]> ∅))) : gmap string dobj) !! kn
           = Some (dict_of (filter (fun kv : string * dobj => kv.1 ∉ ["a"; "b"])
                              (<["z" := bool_]> ∅)))).
Proof.
  apply (get_callargs_collects (RT := runtime) demo_collecting_argspec
           [int32; bool_; int32] (<["z" := bool_]> ∅)).
  vm_compute. reflexivity.
Defined.

Lemma get_callargs_succeeds_iff_witness :
  (∃ c, get_callargs_for_argspec f1_argspec [int32] ∅ = Ok c)
  ↔ ((length [int32] <= length (args f1_argspec))%nat
     ∨ name_truthy (varargs f1_argspec) = true)
    ∧ (∀ i name, args f1_argspec !! i = Some name ->
                 ∃ v, bound_from f1_argspec [int32] ∅ i name v)
    ∧ (name_truthy (keywords f1_argspec) = true
       ∨ ∀ k, is_Some ((∅ : gmap string dobj) !! k) -> k ∈ args f1_argspec).
Proof.
  apply (get_callargs_succeeds_iff (RT := runtime) f1_argspec [int32] ∅).
  unfold wf_argspec. simpl. lia.
Defined.

Lemma get_callargs_failures_witness :
  ((TypeError (MissingArgument "y") = TypeError TooManyPositionalArguments
    ∧ (length (args f0_argspec) < length [int32])%nat
    ∧ name_truthy (varargs f0_argspec) = false)
   ∨ (∃ i name, TypeError (MissingArgument "y") = TypeError (DuplicateArgument name)
        ∧ args f0_argspec !! i = Some name ∧ (i < length [int32])%nat
        ∧ is_Some ((∅ : gmap string dobj) !! name))
   ∨ (∃ i name, TypeError (MissingArgument "y") = TypeError (MissingArgument name)
        ∧ args f0_argspec !! i = Some name ∧ (length [int32] <= i)%nat
        ∧ (∅ : gmap string dobj) !! name = None
        ∧ (i < first_default f0_argspec)%nat)
   ∨ (TypeError (MissingArgument "y") = TypeError UnexpectedKeywordArguments
      ∧ name_truthy (keywords f0_argspec) = false
      ∧ ∃ k, is_Some ((∅ : gmap string dobj) !! k) ∧ k ∉ args f0_argspec))
  ∧ is_argspec_compatible_with_types f0_argspec [int32] ∅ = Ok false.
Proof.
  apply (get_callargs_failures (RT := runtime) f0_argspec [int32] ∅).
  - unfold wf_argspec. simpl. lia.
  - vm_compute. reflexivity.
Defined.

Lemma get_callargs_duplicate_witness :
  get_callargs_for_argspec f1_argspec [int32; int32] (<["b" := bool_]> ∅)
  = Raise (TypeError (DuplicateArgument "b")).
Proof.
  apply (get_callargs_duplicate (RT := runtime) f1_argspec [int32; int32]
           (<["b" := bool_]> ∅) ["a"] "b" []).
  - unfold wf_argspec. simpl. lia.
  - reflexivity.
  - simpl. lia.
  - left. simpl. lia.
  - exists bool_. vm_compute. reflexivity.
  - intros n Hn. apply list_elem_of_singleton in Hn as ->. vm_compute. reflexivity.
Defined.

Lemma is_compatible_defaults_untouched_witness :
  is_argspec_compatible_with_types f1_argspec [DStr "not a type"] ∅ = Ok true.
Proof.
  apply (is_compatible_defaults_untouched (RT := runtime) f1_argspec
           [DStr "not a type"] ∅
           (<["b" := DInt 5]> (<["a" := DStr "not a type"]> ∅))).
  - unfold wf_argspec. simpl. lia.
  - apply (bool_decide_unpack _). vm_compute. exact I.
  - intros name _. split; done.
  - vm_compute. reflexivity.
  - intros [|j] d name; simpl; [| done].
    intros _ [= <-]. right. split; [lia | reflexivity].
Defined.

(** [f4] takes what it is given in its collector and [f1(a, b=5)] needs [a]:
    with no parameter type the first is wrapped and the second refused, be
    the knob [None], [True] or the integer [0]. *)
Lemma wrap_without_parameter_type_witness :
  wrap_as_zero_or_one_arg_callable (DFunction 4) DNone DNone
  = Ok (NoArgCall (DFunction 4))
  ∧ wrap_as_zero_or_one_arg_callable (DFunction 4) DNone (DInt 0)
    = Ok (NoArgCall (DFunction 4))
  ∧ wrap_as_zero_or_one_arg_callable (DFunction 1) DNone (DBool true)
    = Raise (TypeError IncompatibleNoParameterSignature).
Proof.
  split; [| split].
  - apply (wrap_without_parameter_type (RT := runtime) (DFunction 4) DNone DNone
             (mkArgSpec [] (Some "p") None None) DNone).
    + reflexivity.
    + reflexivity.
    + reflexivity.
    + reflexivity.
    + unfold wf_argspec. simpl. lia.
    + constructor.
    + intros name Hname. by apply elem_of_nil in Hname.
  - apply (wrap_without_parameter_type (RT := runtime) (DFunction 4) DNone
             (DInt 0) (mkArgSpec [] (Some "p") None None) DNone).
    + reflexivity.
    + reflexivity.
    + reflexivity.
    + reflexivity.
    + unfold wf_argspec. simpl. lia.
    + constructor.
    + intros name Hname. by apply elem_of_nil in Hname.
  - apply (wrap_without_parameter_type (RT := runtime) (DFunction 1) DNone
             (DBool true) f1_argspec DNone).
    + reflexivity.
    + reflexivity.
    + reflexivity.
    + reflexivity.
    + unfold wf_argspec. simpl. lia.
    + apply (bool_decide_unpack _). vm_compute. exact I.
    + intros name _. split; done.
Defined.

Lemma wrap_unnamed_tuple_witness :
  wrap_as_zero_or_one_arg_callable (DFunction 0) (DNamedTupleType 0) DNone
  = Ok (UnpackAndCall (DFunction 0) [int32; int32] ∅)
  ∧ wrap_as_zero_or_one_arg_callable (DFunction 0) (DNamedTupleType 0)
      (DBool false)
    = Raise (TypeError CannotAcceptAsSingleArgument).
Proof.
  split.
  - apply (wrap_unnamed_tuple (RT := runtime) (DFunction 0) (DNamedTupleType 0)
             None f0_argspec (DNamedTupleType 0)
             [(None, int32); (None, int32)]).
    + reflexivity.
    + reflexivity.
    + reflexivity.
    + reflexivity.
    + simpl. lia.
    + right. split; [reflexivity |].
      exists (DNamedTupleType 0). split; reflexivity.
    + repeat constructor.
    + reflexivity.
  - apply (wrap_unnamed_tuple (RT := runtime) (DFunction 0) (DNamedTupleType 0)
             (Some false) f0_argspec (DNamedTupleType 0)
             [(None, int32); (None, int32)]).
    + reflexivity.
    + reflexivity.
    + reflexivity.
    + reflexivity.
    + simpl. lia.
    + right. split; [reflexivity |].
      exists (DNamedTupleType 0). split; reflexivity.
    + repeat constructor.
    + reflexivity.
Defined.

Lemma wrap_not_a_tuple_witness :
  wrap_as_zero_or_one_arg_callable (DFunction 0) int32 DNone
  = Raise (TypeError CannotAcceptEitherForm)
  ∧ wrap_as_zero_or_one_arg_callable (DFunction 3) int32 DNone
    = Ok (SingleCall (DFunction 3) int32).
Proof.
  split.
  - apply (wrap_not_a_tuple (RT := runtime) (DFunction 0) int32 None
             f0_argspec int32 false).
    + reflexivity.
    + reflexivity.
    + reflexivity.
    + split; [reflexivity |]. exists int32. split; reflexivity.
    + vm_compute. reflexivity.
  - apply (wrap_not_a_tuple (RT := runtime) (DFunction 3) int32 None
             (mkArgSpec ["x"] None None None) int32 true).
    + reflexivity.
    + reflexivity.
    + reflexivity.
    + split; [reflexivity |]. exists int32. split; reflexivity.
    + vm_compute. reflexivity.
Defined.

Lemma pack_then_unpack_witness :
  is_argument_tuple (DAnonymousTuple 7) = Ok true
  ∧ unpack_args_from_tuple (DAnonymousTuple 7) = Ok ([], <["a" := DInt 1]> ∅).
Proof.
  apply (pack_then_unpack (RT := runtime) (DAnonymousTuple 7) []
           (<["a" := DInt 1]> ∅)).
  - vm_compute. reflexivity.
  - vm_compute. reflexivity.
Defined.

Lemma unpack_last_wins_witness :
  ∃ a kwargs,
    unpack_args_from_tuple (DAnonymousTuple 1) = Ok (a, kwargs)
    ∧ (∀ key v, kwargs !! key = Some v ->
                (Some key, v) ∈ [(Some "b", DInt 1); (Some "a", DInt 2)]
                ∧ key ≠ "")
    ∧ (∀ pre name v post,
         [(Some "b", DInt 1); (Some "a", DInt 2)]
         = pre ++ (Some name, v) :: post -> name ≠ "" ->
         (∀ e, e ∈ post -> e.1 ≠ Some name) ->
         kwargs !! name = Some v).
Proof.
  apply (unpack_last_wins (RT := runtime) (DAnonymousTuple 1)).
  left. reflexivity.
Defined.

Lemma unpack_and_call_first_mismatch_witness :
  _unpack_and_call (RT := runtime) demo_getitem demo_getattr (DFunction 3)
    [int32] ∅ (DAnonymousTuple 5)
  = Raise (TypeError (TypeMismatchAt 0))
  ∧ _unpack_and_call (RT := runtime) demo_getitem demo_getattr (DFunction 3)
      [int32] ∅ (DInt 7)
    = Raise (TypeError ExpectedAnonymousTuple).
Proof.
  destruct (unpack_and_call_first_mismatch (RT := runtime) demo_getitem
              demo_getattr (DFunction 3) [int32] ∅ (DAnonymousTuple 5))
    as [_ Hmismatch].
  destruct (unpack_and_call_first_mismatch (RT := runtime) demo_getitem
              demo_getattr (DFunction 3) [int32] ∅ (DInt 7))
    as [Hrefuse _].
  split.
  - apply (Hmismatch [] int32 [] (DStr "seven") (DTensorType "string")).
    + eexists. reflexivity.
    + reflexivity.
    + intros i t' Hi. by rewrite lookup_nil in Hi.
    + reflexivity.
    + reflexivity.
    + reflexivity.
  - apply Hrefuse. reflexivity.
Defined.

Lemma failed_call_stores_nothing_witness :
  PolymorphicFunction_call (PolymorphicFunction_init (DFactory 2)) [DInt 7] ∅
  = (PolymorphicFunction_init (DFactory 2),
     [FactoryInvoked (DNamedTupleType 4)],
     Raise (Foreign true "The argspec cannot be interpreted."))
  ∧ PolymorphicFunction_call (PolymorphicFunction_init (DFactory 0)) [DNone] ∅
    = (PolymorphicFunction_init (DFactory 0), [],
       Raise (Foreign false "MemoryError")).
Proof.
  destruct (failed_call_stores_nothing (RT := runtime)
              (PolymorphicFunction_init (RT := runtime) (DFactory 2))
              [DInt 7] ∅) as [_ Hfactory].
  destruct (failed_call_stores_nothing (RT := runtime)
              (PolymorphicFunction_init (RT := runtime) (DFactory 0))
              [DNone] ∅) as [Hearly _].
  split.
  - apply (Hfactory (DNamedTupleType 4) "NamedTupleType#4").
    + exists (DAnonymousTuple 4). repeat split.
    + reflexivity.
    + reflexivity.
  - apply Hearly. reflexivity.
Defined.

Lemma calls_memoize_witness :
  let r := PolymorphicFunction_calls (RT := runtime)
             (PolymorphicFunction_init (DFactory 0))
             [([DInt 7], ∅); ([DStr "seven"], ∅); ([DInt 7], ∅)] in
  factory_invocations r.2
  = size (list_to_set ["NamedTupleType#4"; "NamedTupleType#8"; "NamedTupleType#4"]
          ∖ dom (∅ : gmap string dobj) : gset string)
  ∧ dom (_concrete_function_cache r.1)
    = dom (∅ : gmap string dobj)
      ∪ (list_to_set ["NamedTupleType#4"; "NamedTupleType#8"; "NamedTupleType#4"]
         : gset string)
  ∧ (∀ key fn, _concrete_function_cache r.1 !! key = Some fn ->
               truthy fn = true).
Proof.
  apply (calls_memoize (RT := runtime)
           (PolymorphicFunction_init (RT := runtime) (DFactory 0))
           [([DInt 7], ∅); ([DStr "seven"], ∅); ([DInt 7], ∅)]
           ["NamedTupleType#4"; "NamedTupleType#8"; "NamedTupleType#4"]).
  - intros key fn Hfn.
    change ((∅ : gmap string dobj) !! key = Some fn) in Hfn.
    by rewrite lookup_empty in Hfn.
  - repeat constructor.
    + exists (DNamedTupleType 4), (DFunction 3).
      split; [exists (DAnonymousTuple 4); repeat split | split; reflexivity].
    + exists (DNamedTupleType 8), (DFunction 3).
      split; [exists (DAnonymousTuple 5); repeat split | split; reflexivity].
    + exists (DNamedTupleType 4), (DFunction 3).
      split; [exists (DAnonymousTuple 4); repeat split | split; reflexivity].
Defined.

Lemma wrap_sound_witness :
  ∃ pt, to_type (DNamedTupleType 0) = Ok pt
    ∧ (DFunction 0 = DFunction 0 ∧ truthy pt = true
       ∧ is_False DNone = false
       ∧ is_argument_tuple pt = Ok true
       ∧ unpack_args_from_tuple pt = Ok ([int32; int32], ∅)
       ∧ (∅ : gmap string dobj) !! "argspec" = None
       ∧ is_argspec_compatible_with_types f0_argspec [int32; int32] ∅ = Ok true).
Proof.
  apply (wrap_sound (RT := runtime) (DFunction 0) (DNamedTupleType 0) DNone
           f0_argspec (UnpackAndCall (RT := runtime) (DFunction 0) [int32; int32] ∅)).
  - do 2 (apply elem_of_cons; right). apply elem_of_cons. by left.
  - reflexivity.
  - reflexivity.
Defined.

(** The integer [0] is equal to [False] and is not [False]: for [f0(x, y)]
    and [<int32, int32>], which does not bind as one argument, the argument
    is passed whole.  The integer [1] is equal to [True] and is not [True]:
    for [f3(x)] and [int32], which is no tuple, the split is read before it
    was assigned. *)
Lemma wrap_unpack_equal_not_identical_witness :
  wrap_as_zero_or_one_arg_callable (DFunction 0) (DNamedTupleType 0) (DInt 0)
  = Ok (SingleCall (DFunction 0) (DNamedTupleType 0))
  ∧ wrap_as_zero_or_one_arg_callable (DFunction 3) int32 (DInt 1)
    = Raise UnboundLocalError.
Proof.
  split.
  - destruct (wrap_unpack_equal_not_identical (RT := runtime) (DFunction 0)
                (DNamedTupleType 0) (DInt 0) f0_argspec (DNamedTupleType 0)
                false true) as [_ Hsecond].
    + reflexivity.
    + intros Hin. repeat (apply elem_of_cons in Hin as [Hin | Hin];
                          [discriminate |]).
      by apply elem_of_nil in Hin.
    + reflexivity.
    + reflexivity.
    + reflexivity.
    + reflexivity.
    + right. split; [reflexivity |]. exists [int32; int32], ∅. repeat split.
    + apply Hsecond. by right.
  - destruct (wrap_unpack_equal_not_identical (RT := runtime) (DFunction 3)
                int32 (DInt 1) (mkArgSpec ["x"] None None None) int32
                true false) as [_ Hsecond].
    + reflexivity.
    + intros Hin. repeat (apply elem_of_cons in Hin as [Hin | Hin];
                          [discriminate |]).
      by apply elem_of_nil in Hin.
    + reflexivity.
    + reflexivity.
    + reflexivity.
    + reflexivity.
    + left. split; reflexivity.
    + apply Hsecond; [by left | reflexivity].
Defined.
